(** * PyWhis: the two background workers of the Whisper transcription tool

    A shallow embedding of [ModelDownloadWorker] and [TranscriptionWorker]
    (src/PyWhis.py).  Python values are modelled as the interpreter has
    them: [int] as [Z], [str] as a list of Unicode code points, [float] as
    an IEEE-754 binary64 number ([spec_float] at precision 53), a [dict] as
    a [gmap].  A worker's [run] is a computation in a state-and-exception
    monad whose state holds the object's attributes and locals together with
    the chronological trace of everything it does to the outside: Qt signals
    emitted, directories made, files opened, written and closed, network
    retrievals started.  What the outside answers (the model's transcripts,
    I/O failures, clock readings, calls of [cancel] from the GUI thread) is
    an explicit oracle argument.  The slots of [WhisperGUI] that the workers'
    signals are connected to are computations in the same monad, over what
    the window's widgets show. *)

From Stdlib Require Import ZArith NArith Lia List Bool String Ascii.
From Stdlib Require Import Floats.SpecFloat.
From stdpp Require Import base option list countable gmap.
Import ListNotations.

Set Default Proof Using "Type".
Local Open Scope Z_scope.

(** ** Python strings *)

Module Py.

(** A Python [str] is a sequence of Unicode code points. *)
Definition codepoint := N.
Abbreviation str := (list codepoint).

(** An ASCII literal of the source, as a [str]. *)
Fixpoint lit (s : string) : str :=
  match s with
  | EmptyString => []
  | String c s' => N_of_ascii c :: lit s'
  end.

(** [c * n] for a one-character string [c]. *)
Definition repeat_char (c : codepoint) (n : nat) : str := repeat c n.

(** [str.isspace] on one character: the code points with bidirectional type
    WS, B or S, or category Zs (CPython's [_PyUnicode_IsWhitespace]). *)
Definition isspace (c : codepoint) : bool :=
  ((9 <=? c) && (c <=? 13) || (28 <=? c) && (c <=? 32) ||
   (c =? 133) || (c =? 160) || (c =? 5760) ||
   (8192 <=? c) && (c <=? 8202) || (c =? 8232) || (c =? 8233) ||
   (c =? 8239) || (c =? 8287) || (c =? 12288))%N.

(** [s.split()] with no argument: the maximal runs of non-whitespace
    characters, in order.  [cur] is the run being read, reversed. *)
Fixpoint split_go (s : str) (cur : str) : list str :=
  match s with
  | [] => match cur with [] => [] | _ => [rev cur] end
  | c :: s' =>
      if isspace c
      then match cur with
           | [] => split_go s' []
           | _ => rev cur :: split_go s' []
           end
      else split_go s' (c :: cur)
  end.

Definition split (s : str) : list str := split_go s [].

(** [len(x)] as a Python [int]. *)
Definition len {A} (l : list A) : Z := Z.of_nat (length l).

(** Truth value of a [str]: non-empty. *)
Definition truthy {A} (l : list A) : bool :=
  match l with [] => false | _ => true end.

(** Decimal digits of a natural number, most significant first.  The fuel
    bounds the number of digits; [N.size_nat n] binary digits suffice. *)
Fixpoint digits_go (fuel : nat) (n : N) (acc : str) : str :=
  match fuel with
  | O => acc
  | S fuel' =>
      let acc' := (48 + n mod 10)%N :: acc in
      if (n <? 10)%N then acc' else digits_go fuel' (n / 10)%N acc'
  end.

Definition digits (n : N) : str := digits_go (S (N.size_nat n)) n [].

(** [str(i)] for an [int]. *)
Definition str_of_int (i : Z) : str :=
  match i with
  | Z0 => lit "0"
  | Zpos p => digits (Npos p)
  | Zneg p => lit "-" ++ digits (Npos p)
  end.

(** [%0wd] for a non-negative field: at least [w] digits, zero-padded. *)
Definition zero_pad (w : nat) (n : Z) : str :=
  let d := digits (Z.to_N n) in
  repeat_char 48%N (w - length d) ++ d.

(** *** Exceptions

    Only [str(e)] of a raised exception is ever used by the workers, so an
    exception is its message.  Everything modelled derives from
    [Exception]; [KeyboardInterrupt] and the like are outside the model. *)
Inductive exn := Exception (msg : str).

Definition exn_str (e : exn) : str := let 'Exception m := e in m.

Inductive res (A : Type) :=
| Ret (a : A)
| Raise (e : exn).
Arguments Ret {A} a.
Arguments Raise {A} e.

End Py.
Import Py.

(** ** Python floats *)

Module Float.

Definition prec : Z := 53.
Definition emax : Z := 1024.

Abbreviation float := spec_float.

(** [float(i)] for an [int] small enough to need no overflow check (the
    source only converts the literal 100 this way). *)
Definition of_int (i : Z) : float := binary_normalize prec emax i 0 false.

Definition mul (x y : float) : float := SFmul prec emax x y.
Definition sub (x y : float) : float := SFsub prec emax x y.

(** [a / b] on two [int]s: the correctly rounded quotient
    (CPython's [long_true_divide]), [ZeroDivisionError] for [b = 0] and
    [OverflowError] when the quotient is too large for a float. *)
Definition truediv (a b : Z) : res float :=
  if b =? 0 then Raise (Exception (lit "division by zero"))
  else
    let s := xorb (a <? 0) (b <? 0) in
    if a =? 0 then Ret (S754_zero s)
    else
      let '(mz, ez, lz) :=
        SFdiv_core_binary prec emax (Z.abs a) 0 (Z.abs b) 0 in
      match binary_round_aux prec emax s mz ez lz with
      | S754_infinity _ | S754_nan =>
          Raise (Exception (lit "integer division result too large for a float"))
      | q => Ret q
      end.

(** [int(x)]: truncation toward zero; an error on infinities and NaN. *)
Definition to_int (x : float) : res Z :=
  match x with
  | S754_zero _ => Ret 0
  | S754_finite s m e =>
      Ret (cond_Zopp s
             (match e with
              | Zneg p => Z.shiftr (Zpos m) (Zpos p)
              | _ => Z.shiftl (Zpos m) e
              end))
  | S754_infinity _ =>
      Raise (Exception (lit "cannot convert float infinity to integer"))
  | S754_nan =>
      Raise (Exception (lit "cannot convert float NaN to integer"))
  end.

(** The exact value of a finite float as a fraction [num / den], [den > 0]. *)
Definition to_frac (x : float) : Z * Z :=
  match x with
  | S754_finite s m e =>
      match e with
      | Zneg p => (cond_Zopp s (Zpos m), Z.shiftl 1 (Zpos p))
      | _ => (cond_Zopp s (Z.shiftl (Zpos m) e), 1)
      end
  | _ => (0, 1)
  end.

(** Mathematical floor of a finite float. *)
Definition floor (x : float) : Z :=
  let '(n, d) := to_frac x in n / d.

Definition sign_bit (x : float) : bool :=
  match x with
  | S754_zero s | S754_infinity s | S754_finite s _ _ => s
  | S754_nan => false
  end.

(** The magnitude [|x|] in tenths, rounded to the nearest integer with
    ties to even, on the exact binary value as [format] does. *)
Definition round_tenths (x : float) : Z :=
  let '(n, d) := to_frac x in
  let n10 := Z.abs n * 10 in
  let q := n10 / d in
  let r := n10 mod d in
  match 2 * r ?= d with
  | Lt => q
  | Gt => q + 1
  | Eq => if Z.even q then q else q + 1
  end.

(** [f"{x:.1f}"]. *)
Definition format_1f (x : float) : str :=
  match x with
  | S754_nan => lit "nan"
  | S754_infinity s => (if s then lit "-" else []) ++ lit "inf"
  | _ =>
      let t := round_tenths x in
      (if sign_bit x then lit "-" else []) ++
      str_of_int (t / 10) ++ lit "." ++ str_of_int (t mod 10)
  end.

(** [x] is a zero or a finite number of sign [s] and magnitude below
    [2 ^ K]. *)
Definition bounded_by (s : bool) (K : Z) (x : float) : Prop :=
  match x with
  | S754_zero s' => s' = s
  | S754_finite s' m e => s' = s /\ Zpos m < 2 ^ (K - e) /\ e <= K
  | _ => False
  end.



End Float.

(** ** Paths and the rest of the runtime

    Every path the workers build is [Path(dir) / base] for a directory
    given as a string and a single file name; it is kept as that pair. *)

Record path := Path { dir : str; base : str }.

#[global] Instance path_eq_dec : EqDecision path.
Proof. solve_decision. Defined.

(** The operations of [pathlib] and the builtin [repr], whose results
    depend on the platform and on the Unicode database. *)
Class Runtime := {
  Path_name : str -> str;   (* Path(s).name *)
  Path_stem : str -> str;   (* Path(s).stem *)
  Path_str : path -> str;   (* str(Path(dir) / base) *)
  repr : str -> str;        (* repr(s) *)
}.

(** *** The runtime on POSIX

    [PurePosixPath] as in CPython 3.12; [repr] takes every code point above
    U+00FF to be printable. *)
Module Posix.

Definition slash : codepoint := 47%N.
Definition dot : codepoint := 46%N.

Definition str_eqb (a b : str) : bool := bool_decide (a = b).

(** [s.split(sep)] for a one-character separator. *)
Fixpoint split_on (sep : codepoint) (s : str) (cur : str) : list str :=
  match s with
  | [] => [rev cur]
  | c :: s' =>
      if (c =? sep)%N then rev cur :: split_on sep s' []
      else split_on sep s' (c :: cur)
  end.

(** The components of a path: empty and ["."] components are dropped. *)
Definition parts (s : str) : list str :=
  filter (fun p => negb (str_eqb p []) && negb (str_eqb p [dot]) = true)
         (split_on slash s []).

Fixpoint leading_slashes (s : str) : nat :=
  match s with
  | c :: s' => if (c =? slash)%N then S (leading_slashes s') else O
  | [] => O
  end.

(** The root: ["//"] for exactly two leading slashes, ["/"] for any other
    positive number, none for a relative path. *)
Definition root (s : str) : str :=
  match leading_slashes s with
  | O => []
  | 2%nat => [slash; slash]
  | _ => [slash]
  end.

Fixpoint join (sep : str) (l : list str) : str :=
  match l with
  | [] => []
  | [x] => x
  | x :: l' => x ++ sep ++ join sep l'
  end.

Definition name (s : str) : str := List.last (parts s) [].

(** Index of the last occurrence of [c], counted from the left. *)
Fixpoint rfind (c : codepoint) (s : str) (i : nat) (found : option nat)
  : option nat :=
  match s with
  | [] => found
  | x :: s' => rfind c s' (S i) (if (x =? c)%N then Some i else found)
  end.

Definition stem (s : str) : str :=
  let n := name s in
  match rfind dot n 0 None with
  | Some i =>
      if (0 <? i)%nat && (i <? length n - 1)%nat then take i n else n
  | None => n
  end.

Definition to_str (p : path) : str :=
  let r := root (dir p) in
  let ps := parts (dir p) ++ parts (base p) in
  match r, ps with
  | [], [] => [dot]
  | _, _ => r ++ join [slash] ps
  end.

Definition hex_digit (n : N) : codepoint :=
  if (n <? 10)%N then (48 + n)%N else (87 + n)%N.

Definition escape (quote : codepoint) (c : codepoint) : str :=
  if (c =? 92)%N then [92; 92]%N
  else if (c =? quote)%N then [92%N; quote]
  else if (c =? 9)%N then lit "\t"
  else if (c =? 10)%N then lit "\n"
  else if (c =? 13)%N then lit "\r"
  else if (c <? 32)%N || (127 <=? c)%N && (c <=? 160)%N || (c =? 173)%N
       then lit "\x" ++ [hex_digit (c / 16); hex_digit (c mod 16)]
  else [c].

Definition repr (s : str) : str :=
  let has c := existsb (N.eqb c) s in
  let quote := if has 39%N && negb (has 34%N) then 34%N else 39%N in
  [quote] ++ flat_map (escape quote) s ++ [quote].

End Posix.

Definition posix : Runtime :=
  {| Path_name := Posix.name; Path_stem := Posix.stem;
     Path_str := Posix.to_str; repr := Posix.repr |}.

(** ** The monad of a worker's code

    A computation reads and updates the state [S] and either returns or
    raises.  The state survives a raise: assignments made and signals
    emitted before the exception stay. *)

Definition M (S A : Type) : Type := S -> res A * S.

Section Monad.
Context {S : Type}.

Definition ret {A} (a : A) : M S A := fun s => (Ret a, s).

Definition bind {A B} (m : M S A) (k : A -> M S B) : M S B :=
  fun s =>
    match m s with
    | (Ret a, s') => k a s'
    | (Raise e, s') => (Raise e, s')
    end.

Definition raise {A} (e : exn) : M S A := fun s => (Raise e, s).

(** A call into the outside whose outcome the oracle gives. *)
Definition lift {A} (r : res A) : M S A := fun s => (r, s).

Definition gets {A} (f : S -> A) : M S A := fun s => (Ret (f s), s).

Definition modify (f : S -> S) : M S unit := fun s => (Ret tt, f s).

(** [try: body except Exception as e: handler(e)]. *)
Definition try_except (body : M S unit) (handler : exn -> M S unit)
  : M S unit :=
  fun s =>
    match body s with
    | (Ret a, s') => (Ret a, s')
    | (Raise e, s') => handler e s'
    end.
End Monad.

Declare Scope py_scope.
Delimit Scope py_scope with py.
Notation "x <- c ;; k" := (bind c (fun x => k))
  (at level 100, c at next level, right associativity) : py_scope.
Notation "c ;;; k" := (bind c (fun _ => k))
  (at level 100, right associativity) : py_scope.
Local Open Scope py_scope.

(** ** ModelDownloadWorker *)

Module Download.

Definition MODEL_URLS : gmap str str :=
  list_to_map
    [ (lit "tiny", lit "https://openaipublic.azureedge.net/main/whisper/models/65147644a518d12f04e32d6f3b26facc3f8dd46e5390956a9424a650c0ce22b9/tiny.pt");
      (lit "base", lit "https://openaipublic.azureedge.net/main/whisper/models/ed3a0b6b1c0edf879ad9b11b1af5a0e6ab5db9205f891f668f8b0e6c6326e34e/base.pt");
      (lit "small", lit "https://openaipublic.azureedge.net/main/whisper/models/9ecf779972d90ba49c06d968637d720dd632c55bbf19d441fb42bf17a411e794/small.pt");
      (lit "medium", lit "https://openaipublic.azureedge.net/main/whisper/models/345ae4da62f9b3d59415adc60127b97c714f32e89e936602e85993674d08dcb1/medium.pt");
      (lit "large-v2", lit "https://openaipublic.azureedge.net/main/whisper/models/81f7c96c852ee8fc832187b0132e569d6c3065a3252ed18e56effd0b6a73e524/large-v2.pt");
      (lit "large-v3", lit "https://openaipublic.azureedge.net/main/whisper/models/e5b1a55b89c1367dacf97e3e19bfd829a01529dbfdeefa8caeb59b3f1b81dadb/large-v3.pt") ].

Definition MODEL_SIZES : gmap str str :=
  list_to_map
    [ (lit "tiny", lit "~75 MB");
      (lit "base", lit "~142 MB");
      (lit "small", lit "~466 MB");
      (lit "medium", lit "~1.5 GB");
      (lit "large-v2", lit "~3 GB");
      (lit "large-v3", lit "~3 GB") ].

(** What the worker does to the outside, in the order it happens: the four
    signals of the class, and the two calls that touch the file system and
    the network. *)
Inductive event :=
| Progress (percent : Z)              (* progress.emit *)
| Status (msg : str)                  (* status.emit *)
| FinishedDownload (model_path : str) (* finished_download.emit *)
| Error (msg : str)                   (* error.emit *)
| Mkdir (d : str)                     (* Path(d).mkdir(parents=True, exist_ok=True) returned *)
| UrlRetrieve (url : str) (dest : str). (* urllib.request.urlretrieve called *)

(** The attributes set by [__init__]. *)
Record Worker := { model_name : str; models_dir : str }.

(** The outside during one [run]. *)
Record World := {
  (** [p.exists()] at the moment of the check *)
  path_exists : path -> bool;
  (** outcome of creating the models directory *)
  mkdir_out : res unit;
  (** the calls [urlretrieve] makes to its report hook, as
      [(block_num, block_size, total_size)], in order *)
  hook_calls : list (Z * Z * Z);
  (** how [urlretrieve] ends when no hook call raised *)
  retrieve_out : res unit;
}.

Abbreviation task := (M (list event)).

Definition emit (e : event) : task unit := modify (fun tr => tr ++ [e]).

Section Run.
Context `{Runtime}.

(** [d[k]] *)
Definition getitem (d : gmap str str) (k : str) : res str :=
  match d !! k with
  | Some v => Ret v
  | None => Raise (Exception (repr k))
  end.

Definition report_progress (block_num block_size total_size : Z)
  : task unit :=
  let downloaded := block_num * block_size in
  if 0 <? total_size then
    ratio <- lift (Float.truediv downloaded total_size) ;;
    percent <- lift (Float.to_int (Float.mul ratio (Float.of_int 100))) ;;
    emit (Progress percent) ;;;
    mb_downloaded <- lift (Float.truediv downloaded (1024 * 1024)) ;;
    mb_total <- lift (Float.truediv total_size (1024 * 1024)) ;;
    emit (Status (lit "Downloading: " ++ Float.format_1f mb_downloaded ++
                  lit " MB / " ++ Float.format_1f mb_total ++ lit " MB"))
  else ret tt.

(** The hook calls of one retrieval; a raising hook ends it. *)
Fixpoint report_all (calls : list (Z * Z * Z)) : task unit :=
  match calls with
  | [] => ret tt
  | (block_num, block_size, total_size) :: rest =>
      report_progress block_num block_size total_size ;;;
      report_all rest
  end.

Definition urlretrieve (w : World) (url dest : str) : task unit :=
  emit (UrlRetrieve url dest) ;;;
  report_all (hook_calls w) ;;;
  lift (retrieve_out w).

Definition model_path_of (self : Worker) : path :=
  Path (models_dir self) (model_name self ++ lit ".pt").

Definition run (self : Worker) (w : World) : task unit :=
  try_except
    (url <- lift (getitem MODEL_URLS (model_name self)) ;;
     let model_path := model_path_of self in
     if path_exists w model_path then
       emit (Status (lit "Model already exists, loading...")) ;;;
       emit (FinishedDownload (Path_str model_path))
     else
       lift (mkdir_out w) ;;;
       emit (Mkdir (models_dir self)) ;;;
       size <- lift (getitem MODEL_SIZES (model_name self)) ;;
       emit (Status (lit "Downloading " ++ model_name self ++
                     lit " model (" ++ size ++ lit ")...")) ;;;
       urlretrieve w url (Path_str model_path) ;;;
       emit (Status (lit "Download complete, loading model...")) ;;;
       emit (FinishedDownload (Path_str model_path)))
    (fun e => emit (Error (lit "Download failed: " ++ exn_str e))).

(** The events of a run of a fresh worker, and how it ended. *)
Definition run_trace (self : Worker) (w : World) : list event :=
  snd (run self w []).

End Run.

(** No network transfer happened: [urlretrieve] was never called. *)
Definition no_transfer (tr : list event) : Prop :=
  forall url dest, UrlRetrieve url dest ∉ tr.

(** *** A concrete worker and world *)

Definition tiny_worker : Worker :=
  {| model_name := lit "tiny"; models_dir := lit "models" |}.

Definition world_with_artifact : World :=
  {| path_exists := fun _ => true; mkdir_out := Ret tt;
     hook_calls := []; retrieve_out := Ret tt |}.

End Download.

(** ** TranscriptionWorker *)

Module Transcription.

(** The [encoding] argument of [open]. *)
Inductive encoding := Utf8 | LocaleDefault.

(** What the worker does to the outside, in the order it happens: the five
    signals of the class, and the file-system calls that returned. *)
Inductive event :=
| Progress (percent : Z)                                   (* progress.emit *)
| Status (msg : str)                                       (* status.emit *)
| FileComplete (file_name : str) (duration : Float.float) (word_count : Z)
                                                           (* file_complete.emit *)
| AllComplete (total_duration : Float.float) (total_words : Z)
              (successful_files : Z)                       (* all_complete.emit *)
| Error (file_name : str) (msg : str)                      (* error.emit *)
| Mkdir (d : str)                  (* Path(d).mkdir(parents=True, exist_ok=True) *)
| Open (p : path) (enc : encoding)  (* open(p, 'w', encoding=enc) *)
| Write (p : path) (text : str)     (* f.write(text) on the file opened at p *)
| Close (p : path).                 (* the with block closed the file *)

(** [datetime.now()], down to the second. *)
Record datetime := {
  year : Z; month : Z; day : Z; hour : Z; minute : Z; second : Z
}.

(** [strftime("%Y%m%d_%H%M%S")] *)
Definition strftime_compact (t : datetime) : str :=
  zero_pad 4 (year t) ++ zero_pad 2 (month t) ++ zero_pad 2 (day t) ++
  lit "_" ++
  zero_pad 2 (hour t) ++ zero_pad 2 (minute t) ++ zero_pad 2 (second t).

(** [strftime('%Y-%m-%d %H:%M:%S')] *)
Definition strftime_iso (t : datetime) : str :=
  zero_pad 4 (year t) ++ lit "-" ++ zero_pad 2 (month t) ++ lit "-" ++
  zero_pad 2 (day t) ++ lit " " ++
  zero_pad 2 (hour t) ++ lit ":" ++ zero_pad 2 (minute t) ++ lit ":" ++
  zero_pad 2 (second t).

(** The attributes set by [__init__].  [model] is an opaque capability:
    what its [transcribe] answers comes from the oracle below. *)
Record Worker := {
  files : list str;
  output_dir : str;
  error_log_path : str;
  is_cancelled : bool;
  errors : list (str * str);
}.

Definition init (files : list str) (output_dir error_log_path : str)
  : Worker :=
  {| files := files; output_dir := output_dir;
     error_log_path := error_log_path;
     is_cancelled := false; errors := [] |}.

(** [cancel], called from the GUI thread. *)
Definition cancel (self : Worker) : Worker :=
  {| files := files self; output_dir := output_dir self;
     error_log_path := error_log_path self;
     is_cancelled := true; errors := errors self |}.

(** The object, the locals of [run] that outlive an exception, and the
    trace. *)
Record State := {
  self : Worker;
  total_words : Z;
  successful_files : Z;
  trace : list event;
}.

Definition start (w : Worker) : State :=
  {| self := w; total_words := 0; successful_files := 0; trace := [] |}.

Definition on_self (f : Worker -> Worker) (s : State) : State :=
  {| self := f (self s); total_words := total_words s;
     successful_files := successful_files s; trace := trace s |}.

Definition set_total_words (n : Z) (s : State) : State :=
  {| self := self s; total_words := n;
     successful_files := successful_files s; trace := trace s |}.

Definition set_successful_files (n : Z) (s : State) : State :=
  {| self := self s; total_words := total_words s;
     successful_files := n; trace := trace s |}.

Definition append_error (e : str * str) (w : Worker) : Worker :=
  {| files := files w; output_dir := output_dir w;
     error_log_path := error_log_path w;
     is_cancelled := is_cancelled w; errors := errors w ++ [e] |}.

Definition record (e : event) (s : State) : State :=
  {| self := self s; total_words := total_words s;
     successful_files := successful_files s; trace := trace s ++ [e] |}.

Abbreviation task := (M State).

Definition emit (e : event) : task unit := modify (record e).

(** *** The outside *)

(** One file opened for writing: whether [open] succeeds, whether the
    [k]-th call of [write] on it does, whether closing it does. *)
Record FileIO := {
  open_out : res unit;
  write_out : nat -> res unit;
  close_out : res unit;
}.

(** The outside while one file of the batch is processed. *)
Record FileWorld := {
  (** [get_time()] before and after [transcribe] *)
  clock_start : Float.float;
  clock_end : Float.float;
  (** ['text'] of what [model.transcribe] returns, or what it raises *)
  transcribe_out : res str;
  (** creating the output directory *)
  mkdir_out : res unit;
  (** writing the output file *)
  save_io : FileIO;
  (** how often the GUI thread calls [cancel] while this file is
      processed, that is after the flag was read for it and before it is
      read for the next one *)
  cancel_calls : nat;
}.

(** The outside while the error log is written. *)
Record LogWorld := {
  log_mkdir_out : res unit;
  now_name : datetime;      (* datetime.now() for the file name *)
  now_header : datetime;    (* datetime.now() for the header line *)
  log_io : FileIO;
}.

(** The outside during one [run]. *)
Record World := {
  run_start : Float.float;      (* get_time() at the start *)
  run_end : Float.float;        (* get_time() at the end *)
  (** calls of [cancel] before the flag is first read *)
  cancel_calls_before : nat;
  (** the outside during iteration [idx] of the loop *)
  file_world : nat -> FileWorld;
  log_world : LogWorld;
}.

(** The GUI thread calls [cancel] [n] times. *)
Definition controller (n : nat) : task unit :=
  modify (on_self (Nat.iter n cancel)).

(** *** The code *)

Definition newline : codepoint := 10%N.

(** The prefix of the skip message, as the source file has it. *)
Definition warning_sign : str := [8218; 246; 8224; 212; 8719; 232]%N.

(** [f.write] of each chunk in turn, the first being call number [k]. *)
Fixpoint write_all (io : FileIO) (p : path) (k : nat) (chunks : list str)
  : task unit :=
  match chunks with
  | [] => ret tt
  | c :: rest =>
      lift (write_out io k) ;;;
      emit (Write p c) ;;;
      write_all io p (S k) rest
  end.

(** [with open(p, 'w', encoding='utf-8') as f: body].  The file is closed
    whether [body] raises or not; an error on closing takes the place of
    the one from [body]. *)
Definition with_open (io : FileIO) (p : path) (body : task unit)
  : task unit :=
  lift (open_out io) ;;;
  emit (Open p Utf8) ;;;
  fun s =>
    match body s with
    | (Ret _, s') => (lift (close_out io) ;;; emit (Close p)) s'
    | (Raise e, s') =>
        match close_out io with
        | Ret _ => (Raise e, record (Close p) s')
        | Raise e' => (Raise e', s')
        end
    end.

Definition save_transcription (io : FileIO) (text : str) (output_path : path)
  : task unit :=
  with_open io output_path (write_all io output_path 0 [text]).

(** The name of the log file written at time [t]. *)
Definition log_name (t : datetime) : str :=
  lit "transcription_errors_" ++ strftime_compact t ++ lit ".log".

Definition log_header (t : datetime) : list str :=
  [ lit "Transcription Error Log - " ++ strftime_iso t ++ [newline];
    repeat_char 61%N 70 ++ [newline; newline] ].

(** What the loop body of [write_error_log] writes for one entry. *)
Definition log_block (e : str * str) : list str :=
  let '(filename, error) := e in
  [ lit "File: " ++ filename ++ [newline];
    lit "Error: " ++ error ++ [newline];
    repeat_char 45%N 70 ++ [newline; newline] ].

Definition write_error_log (lw : LogWorld) : task unit :=
  try_except
    (log_dir <- gets (fun s => error_log_path (self s)) ;;
     lift (log_mkdir_out lw) ;;;
     emit (Mkdir log_dir) ;;;
     let log_file := Path log_dir (log_name (now_name lw)) in
     with_open (log_io lw) log_file
       (errs <- gets (fun s => errors (self s)) ;;
        write_all (log_io lw) log_file 0
          (log_header (now_header lw) ++ flat_map log_block errs)))
    (fun e =>
       emit (Error (lit "Error Log")
                   (lit "Could not write error log: " ++ exn_str e))).

Section Run.
Context `{Runtime}.

(** [int(((idx + 1) / total_files) * 100)] *)
Definition progress_percent (idx total_files : Z) : res Z :=
  match Float.truediv (idx + 1) total_files with
  | Ret ratio => Float.to_int (Float.mul ratio (Float.of_int 100))
  | Raise e => Raise e
  end.

(** The body of the [try] block for one file. *)
Definition transcribe_and_save (file_path : str) (fw : FileWorld)
  : task unit :=
  let file_name := Path_name file_path in
  let file_start := clock_start fw in
  text <- lift (transcribe_out fw) ;;
  let file_duration := Float.sub (clock_end fw) file_start in
  let word_count := len (split text) in
  modify (fun s => set_total_words (total_words s + word_count) s) ;;;
  out_dir <- gets (fun s => output_dir (self s)) ;;
  lift (mkdir_out fw) ;;;
  emit (Mkdir out_dir) ;;;
  let output_filename := Path_stem file_path ++ lit ".txt" in
  let output_path := Path out_dir output_filename in
  save_transcription (save_io fw) text output_path ;;;
  modify (fun s => set_successful_files (successful_files s + 1) s) ;;;
  emit (FileComplete file_name file_duration word_count).

(** The [except Exception as e] block. *)
Definition skip_file (file_name : str) (e : exn) : task unit :=
  modify (on_self (append_error (file_name, exn_str e))) ;;;
  emit (Error file_name (exn_str e)) ;;;
  emit (Status (warning_sign ++ lit " Skipped " ++ file_name ++
                lit " due to error")).

(** One iteration of the loop, after the cancellation check. *)
Definition process_file (total_files idx : Z) (file_path : str)
    (fw : FileWorld) : task unit :=
  let file_name := Path_name file_path in
  emit (Status (lit "Transcribing " ++ file_name ++ lit " (" ++
                str_of_int (idx + 1) ++ lit "/" ++
                str_of_int total_files ++ lit ")...")) ;;;
  try_except (transcribe_and_save file_path fw) (skip_file file_name) ;;;
  percent <- lift (progress_percent idx total_files) ;;
  emit (Progress percent).

(** [for idx, file_path in enumerate(self.files)], from index [idx] on. *)
Fixpoint loop (w : World) (total_files : Z) (idx : nat)
    (remaining : list str) : task unit :=
  match remaining with
  | [] => ret tt
  | file_path :: rest =>
      cancelled <- gets (fun s => is_cancelled (self s)) ;;
      if cancelled : bool then
        emit (Status (lit "Transcription cancelled"))
      else
        process_file total_files (Z.of_nat idx) file_path
                     (file_world w idx) ;;;
        controller (cancel_calls (file_world w idx)) ;;;
        loop w total_files (S idx) rest
  end.

Definition run (w : World) : task unit :=
  fs <- gets (fun s => files (self s)) ;;
  let total_files := len fs in
  modify (set_total_words 0) ;;;
  modify (set_successful_files 0) ;;;
  let start_time := run_start w in
  controller (cancel_calls_before w) ;;;
  loop w total_files 0 fs ;;;
  errs <- gets (fun s => errors (self s)) ;;
  log_dir <- gets (fun s => error_log_path (self s)) ;;
  (if truthy errs && truthy log_dir
   then write_error_log (log_world w) else ret tt) ;;;
  let total_duration := Float.sub (run_end w) start_time in
  words <- gets total_words ;;
  successful <- gets successful_files ;;
  emit (AllComplete total_duration words successful).

(** A batch: a worker is constructed and its [run] executed. *)
Definition batch (w : World) (fs : list str) (out_dir log_dir : str)
  : res unit * State :=
  run w (start (init fs out_dir log_dir)).

End Run.

(** *** Vocabulary of the properties *)

(** The per-file results: the name carried by a [file_complete] or an
    [error] signal. *)
Definition result_of (e : event) : option str :=
  match e with
  | FileComplete name _ _ | Error name _ => Some name
  | _ => None
  end.

Definition results (tr : list event) : list str := omap result_of tr.

(** The failures signalled, as [(filename, message)]. *)
Definition failure_of (e : event) : option (str * str) :=
  match e with
  | Error name msg => Some (name, msg)
  | _ => None
  end.

Definition failures (tr : list event) : list (str * str) :=
  omap failure_of tr.

Definition is_summary (e : event) : Prop :=
  match e with AllComplete _ _ _ => True | _ => False end.

(** An output file: a name ending in [.txt]. *)
Definition output_path (p : path) : Prop := lit ".txt" `suffix_of` base p.

(** The file-system calls made for one file of the batch. *)
Definition is_output_io (e : event) : Prop :=
  match e with
  | Mkdir _ => True
  | Open p _ | Write p _ | Close p => output_path p
  | _ => False
  end.

(** [s] with more events on its trace. *)
Definition extend (s : State) (evs : list event) : State :=
  {| self := self s; total_words := total_words s;
     successful_files := successful_files s; trace := trace s ++ evs |}.

(** What a trace wrote to the file at [p], in order. *)
Definition written_to (p : path) (e : event) : option str :=
  match e with
  | Write p' text => if decide (p' = p) then Some text else None
  | _ => None
  end.

Definition file_content (p : path) (tr : list event) : str :=
  concat (omap (written_to p) tr).

(** The log files a trace opened: the [open] calls on a name ending
    in [.log]. *)
Definition opens_log (e : event) : bool :=
  match e with
  | Open p _ => bool_decide (lit ".log" `suffix_of` base p)
  | _ => false
  end.

Definition log_files_opened (tr : list event) : list event :=
  List.filter opens_log tr.

(** An event of the loop: not the summary, and nothing done to a file
    other than an output file. *)
Definition loop_event (e : event) : Prop :=
  ~ is_summary e /\ opens_log e = false /\
  forall p, ~ output_path p -> written_to p e = None.

(** An event of [write_error_log] for the log file [p]. *)
Definition log_event (p : path) (e : event) : Prop :=
  match e with
  | Mkdir _ => True
  | Open p' enc => p' = p /\ enc = Utf8
  | Write p' _ | Close p' => p' = p
  | Error name _ => name = lit "Error Log"
  | _ => False
  end.

(** The flag as iteration [idx] reads it, in a run of a fresh worker:
    set once [cancel] has been called at all. *)
Fixpoint cancelled_at (w : World) (idx : nat) : bool :=
  match idx with
  | O => (0 <? cancel_calls_before w)%nat
  | S i => cancelled_at w i || (0 <? cancel_calls (file_world w i))%nat
  end.

(** Of [n] files from index [idx] on, how many are attempted: those before
    the first iteration that reads the flag set. *)
Fixpoint attempted_from (w : World) (idx n : nat) : nat :=
  match n with
  | O => O
  | S n' =>
      if cancelled_at w idx then O else S (attempted_from w (S idx) n')
  end.

Definition attempted (w : World) (n : nat) : nat := attempted_from w 0 n.

(** The files left unattempted after a cancellation. *)
Definition unattempted (w : World) (n : nat) : nat := (n - attempted w n)%nat.

(** The call returned. *)
Definition returned {A} (r : res A) : bool :=
  match r with Ret _ => true | Raise _ => false end.

(** The path of the log file of a run. *)
Definition log_file_of (lw : LogWorld) (self : Worker) : path :=
  Path (error_log_path self) (log_name (now_name lw)).

(** The state in which [run], started in state [s], enters its loop: the
    counters are reset and the GUI thread may already have called
    [cancel]. *)
Definition entry_of (w : World) (s : State) : State :=
  on_self (Nat.iter (cancel_calls_before w) cancel)
          (set_successful_files 0 (set_total_words 0 s)).

Definition entry (w : World) (fs : list str) (out_dir log_dir : str) : State :=
  entry_of w (start (init fs out_dir log_dir)).

(** The events [write_error_log] adds for a worker in state [self]. *)
Definition log_trace (lw : LogWorld) (self : Worker) : list event :=
  trace (snd (write_error_log lw (start self))).

(** The log is due: there are failures and a log directory is configured. *)
Definition log_due (self : Worker) : bool :=
  truthy (errors self) && truthy (error_log_path self).

(** Everything about writing the log succeeds. *)
Definition log_io_ok (lw : LogWorld) : Prop :=
  log_mkdir_out lw = Ret tt /\ open_out (log_io lw) = Ret tt /\
  (forall k, write_out (log_io lw) k = Ret tt) /\
  close_out (log_io lw) = Ret tt.



(** What one iteration does to the state, for a file of name [name]:
    either the file is counted and its result signalled, or the failure is
    recorded and signalled.  [wc] is what the iteration adds to the word
    total. *)
Inductive file_step (name : str) (s s' : State) : Prop :=
| step_success (st : str) (io : list event) (dur : Float.float)
               (wc percent : Z) :
    Forall is_output_io io ->
    0 <= wc ->
    self s' = self s ->
    total_words s' = total_words s + wc ->
    successful_files s' = successful_files s + 1 ->
    trace s' = trace s ++ [Status st] ++ io ++
               [FileComplete name dur wc; Progress percent] ->
    file_step name s s'
| step_failure (st st' msg : str) (io : list event) (wc percent : Z) :
    Forall is_output_io io ->
    0 <= wc ->
    self s' = append_error (name, msg) (self s) ->
    total_words s' = total_words s + wc ->
    successful_files s' = successful_files s ->
    trace s' = trace s ++ [Status st] ++ io ++
               [Error name msg; Status st'; Progress percent] ->
    file_step name s s'.

Section Outcomes.
Context `{Runtime}.

(** The [try] block for this file raises [e]: the transcription, the
    creation of the output directory or the output write fails. *)
Definition fails (file_path : str) (fw : FileWorld) (e : exn) : Prop :=
  forall s, fst (transcribe_and_save file_path fw s) = Raise e.

(** What the loop does from iteration [idx] on: it runs out of files, or
    reads the flag set and stops, or processes one file, lets the GUI
    thread call [cancel], and goes on. *)
Inductive loop_run (w : World) : nat -> list str -> State -> State -> Prop :=
| loop_exhausted idx s :
    loop_run w idx [] s s
| loop_cancelled idx file_path rest s :
    is_cancelled (self s) = true ->
    loop_run w idx (file_path :: rest) s
             (extend s [Status (lit "Transcription cancelled")])
| loop_next idx file_path rest s s1 s' :
    is_cancelled (self s) = false ->
    file_step (Path_name file_path) s s1 ->
    loop_run w (S idx) rest
             (on_self (Nat.iter (cancel_calls (file_world w idx)) cancel) s1)
             s' ->
    loop_run w idx (file_path :: rest) s s'.
End Outcomes.

(** The claim about the error log as the specification words it: a log
    file is written if and only if the log is due, and then exactly one. *)
Definition log_written_iff_due (s : State) : Prop :=
  (log_files_opened (trace s) <> [] <-> log_due (self s) = true) /\
  (log_due (self s) = true -> length (log_files_opened (trace s)) = 1%nat).


(** The percentage carried by a [progress] signal. *)
Definition percent_of (e : event) : option Z :=
  match e with Progress p => Some p | _ => None end.

End Transcription.

(** ** Concrete batches *)

Module Scenario.
Import Transcription.

Definition io_ok : FileIO :=
  {| open_out := Ret tt; write_out := fun _ => Ret tt; close_out := Ret tt |}.

Definition io_denied : FileIO :=
  {| open_out := Raise (Exception (lit "Permission denied"));
     write_out := fun _ => Ret tt; close_out := Ret tt |}.

(** A file that transcribes to [text] in one second and is saved. *)
Definition transcribed (text : string) : FileWorld :=
  {| clock_start := Float.of_int 10; clock_end := Float.of_int 11;
     transcribe_out := Ret (lit text); mkdir_out := Ret tt;
     save_io := io_ok; cancel_calls := 0 |}.

(** A file whose transcription raises. *)
Definition undecodable (msg : string) : FileWorld :=
  {| clock_start := Float.of_int 10; clock_end := Float.of_int 11;
     transcribe_out := Raise (Exception (lit msg)); mkdir_out := Ret tt;
     save_io := io_ok; cancel_calls := 0 |}.

(** A file that transcribes to [text] but whose output file cannot be
    opened. *)
Definition unwritable (text : string) : FileWorld :=
  {| clock_start := Float.of_int 10; clock_end := Float.of_int 11;
     transcribe_out := Ret (lit text); mkdir_out := Ret tt;
     save_io := io_denied; cancel_calls := 0 |}.

Definition noon : datetime :=
  {| year := 2024; month := 3; day := 7; hour := 12; minute := 0; second := 5 |}.

Definition log_ok : LogWorld :=
  {| log_mkdir_out := Ret tt; now_name := noon; now_header := noon;
     log_io := io_ok |}.

Definition log_denied : LogWorld :=
  {| log_mkdir_out := Ret tt; now_name := noon; now_header := noon;
     log_io := io_denied |}.

(** The second file is the one in progress when [cancel] is called. *)
Definition cancelled_during_second (i : nat) : FileWorld :=
  match i with
  | 1%nat =>
      {| clock_start := Float.of_int 10; clock_end := Float.of_int 11;
         transcribe_out := Ret (lit "x y z"); mkdir_out := Ret tt;
         save_io := io_ok; cancel_calls := 1 |}
  | _ => transcribed "a"
  end.

(** The first file transcribes, the others do not. *)
Definition first_only (i : nat) : FileWorld :=
  match i with
  | O => transcribed "hello world"
  | _ => undecodable "decode error"
  end.

Definition world (fw : nat -> FileWorld) (lw : LogWorld) : World :=
  {| run_start := Float.of_int 0; run_end := Float.of_int 1;
     cancel_calls_before := 0; file_world := fw; log_world := lw |}.

End Scenario.

(** ** Floats: magnitudes with a bound that can be met *)

Module FloatRange.
Import Float.
(** [x] is a zero or a finite number of sign [s] and magnitude at most
    [C * 2 ^ J]. *)
Definition at_most (s : bool) (C J : Z) (x : float) : Prop :=
  match x with
  | S754_zero s' => s' = s
  | S754_finite s' m e => s' = s /\ Zpos m <= C * 2 ^ (J - e) /\ e <= J
  | _ => False
  end.

(** The mantissa [m] at exponent [e], with what was cut off located by
    [l], stands for a value of at most [C * 2 ^ J], exactly so only when
    nothing was cut off. *)
Definition under (C J m e : Z) (l : location) : Prop :=
  0 <= m /\ e <= J /\
  (m < C * 2 ^ (J - e) \/ (m = C * 2 ^ (J - e) /\ l = loc_Exact)).

Definition one : float := S754_finite false 4503599627370496 (-52).
End FloatRange.

(** ** The runs of the download worker *)

Module DownloadRuns.
Import Download.

(** The signals that end a run: success or failure. *)
Definition is_terminal (e : event) : Prop :=
  match e with FinishedDownload _ | Error _ => True | _ => False end.

(** The signals of the report hook. *)
Definition is_report (e : event) : Prop :=
  match e with Progress _ | Status _ => True | _ => False end.

Definition is_progress (e : event) : Prop :=
  match e with Progress _ => True | _ => False end.

(** The [error] signal for an exception caught by [run]. *)
Definition failed (e : exn) : event :=
  Error (lit "Download failed: " ++ exn_str e).

(** A world in which nothing fails and the artifact is absent; the server
    reports a size of 20000 bytes and the hook is called as [urlretrieve]
    does, once before the first block and once after each of the three
    blocks read. *)
Definition fresh_world : World :=
  {| path_exists := fun _ => false; mkdir_out := Ret tt;
     hook_calls := [(0, 8192, 20000); (1, 8192, 20000); (2, 8192, 20000);
                    (3, 8192, 20000)];
     retrieve_out := Ret tt |}.

(** The same with no content length reported. *)
Definition sizeless_world : World :=
  {| path_exists := fun _ => false; mkdir_out := Ret tt;
     hook_calls := [(0, 8192, -1); (1, 8192, -1); (2, 8192, -1)];
     retrieve_out := Ret tt |}.

Definition unknown_worker : Worker :=
  {| model_name := lit "huge"; models_dir := lit "models" |}.


(** What the report hook emits over a whole retrieval. *)
Definition hook_events (w : World) : list event :=
  snd (report_all (hook_calls w) []).

(** The directory can be made and the retrieval runs to its end: no hook
    call raises and [urlretrieve] returns. *)
Definition transfer_succeeds (w : World) : Prop :=
  mkdir_out w = Ret tt /\
  fst (report_all (hook_calls w) []) = Ret tt /\
  retrieve_out w = Ret tt.
End DownloadRuns.

(** ** The attempts of a batch *)

Module Attempts.
Import Transcription.

(** The words of the transcript of a file, none when the transcription
    raises. *)
Definition words_of (fw : FileWorld) : Z :=
  match transcribe_out fw with
  | Ret text => len (split text)
  | Raise _ => 0
  end.

(** What is on disk at [p] after a trace: opening for writing truncates,
    writing appends. *)
Definition disk_step (p : path) (content : str) (e : event) : str :=
  match e with
  | Open p' _ => if decide (p' = p) then [] else content
  | Write p' text => if decide (p' = p) then content ++ text else content
  | _ => content
  end.

Definition disk_content (p : path) (tr : list event) : str :=
  fold_left (disk_step p) tr [].

Definition sum_Z (l : list Z) : Z := fold_right Z.add 0 l.

Section Attempts.
Context `{Runtime}.

(** How the [try] block for a file ends.  It does not depend on the state
    it is started in, so it is read off a fresh one. *)
Definition outcome_of (file_path : str) (fw : FileWorld) : res unit :=
  fst (transcribe_and_save file_path fw (start (init [] [] []))).

(** The iterations the loop runs from index [idx] on, each with the file
    it processes: those before the first one that reads the flag set. *)
Fixpoint attempts (w : World) (idx : nat) (remaining : list str)
  : list (nat * str) :=
  match remaining with
  | [] => []
  | file_path :: rest =>
      if cancelled_at w idx then []
      else (idx, file_path) :: attempts w (S idx) rest
  end.

(** The failure recorded for an attempt, if its [try] block raises. *)
Definition failure_at (w : World) (a : nat * str) : option (str * str) :=
  match outcome_of a.2 (file_world w a.1) with
  | Raise e => Some (Path_name a.2, exn_str e)
  | Ret _ => None
  end.

Definition succeeded_at (w : World) (a : nat * str) : bool :=
  returned (outcome_of a.2 (file_world w a.1)).

(** The percentage emitted after iteration [i] of [total_files]. *)
Definition percent_at (total_files : Z) (i : nat) : Z :=
  match progress_percent (Z.of_nat i) total_files with
  | Ret p => p
  | Raise _ => 0
  end.
End Attempts.

(** The signal [write_error_log] emits when it catches [e]. *)
Definition log_failure (e : exn) : event :=
  Error (lit "Error Log") (lit "Could not write error log: " ++ exn_str e).

(** What [write_error_log] writes, call by call. *)
Definition log_chunks (lw : LogWorld) (self : Worker) : list str :=
  log_header (now_header lw) ++ flat_map log_block (errors self).

(** Two files with the same stem, and a state in which the first has
    been saved. *)
Definition after_first_save : State :=
  extend (start (init [lit "a/x.mp3"; lit "b/x.wav"] (lit "out") (lit "")))
    [Open (Path (lit "out") (lit "x.txt")) Utf8;
     Write (Path (lit "out") (lit "x.txt")) (lit "first");
     Close (Path (lit "out") (lit "x.txt"))].

(** The log file can be opened, and the disk is full after [k] writes. *)
Definition log_full_after (k : nat) : LogWorld :=
  {| log_mkdir_out := Ret tt; now_name := Scenario.noon;
     now_header := Scenario.noon;
     log_io := {| open_out := Ret tt;
                  write_out := fun j =>
                    if (j <? k)%nat then Ret tt
                    else Raise (Exception (lit "No space left on device"));
                  close_out := Ret tt |} |}.

(** The log directory cannot be created. *)
Definition log_dir_denied : LogWorld :=
  {| log_mkdir_out := Raise (Exception (lit "Permission denied"));
     now_name := Scenario.noon; now_header := Scenario.noon;
     log_io := Scenario.io_ok |}.

(** [cancel] is called before the worker reads the flag. *)
Definition cancelled_early : World :=
  {| run_start := Float.of_int 0; run_end := Float.of_int 1;
     cancel_calls_before := 1;
     file_world := fun _ => Scenario.transcribed "a";
     log_world := Scenario.log_ok |}.
End Attempts.

(** ** WhisperGUI: the slots the workers' signals are connected to

    A widget is what the window last set on it.  The signals of a worker
    are queued to the GUI thread and delivered in the order of emission. *)
Module Gui.

(** What [QTextEdit.toPlainText] returns for a document set from a given
    plain text. *)
Class Toolkit := { toPlainText : str -> str }.

Inductive dialog :=
| Warning (title text : str)
| Critical (title text : str)
| Question (title text : str).

(** A [QLabel]: its text and its style sheet. *)
Record Label := { text : str; style : str }.

(** Which of the controls are enabled. *)
Record Controls := {
  start_btn : bool;
  cancel_btn : bool;
  select_file_btn : bool;
  clear_btn : bool;
  load_model_btn : bool;
  browse_models_dir_btn : bool;
  browse_error_log_btn : bool;
  browse_output_dir_btn : bool;
  model_combo : bool;
}.

Record Window := {
  files : list str;
  model_loaded : bool;
  models_dir : str;
  error_log_path : str;
  output_dir : str;
  status_label : Label;
  model_status_label : Label;
  stats_text : str;
  progress_bar : Z;
  download_progress : Z;
  download_progress_visible : bool;
  controls : Controls;
  (** the message boxes shown so far *)
  dialogs : list dialog;
}.

Abbreviation slot := (M Window unit).

Definition set_model_loaded (b : bool) (g : Window) : Window :=
  {| files := files g; model_loaded := b; models_dir := models_dir g;
     error_log_path := error_log_path g; output_dir := output_dir g;
     status_label := status_label g;
     model_status_label := model_status_label g;
     stats_text := stats_text g; progress_bar := progress_bar g;
     download_progress := download_progress g;
     download_progress_visible := download_progress_visible g;
     controls := controls g; dialogs := dialogs g |}.

Definition set_status_label (l : Label) (g : Window) : Window :=
  {| files := files g; model_loaded := model_loaded g;
     models_dir := models_dir g;
     error_log_path := error_log_path g; output_dir := output_dir g;
     status_label := l;
     model_status_label := model_status_label g;
     stats_text := stats_text g; progress_bar := progress_bar g;
     download_progress := download_progress g;
     download_progress_visible := download_progress_visible g;
     controls := controls g; dialogs := dialogs g |}.

Definition set_model_status_label (l : Label) (g : Window) : Window :=
  {| files := files g; model_loaded := model_loaded g;
     models_dir := models_dir g;
     error_log_path := error_log_path g; output_dir := output_dir g;
     status_label := status_label g;
     model_status_label := l;
     stats_text := stats_text g; progress_bar := progress_bar g;
     download_progress := download_progress g;
     download_progress_visible := download_progress_visible g;
     controls := controls g; dialogs := dialogs g |}.

Definition set_stats_text (t : str) (g : Window) : Window :=
  {| files := files g; model_loaded := model_loaded g;
     models_dir := models_dir g;
     error_log_path := error_log_path g; output_dir := output_dir g;
     status_label := status_label g;
     model_status_label := model_status_label g;
     stats_text := t; progress_bar := progress_bar g;
     download_progress := download_progress g;
     download_progress_visible := download_progress_visible g;
     controls := controls g; dialogs := dialogs g |}.

Definition set_progress_bar (v : Z) (g : Window) : Window :=
  {| files := files g; model_loaded := model_loaded g;
     models_dir := models_dir g;
     error_log_path := error_log_path g; output_dir := output_dir g;
     status_label := status_label g;
     model_status_label := model_status_label g;
     stats_text := stats_text g; progress_bar := v;
     download_progress := download_progress g;
     download_progress_visible := download_progress_visible g;
     controls := controls g; dialogs := dialogs g |}.

Definition set_download_progress (v : Z) (g : Window) : Window :=
  {| files := files g; model_loaded := model_loaded g;
     models_dir := models_dir g;
     error_log_path := error_log_path g; output_dir := output_dir g;
     status_label := status_label g;
     model_status_label := model_status_label g;
     stats_text := stats_text g; progress_bar := progress_bar g;
     download_progress := v;
     download_progress_visible := download_progress_visible g;
     controls := controls g; dialogs := dialogs g |}.

Definition set_download_progress_visible (b : bool) (g : Window) : Window :=
  {| files := files g; model_loaded := model_loaded g;
     models_dir := models_dir g;
     error_log_path := error_log_path g; output_dir := output_dir g;
     status_label := status_label g;
     model_status_label := model_status_label g;
     stats_text := stats_text g; progress_bar := progress_bar g;
     download_progress := download_progress g;
     download_progress_visible := b;
     controls := controls g; dialogs := dialogs g |}.

Definition set_controls (c : Controls) (g : Window) : Window :=
  {| files := files g; model_loaded := model_loaded g;
     models_dir := models_dir g;
     error_log_path := error_log_path g; output_dir := output_dir g;
     status_label := status_label g;
     model_status_label := model_status_label g;
     stats_text := stats_text g; progress_bar := progress_bar g;
     download_progress := download_progress g;
     download_progress_visible := download_progress_visible g;
     controls := c; dialogs := dialogs g |}.

Definition show (d : dialog) (g : Window) : Window :=
  {| files := files g; model_loaded := model_loaded g;
     models_dir := models_dir g;
     error_log_path := error_log_path g; output_dir := output_dir g;
     status_label := status_label g;
     model_status_label := model_status_label g;
     stats_text := stats_text g; progress_bar := progress_bar g;
     download_progress := download_progress g;
     download_progress_visible := download_progress_visible g;
     controls := controls g; dialogs := dialogs g ++ [d] |}.

(** [label.setText(t)]: the style sheet stays. *)
Definition setText (t : str) (l : Label) : Label :=
  {| text := t; style := style l |}.

(** [QProgressBar.setValue] on a bar with the default range 0..100, which
    the window never changes: a value outside the range is ignored. *)
Definition setValue (v current : Z) : Z :=
  if (0 <=? v) && (v <=? 100) then v else current.

(** The download controls, [enabled] or not; the others stay. *)
Definition download_controls (enabled : bool) (c : Controls) : Controls :=
  {| start_btn := start_btn c; cancel_btn := cancel_btn c;
     select_file_btn := select_file_btn c; clear_btn := clear_btn c;
     load_model_btn := enabled;
     browse_models_dir_btn := enabled;
     browse_error_log_btn := browse_error_log_btn c;
     browse_output_dir_btn := browse_output_dir_btn c;
     model_combo := enabled |}.

Definition enable_start (c : Controls) : Controls :=
  {| start_btn := true; cancel_btn := cancel_btn c;
     select_file_btn := select_file_btn c; clear_btn := clear_btn c;
     load_model_btn := load_model_btn c;
     browse_models_dir_btn := browse_models_dir_btn c;
     browse_error_log_btn := browse_error_log_btn c;
     browse_output_dir_btn := browse_output_dir_btn c;
     model_combo := model_combo c |}.

(** While a batch runs only the cancel button is enabled; afterwards all
    but the cancel button are. *)
Definition batch_controls (running : bool) : Controls :=
  {| start_btn := negb running; cancel_btn := running;
     select_file_btn := negb running; clear_btn := negb running;
     load_model_btn := negb running;
     browse_models_dir_btn := negb running;
     browse_error_log_btn := negb running;
     browse_output_dir_btn := negb running;
     model_combo := negb running |}.

(** The style sheets and the non-ASCII prefixes, as the source file has
    them. *)
Definition blue : str := lit "color: #2196F3; font-weight: bold;".
Definition green : str := lit "color: #4CAF50; font-weight: bold;".
Definition red : str := lit "color: #f44336; font-weight: bold;".
Definition blue14 : str :=
  lit "color: #2196F3; font-size: 14px; font-weight: bold;".
Definition green14 : str :=
  lit "color: #4CAF50; font-size: 14px; font-weight: bold;".
Definition orange14 : str :=
  lit "color: #ff9800; font-size: 14px; font-weight: bold;".

Definition check_mark : str := [8218; 250; 214]%N.
Definition cross_mark : str := [8218; 249; 229]%N.
Definition hourglass : str := [8218; 232; 8805]%N.
Definition tick : str := [8218; 250; 236]%N.
Definition ballot : str := [8218; 250; 243]%N.

(** The magnitude [|x|] in hundredths, rounded to the nearest integer with
    ties to even, on the exact binary value. *)
Definition round_hundredths (x : Float.float) : Z :=
  let '(n, d) := Float.to_frac x in
  let n100 := Z.abs n * 100 in
  let q := n100 / d in
  let r := n100 mod d in
  match 2 * r ?= d with
  | Lt => q
  | Gt => q + 1
  | Eq => if Z.even q then q else q + 1
  end.

(** [f"{x:.2f}"]. *)
Definition format_2f (x : Float.float) : str :=
  match x with
  | S754_nan => lit "nan"
  | S754_infinity s => (if s then lit "-" else []) ++ lit "inf"
  | _ =>
      let t := round_hundredths x in
      (if Float.sign_bit x then lit "-" else []) ++
      str_of_int (t / 100) ++ lit "." ++ zero_pad 2 (t mod 100)
  end.

(** [x / i] for a [float] and an [int]: the [int] is converted first. *)
Definition div_int (x : Float.float) (i : Z) : res Float.float :=
  match Float.of_int i with
  | S754_infinity _ | S754_nan =>
      Raise (Exception (lit "int too large to convert to float"))
  | S754_zero _ => Raise (Exception (lit "float division by zero"))
  | y => Ret (SFdiv Float.prec Float.emax x y)
  end.

(** [try: body finally: final]. *)
Definition try_finally {S : Type} (body final : M S unit) : M S unit :=
  fun s =>
    match body s with
    | (r, s') =>
        match final s' with
        | (Ret _, s'') => (r, s'')
        | (Raise e, s'') => (Raise e, s'')
        end
    end.

Section Slots.
Context `{Runtime} `{Toolkit}.

(** *** Transcription *)

Definition update_progress (value : Z) : slot :=
  modify (fun g => set_progress_bar (setValue value (progress_bar g)) g).

Definition update_status (message : str) : slot :=
  modify (set_status_label {| text := message; style := blue14 |}).

Definition file_completed (filename : str) (duration : Float.float)
    (word_count : Z) : slot :=
  stats <- gets (fun g => toPlainText (stats_text g)) ;;
  let stats :=
    stats ++ tick ++ lit " " ++ filename ++ lit ": " ++
    format_2f duration ++ lit "s, " ++ str_of_int word_count ++
    lit " words" ++ [Transcription.newline] in
  modify (set_stats_text stats).

Definition show_error (filename error : str) : slot :=
  stats <- gets (fun g => toPlainText (stats_text g)) ;;
  let stats :=
    stats ++ ballot ++ lit " " ++ filename ++ lit ": ERROR - " ++ error ++
    [Transcription.newline] in
  modify (set_stats_text stats).

Definition all_completed (total_time : Float.float)
    (total_words successful_files : Z) : slot :=
  n <- gets (fun g => len (files g)) ;;
  let error_count := n - successful_files in
  (if error_count =? 0 then
     modify (set_status_label
               {| text := check_mark ++ lit " All transcriptions complete!";
                  style := green14 |})
   else
     modify (set_status_label
               {| text := Transcription.warning_sign ++
                          lit " Completed with " ++ str_of_int error_count ++
                          lit " error(s)";
                  style := orange14 |})) ;;;
  stats <- gets (fun g => toPlainText (stats_text g)) ;;
  let stats :=
    stats ++ [Transcription.newline] ++ repeat_char 61%N 50 ++
    [Transcription.newline] in
  let stats :=
    stats ++ lit "Total time: " ++ format_2f total_time ++ lit "s" ++
    [Transcription.newline] in
  let stats :=
    stats ++ lit "Total words: " ++ str_of_int total_words ++
    [Transcription.newline] in
  let stats :=
    stats ++ lit "Files processed: " ++ str_of_int successful_files ++
    lit "/" ++ str_of_int n ++ [Transcription.newline] in
  stats <- (if 0 <? successful_files then
              average <- lift (div_int total_time successful_files) ;;
              ret (stats ++ lit "Average: " ++ format_2f average ++
                   lit "s per file" ++ [Transcription.newline])
            else ret stats) ;;
  log_path <- gets error_log_path ;;
  let stats :=
    if 0 <? error_count then
      stats ++ [Transcription.newline] ++ Transcription.warning_sign ++
      lit " " ++ str_of_int error_count ++
      lit " file(s) failed - check error log in:" ++
      [Transcription.newline] ++ log_path ++ [Transcription.newline]
    else stats in
  modify (set_stats_text stats).

Definition transcription_finished : slot :=
  modify (set_controls (batch_controls false)).

(** [start_transcription]; [declined] is whether the user answers No when
    asked to go on without a log directory.  The result is the worker
    started, if one is. *)
Definition start_transcription (declined : bool)
  : M Window (option Transcription.Worker) :=
  loaded <- gets model_loaded ;;
  if negb loaded then
    modify (show (Warning (lit "Warning") (lit "Please load a model first!"))) ;;;
    ret None
  else
    fs <- gets files ;;
    if negb (truthy fs) then
      modify (set_status_label
                {| text := Transcription.warning_sign ++
                           lit " Please select at least one file";
                   style := orange14 |}) ;;;
      ret None
    else
      out_dir <- gets output_dir ;;
      if negb (truthy out_dir) then
        modify (show (Warning (lit "Warning")
          (lit "Please select an output directory for transcriptions!"))) ;;;
        ret None
      else
        log_path <- gets error_log_path ;;
        go_on <- (if negb (truthy log_path) then
                    modify (show (Question (lit "No Error Log Directory")
                      (lit "You haven't set an error log directory. Errors will not be saved to a log file." ++
                       [Transcription.newline; Transcription.newline] ++
                       lit "Continue anyway?"))) ;;;
                    ret (negb declined)
                  else ret true) ;;
        if go_on : bool then
          modify (set_controls (batch_controls true)) ;;;
          modify (fun g => set_progress_bar (setValue 0 (progress_bar g)) g) ;;;
          modify (set_stats_text []) ;;;
          ret (Some (Transcription.init fs out_dir log_path))
        else ret None.

(** The slot a signal of the transcription worker is connected to; file
    system calls are no signals. *)
Definition deliver (e : Transcription.event) : slot :=
  match e with
  | Transcription.Progress value => update_progress value
  | Transcription.Status message => update_status message
  | Transcription.FileComplete filename duration word_count =>
      file_completed filename duration word_count
  | Transcription.AllComplete total_time total_words successful_files =>
      all_completed total_time total_words successful_files
  | Transcription.Error filename error => show_error filename error
  | _ => ret tt
  end.

Fixpoint deliver_all (tr : list Transcription.event) : slot :=
  match tr with
  | [] => ret tt
  | e :: rest => deliver e ;;; deliver_all rest
  end.

(** *** Model download *)

Definition update_download_progress (value : Z) : slot :=
  modify (fun g =>
            set_download_progress (setValue value (download_progress g)) g).

Definition update_download_status (message : str) : slot :=
  modify (set_model_status_label {| text := message; style := blue |}).

(** [load_downloaded_model]; [load_out] is how [whisper.load_model] ends.
    Slots that run inside [processEvents] are left out. *)
Definition load_downloaded_model (load_out : res unit) (model_path : str)
  : slot :=
  try_finally
    (try_except
       (modify (fun g =>
          set_model_status_label
            (setText (hourglass ++ lit " Loading model into memory...")
                     (model_status_label g)) g) ;;;
        lift load_out ;;;
        modify (set_model_loaded true) ;;;
        let model_name := Path_stem model_path in
        modify (set_model_status_label
                  {| text := check_mark ++ lit " Model '" ++ model_name ++
                             lit "' loaded and ready";
                     style := green |}) ;;;
        modify (set_status_label
                  {| text := lit "Ready to transcribe"; style := green14 |}) ;;;
        modify (fun g => set_controls (enable_start (controls g)) g))
       (fun e =>
          modify (set_model_status_label
                    {| text := cross_mark ++ lit " Model load failed";
                       style := red |}) ;;;
          modify (show (Critical (lit "Error")
                          (lit "Failed to load model: " ++ exn_str e)))))
    (modify (fun g => set_controls (download_controls true (controls g)) g) ;;;
     modify (set_download_progress_visible false)).

Definition download_error (message : str) : slot :=
  modify (set_model_status_label
            {| text := cross_mark ++ lit " " ++ message; style := red |}) ;;;
  modify (show (Critical (lit "Download Error") message)) ;;;
  modify (fun g => set_controls (download_controls true (controls g)) g) ;;;
  modify (set_download_progress_visible false).

(** [download_and_load_model]; [model_name] is the current data of the
    combo box. *)
Definition download_and_load_model (model_name : str)
  : M Window (option Download.Worker) :=
  dir <- gets models_dir ;;
  if negb (truthy dir) then
    modify (show (Warning (lit "Warning")
                    (lit "Please select a models directory first!"))) ;;;
    ret None
  else
    modify (fun g => set_controls (download_controls false (controls g)) g) ;;;
    modify (set_download_progress_visible true) ;;;
    modify (fun g =>
              set_download_progress (setValue 0 (download_progress g)) g) ;;;
    ret (Some {| Download.model_name := model_name;
                 Download.models_dir := dir |}).

Definition deliver_download (load_out : res unit) (e : Download.event)
  : slot :=
  match e with
  | Download.Progress value => update_download_progress value
  | Download.Status message => update_download_status message
  | Download.FinishedDownload model_path =>
      load_downloaded_model load_out model_path
  | Download.Error message => download_error message
  | _ => ret tt
  end.

Fixpoint deliver_downloads (load_out : res unit) (tr : list Download.event)
  : slot :=
  match tr with
  | [] => ret tt
  | e :: rest => deliver_download load_out e ;;; deliver_downloads load_out rest
  end.

(** A click on Download & Load, and the slots run for the signals of the
    worker it starts. *)
Definition download_session (model_name : str) (w : Download.World)
    (load_out : res unit) : slot :=
  started <- download_and_load_model model_name ;;
  match started with
  | Some worker => deliver_downloads load_out (Download.run_trace worker w)
  | None => ret tt
  end.

(** A click on Start, the slots run for the signals of the worker it
    starts, and the slot run when its thread has finished.  The cancel
    button acts on the worker through the world's [cancel_calls]; what its
    own slot writes on the status label is left out. *)
Definition transcription_session (declined : bool) (w : Transcription.World)
  : slot :=
  started <- start_transcription declined ;;
  match started with
  | Some worker =>
      deliver_all
        (Transcription.trace
           (snd (Transcription.run w (Transcription.start worker)))) ;;;
      transcription_finished
  | None => ret tt
  end.
End Slots.
End Gui.

(** ** What the window shows after a worker has run *)

Module GuiStates.
Import Gui.

(** The label [all_completed] sets for a number of files without a
    successful result. *)
Definition summary_label (error_count : Z) : Label :=
  if error_count =? 0 then
    {| text := check_mark ++ lit " All transcriptions complete!";
       style := green14 |}
  else
    {| text := Transcription.warning_sign ++ lit " Completed with " ++
               str_of_int error_count ++ lit " error(s)";
       style := orange14 |}.

(** [start_transcription] goes past its four checks. *)
Definition can_start (declined : bool) (g : Window) : Prop :=
  model_loaded g = true /\ files g <> [] /\ output_dir g <> [] /\
  (error_log_path g <> [] \/ declined = false).

(** A text edit that returns the text as it was set. *)
Definition plain_toolkit : Toolkit := {| toPlainText := fun t => t |}.

(** A window with a model loaded and directories chosen. *)
Definition ready_window (fs : list str) : Window :=
  {| files := fs; model_loaded := true; models_dir := lit "models";
     error_log_path := lit "logs"; output_dir := lit "out";
     status_label := {| text := lit "Ready to transcribe"; style := green14 |};
     model_status_label :=
       {| text := check_mark ++ lit " Model 'tiny' loaded and ready";
          style := green |};
     stats_text := []; progress_bar := 0; download_progress := 0;
     download_progress_visible := false;
     controls := batch_controls false; dialogs := [] |}.

(** The download controls are enabled and the download bar is hidden. *)
Definition unlocked (g : Window) : Prop :=
  load_model_btn (controls g) = true /\
  browse_models_dir_btn (controls g) = true /\
  model_combo (controls g) = true /\
  download_progress_visible g = false.

(** A model was loaded: the start button is enabled and no message box
    was shown. *)
Definition model_ready (g g' : Window) : Prop :=
  model_loaded g' = true /\ start_btn (controls g') = true /\
  dialogs g' = dialogs g.

(** No model was loaded: a critical message box was shown, and whether a
    model is loaded and whether the start button is enabled are as
    before. *)
Definition load_refused (g g' : Window) : Prop :=
  model_loaded g' = model_loaded g /\
  start_btn (controls g') = start_btn (controls g) /\
  exists title text, dialogs g' = dialogs g ++ [Critical title text].
End GuiStates.

(** * Properties *)

(** ** Floats: rounding keeps magnitude bounds *)

Module FloatFacts.
Import Float.


Lemma digits2_pos_lower (p : positive) : 2 ^ (Zpos (digits2_pos p) - 1) <= Zpos p.
Proof.
  induction p as [p IH | p IH |]; simpl digits2_pos; [| |simpl; lia].
  all: rewrite Pos2Z.inj_succ;
    replace (Z.succ (Zpos (digits2_pos p)) - 1) with (Z.succ (Zpos (digits2_pos p) - 1)) by lia;
    rewrite Z.pow_succ_r by lia; lia.
Qed.

Lemma Zdigits2_le (m k : Z) : 0 <= m < 2 ^ k -> 0 <= k -> Zdigits2 m <= k.
Proof.
  intros [Hm Hlt] Hk. destruct m as [| p | p]; simpl; [lia | | lia].
  pose proof (digits2_pos_lower p) as Hlow.
  destruct (Z_lt_le_dec k (Zpos (digits2_pos p))) as [Hgt | ]; [| lia].
  exfalso. assert (2 ^ k <= 2 ^ (Zpos (digits2_pos p) - 1)) by (apply Z.pow_le_mono_r; lia).
  lia.
Qed.

Lemma fexp_mono (a b : Z) : a <= b -> fexp prec emax a <= fexp prec emax b.
Proof. unfold fexp, emin, prec, emax. lia. Qed.

Lemma shr_1_m (r : shr_record) : 0 <= shr_m r -> shr_m (shr_1 r) = shr_m r / 2.
Proof.
  destruct r as [m r s]; simpl. intros Hm.
  destruct m as [| [p | p |] | p]; simpl; [reflexivity | | | reflexivity | lia].
  - apply Z.div_unique with 1; lia.
  - apply Z.div_unique with 0; lia.
Qed.

Lemma iter_shr_1_m (n : positive) (r : shr_record) :
  0 <= shr_m r -> shr_m (SpecFloat.iter_pos shr_1 n r) = shr_m r / 2 ^ Zpos n.
Proof.
  revert r. induction n as [n IH | n IH |]; intros r Hr.
  - change (SpecFloat.iter_pos shr_1 n~1 r)
      with (SpecFloat.iter_pos shr_1 n (SpecFloat.iter_pos shr_1 n (shr_1 r))).
    assert (H1 : 0 <= shr_m (shr_1 r)) by (rewrite shr_1_m by done; apply Z.div_pos; lia).
    assert (H2 : 0 <= shr_m (SpecFloat.iter_pos shr_1 n (shr_1 r))) by (rewrite IH by done; apply Z.div_pos; lia).
    rewrite IH, IH, shr_1_m by done.
    rewrite !Z.div_div by lia. f_equal.
    replace (Z.pos n~1) with (Z.pos n + Z.pos n + 1) by lia.
    rewrite !Z.pow_add_r by lia. lia.
  - change (SpecFloat.iter_pos shr_1 n~0 r)
      with (SpecFloat.iter_pos shr_1 n (SpecFloat.iter_pos shr_1 n r)).
    assert (H2 : 0 <= shr_m (SpecFloat.iter_pos shr_1 n r)) by (rewrite IH by done; apply Z.div_pos; lia).
    rewrite IH, IH by done. rewrite Z.div_div by lia. f_equal.
    replace (Z.pos n~0) with (Z.pos n + Z.pos n) by lia.
    rewrite Z.pow_add_r by lia. lia.
  - change (SpecFloat.iter_pos shr_1 1 r) with (shr_1 r).
    rewrite shr_1_m by done. reflexivity.
Qed.

(** One shift to the format's exponent keeps a magnitude bound [2 ^ K]. *)
Lemma shr_fexp_bound (m e : Z) (l : location) (K : Z) :
  0 <= m < 2 ^ (K - e) -> e <= K -> -1074 <= K ->
  let '(r, e') := shr_fexp prec emax m e l in
  0 <= shr_m r < 2 ^ (K - e') /\ e' <= K /\ e' <= Z.max e (fexp prec emax K).
Proof.
  intros [Hm Hlt] He HK. unfold shr_fexp, shr.
  assert (Hd : Zdigits2 m + e <= K) by (pose proof (Zdigits2_le m (K - e)); lia).
  pose proof (fexp_mono _ _ Hd) as Hf.
  assert (HfK : fexp prec emax K <= K) by (unfold fexp, emin, prec, emax; lia).
  assert (Hrec : shr_m (shr_record_of_loc m l) = m) by (destruct l as [| []]; reflexivity).
  destruct (fexp prec emax (Zdigits2 m + e) - e) as [| n | n] eqn:En.
  - rewrite Hrec. lia.
  - rewrite iter_shr_1_m, Hrec by (rewrite Hrec; done).
    split; [split |]; [apply Z.div_pos; lia | | lia].
    apply Z.div_lt_upper_bound; [lia |].
    rewrite <- Z.pow_add_r by lia.
    replace (Zpos n + (K - (e + Zpos n))) with (K - e) by lia. done.
  - rewrite Hrec. lia.
Qed.

Lemma round_nearest_even_bound (m : Z) (l : location) :
  0 <= m -> m <= round_nearest_even m l <= m + 1.
Proof.
  intros Hm. destruct l as [| []]; simpl; try lia. destruct (Z.even m); lia.
Qed.

Lemma binary_round_aux_bound (s : bool) (m e : Z) (l : location) (K : Z) :
  0 <= m < 2 ^ (K - e) -> e <= K -> -1074 <= K <= 1023 -> e <= 971 ->
  bounded_by s (K + 1) (binary_round_aux prec emax s m e l).
Proof.
  intros Hm He HK He'. unfold binary_round_aux.
  pose proof (shr_fexp_bound m e l K Hm He ltac:(lia)) as H1.
  destruct (shr_fexp prec emax m e l) as [r1 e1]. destruct H1 as (Hr1 & He1 & He1').
  pose proof (round_nearest_even_bound (shr_m r1) (loc_of_shr_record r1) ltac:(lia)) as Hrne.
  set (m1 := round_nearest_even (shr_m r1) (loc_of_shr_record r1)) in *.
  assert (Hm1 : 0 <= m1 < 2 ^ (K + 1 - e1)).
  { split; [lia |]. replace (K + 1 - e1) with (Z.succ (K - e1)) by lia.
    rewrite Z.pow_succ_r by lia. lia. }
  pose proof (shr_fexp_bound m1 e1 loc_Exact (K + 1) Hm1 ltac:(lia) ltac:(lia)) as H2.
  destruct (shr_fexp prec emax m1 e1 loc_Exact) as [r2 e2]. destruct H2 as (Hr2 & He2 & He2').
  destruct (shr_m r2) as [| p | p] eqn:Ep; simpl; [done | | lia].
  assert (Hle : (e2 <=? emax - prec) = true).
  { apply Z.leb_le. revert He2' He1'. unfold fexp, emin, emax, prec. lia. }
  rewrite Hle. simpl. split; [done | lia].
Qed.

(** The correctly rounded quotient of [a] by [b] when [a < 2 ^ J * b]. *)
Lemma truediv_bound (a b J : Z) :
  0 <= a -> 0 < b -> a < 2 ^ J * b -> 0 <= J <= 1023 ->
  exists q, truediv a b = Ret q /\ bounded_by false (J + 1) q.
Proof.
  intros Ha Hb Hab HJ. unfold truediv.
  assert ((b =? 0) = false) as -> by lia.
  assert ((a <? 0) = false) as -> by lia.
  assert ((b <? 0) = false) as -> by lia. simpl xorb.
  destruct (Z.eqb_spec a 0) as [-> | Hne]; [eexists; split; [done | done] |].
  rewrite (Z.abs_eq a), (Z.abs_eq b) by lia.
  unfold SFdiv_core_binary.
  set (e' := Z.min _ _).
  assert (He' : e' <= 0) by (subst e'; lia).
  set (m' := match 0 - 0 - e' with 0 => a | Zpos _ => Z.shiftl a (0 - 0 - e') | Zneg _ => 0 end).
  assert (Hm' : m' = a * 2 ^ (- e')).
  { subst m'. destruct (0 - 0 - e') as [| p | p] eqn:Es; [| | lia].
    - replace (- e') with 0 by lia. simpl. lia.
    - rewrite Z.shiftl_mul_pow2 by lia. do 2 f_equal. lia. }
  pose proof (Z_div_mod m' b ltac:(lia)) as Hdm.
  destruct (Z.div_eucl m' b) as [q r]. destruct Hdm as [Hq Hr].
  assert (Hq0 : 0 <= q) by nia.
  assert (Hqlt : q < 2 ^ (J - e')).
  { assert (Hpos : 0 < 2 ^ (- e')) by (apply Z.pow_pos_nonneg; lia).
    replace (J - e') with (J + - e') by lia. rewrite Z.pow_add_r by lia.
    apply Z.nle_gt. intros Hge. nia. }
  pose proof (binary_round_aux_bound false q e' (new_location b r) J
                ltac:(lia) ltac:(lia) ltac:(lia) ltac:(lia)) as Hb'.
  destruct (binary_round_aux prec emax false q e' (new_location b r)) as [s | s | | s m e];
    simpl in Hb'; try done; eexists; (split; [reflexivity | done]).
Qed.

Lemma of_int_100 : of_int 100 = S754_finite false 7036874417766400 (-46).
Proof. reflexivity. Qed.

(** Times one hundred. *)
Lemma mul_100_bound (q : float) (K : Z) :
  bounded_by false K q -> -1000 <= K <= 1016 ->
  bounded_by false (K + 8) (mul q (of_int 100)).
Proof.
  intros Hq HK. rewrite of_int_100. destruct q as [s | s | | s m e]; simpl in Hq; try done.
  - subst s. done.
  - destruct Hq as (-> & Hm & He). unfold mul, SFmul. simpl xorb.
    replace (K + 8) with (K + 7 + 1) by lia.
    apply binary_round_aux_bound; try lia.
    split; [lia |]. rewrite Pos2Z.inj_mul.
    replace (K + 7 - (e + -46)) with ((K - e) + 53) by lia.
    rewrite Z.pow_add_r by lia.
    assert (7036874417766400 < 2 ^ 53) by (vm_compute; done).
    nia.
Qed.

(** [int] of a non-negative finite float is its floor. *)
Lemma to_int_floor (K : Z) (x : float) :
  bounded_by false K x -> to_int x = Ret (floor x).
Proof.
  destruct x as [s | s | | s m e]; simpl; try done.
  intros (-> & _ & _). unfold floor, to_frac. simpl cond_Zopp.
  destruct e as [| p | p]; f_equal.
  - rewrite Z.div_1_r. done.
  - rewrite Z.div_1_r. done.
  - rewrite Z.shiftr_div_pow2, Z.shiftl_mul_pow2 by lia. f_equal. lia.
Qed.

End FloatFacts.

(** ** Formatting of numbers *)

Module FormatFacts.
Import Float.














Import Transcription.


End FormatFacts.

(** ** The transcription worker *)

Module TranscriptionFacts.
Import Transcription FloatFacts FormatFacts.


Lemma txt_is_not_log (x : str) : ~ (lit ".log" `suffix_of` x ++ lit ".txt").
Proof.
  intros [k Hk]. apply app_inj_2 in Hk; [| reflexivity].
  destruct Hk as [_ Hk]. discriminate Hk.
Qed.

Lemma output_path_stem (d stem : str) : output_path (Path d (stem ++ lit ".txt")).
Proof. exists stem. reflexivity. Qed.

Lemma output_io_opens_no_log (e : event) : is_output_io e -> opens_log e = false.
Proof.
  destruct e; simpl; try done. intros [k Hk]. apply bool_decide_eq_false.
  rewrite Hk. apply txt_is_not_log.
Qed.

Ltac solve_io :=
  repeat (apply Forall_cons_2; [first [exact I | apply output_path_stem] |]);
  apply Forall_nil_2.

(** *** The flag *)

Lemma iter_cancel_fields (n : nat) (self : Worker) :
  files (Nat.iter n cancel self) = files self /\
  output_dir (Nat.iter n cancel self) = output_dir self /\
  error_log_path (Nat.iter n cancel self) = error_log_path self /\
  errors (Nat.iter n cancel self) = errors self.
Proof. induction n as [| n IH]; simpl; [done | exact IH]. Qed.

Lemma iter_cancel_flag (n : nat) (self : Worker) :
  is_cancelled (Nat.iter n cancel self) = is_cancelled self || (0 <? n)%nat.
Proof. destruct n; simpl; [by rewrite orb_false_r | by rewrite orb_true_r]. Qed.

Section PerFile.
Context `{Runtime}.

Lemma progress_percent_total (idx total : Z) :
  0 <= idx < total -> exists p, progress_percent idx total = Ret p.
Proof.
  intros Hi. unfold progress_percent.
  destruct (truediv_bound (idx + 1) total 1) as (q & -> & Hq); try lia.
  apply (mul_100_bound q 2) in Hq; [| lia].
  rewrite (to_int_floor _ _ Hq). eauto.
Qed.

(** The [try] block leaves the object alone, and counts the file only on
    return. *)
Lemma transcribe_and_save_effect (file_path : str) (fw : FileWorld)
    (s : State) :
  exists io wc, Forall is_output_io io /\ 0 <= wc /\
    let '(r, s') := transcribe_and_save file_path fw s in
    self s' = self s /\
    total_words s' = total_words s + wc /\
    match r with
    | Ret _ =>
        successful_files s' = successful_files s + 1 /\
        trace s' = trace s ++ io ++
          [FileComplete (Path_name file_path)
             (Float.sub (clock_end fw) (clock_start fw)) wc]
    | Raise _ =>
        successful_files s' = successful_files s /\
        trace s' = trace s ++ io
    end.
Proof.
  unfold transcribe_and_save, save_transcription, with_open, bind, lift,
    emit, modify, gets. simpl write_all.
  unfold bind, lift, emit, modify, ret.
  destruct (transcribe_out fw) as [text | e].
  2: { exists [], 0. simpl. rewrite app_nil_r. repeat split; try done; lia. }
  assert (Hwc : 0 <= len (split text)) by (unfold len; lia).
  destruct (mkdir_out fw) as [[] | e].
  2: { exists [], (len (split text)). simpl. rewrite app_nil_r. done. }
  destruct (open_out (save_io fw)) as [[] | e].
  2: { exists [Mkdir (output_dir (self s))], (len (split text)). simpl.
       split; [solve_io | done]. }
  set (p := Path (output_dir (self s)) (Path_stem file_path ++ lit ".txt")).
  destruct (write_out (save_io fw) 0) as [[] | e];
    destruct (close_out (save_io fw)) as [[] | e'].
  - exists [Mkdir (output_dir (self s)); Open p Utf8; Write p text; Close p],
      (len (split text)).
    simpl. rewrite <- !app_assoc. split; [solve_io | done].
  - exists [Mkdir (output_dir (self s)); Open p Utf8; Write p text],
      (len (split text)).
    simpl. rewrite <- !app_assoc. split; [solve_io | done].
  - exists [Mkdir (output_dir (self s)); Open p Utf8; Close p],
      (len (split text)).
    simpl. rewrite <- !app_assoc. split; [solve_io | done].
  - exists [Mkdir (output_dir (self s)); Open p Utf8], (len (split text)).
    simpl. rewrite <- !app_assoc. split; [solve_io | done].
Qed.

(** One iteration returns, and does one of the two things of
    [file_step]. *)
Lemma process_file_step (total idx : Z) (file_path : str) (fw : FileWorld)
    (s : State) :
  0 <= idx < total ->
  exists s', process_file total idx file_path fw s = (Ret tt, s') /\
             file_step (Path_name file_path) s s'.
Proof.
  intros Hidx. destruct (progress_percent_total idx total Hidx) as [p Hp].
  unfold process_file, try_except, skip_file, bind, emit, modify, lift.
  rewrite Hp.
  set (st := lit "Transcribing " ++ _).
  destruct (transcribe_and_save_effect file_path fw (record (Status st) s))
    as (io & wc & Hio & Hwc & Heff).
  destruct (transcribe_and_save file_path fw (record (Status st) s))
    as [[[] | e] s1]; destruct Heff as (Hself & Hwords & Hsucc & Htrace);
    simpl in Hself, Hwords, Hsucc, Htrace; eexists; (split; [reflexivity |]).
  - eapply step_success with (io := io); simpl; try done.
    rewrite Htrace, <- !app_assoc. reflexivity.
  - eapply step_failure with (io := io) (msg := exn_str e); simpl; try done.
    + by rewrite Hself.
    + rewrite Htrace, <- !app_assoc. reflexivity.
Qed.

(** The loop returns, and runs as [loop_run] says. *)
Lemma loop_spec (w : World) (total : Z) (remaining : list str) :
  forall (idx : nat) (s : State),
    Z.of_nat idx + len remaining = total ->
    exists s', loop w total idx remaining s = (Ret tt, s') /\
               loop_run w idx remaining s s'.
Proof.
  induction remaining as [| file_path rest IH]; intros idx s Htotal.
  - exists s. split; [reflexivity | constructor].
  - simpl loop. unfold bind at 1, gets at 1.
    destruct (is_cancelled (self s)) eqn:Hflag.
    + eexists. split; [reflexivity |]. by apply loop_cancelled.
    + unfold len in Htotal. simpl length in Htotal.
      destruct (process_file_step total (Z.of_nat idx) file_path
                  (file_world w idx) s) as (s1 & Hrun & Hstep); [lia |].
      unfold bind at 1. rewrite Hrun.
      unfold bind at 1, controller at 1, modify at 1.
      destruct (IH (S idx)
                  (on_self (Nat.iter (cancel_calls (file_world w idx)) cancel) s1))
        as (s' & Hloop & Hrest); [unfold len; lia |].
      exists s'. split; [exact Hloop |]. by eapply loop_next.
Qed.
End PerFile.


Lemma extend_nil (s : State) : extend s [] = s.
Proof. destruct s. unfold extend. simpl. by rewrite app_nil_r. Qed.

Lemma extend_extend (s : State) (a b : list event) :
  extend (extend s a) b = extend s (a ++ b).
Proof. unfold extend. simpl. by rewrite app_assoc. Qed.

Lemma results_app (a b : list event) : results (a ++ b) = results a ++ results b.
Proof. apply omap_app. Qed.

Lemma failures_app (a b : list event) :
  failures (a ++ b) = failures a ++ failures b.
Proof. apply omap_app. Qed.

Lemma log_files_opened_app (a b : list event) :
  log_files_opened (a ++ b) = log_files_opened a ++ log_files_opened b.
Proof. apply List.filter_app. Qed.

Lemma file_content_app (p : path) (a b : list event) :
  file_content p (a ++ b) = file_content p a ++ file_content p b.
Proof. unfold file_content. by rewrite omap_app, concat_app. Qed.

Lemma output_io_loop_event (e : event) : is_output_io e -> loop_event e.
Proof.
  intros He. split; [| split].
  - destruct e; simpl in *; tauto.
  - by apply output_io_opens_no_log.
  - intros p Hp. destruct e; simpl in *; try done.
    destruct (decide (p0 = p)) as [-> |]; done.
Qed.

Lemma output_io_silent (io : list event) :
  Forall is_output_io io -> results io = [] /\ failures io = [].
Proof.
  induction 1 as [| e io He _ [IH1 IH2]]; [done |].
  destruct e; simpl in He; try done; split; assumption.
Qed.

Lemma signal_loop_event (e : event) :
  match e with
  | Progress _ | Status _ | FileComplete _ _ _ | Error _ _ => True
  | _ => False
  end -> loop_event e.
Proof.
  destruct e; try done; intros _; (split; [simpl; tauto | split; [done |]]);
    intros p _; reflexivity.
Qed.

(** The events one iteration adds. *)
Lemma file_step_events (name : str) (s s' : State) :
  file_step name s s' ->
  exists evs,
    s' = {| self := self s'; total_words := total_words s';
            successful_files := successful_files s';
            trace := trace s ++ evs |} /\
    Forall loop_event evs /\
    results evs = [name] /\
    errors (self s') = errors (self s) ++ failures evs /\
    successful_files s' + len (failures evs) = successful_files s + 1 /\
    files (self s') = files (self s) /\
    output_dir (self s') = output_dir (self s) /\
    error_log_path (self s') = error_log_path (self s) /\
    is_cancelled (self s') = is_cancelled (self s).
Proof.
  intros [st io dur wc p Hio Hwc Hself Hwords Hsucc Htrace
         | st st' msg io wc p Hio Hwc Hself Hwords Hsucc Htrace];
    destruct (output_io_silent io Hio) as [Hres Hfail].
  - exists ([Status st] ++ io ++ [FileComplete name dur wc; Progress p]).
    split; [destruct s'; simpl in Htrace; rewrite Htrace; reflexivity |].
    split.
    { apply Forall_cons_2; [by apply signal_loop_event |].
      apply Forall_app_2; [by eapply Forall_impl; [| apply output_io_loop_event] |].
      repeat (apply Forall_cons_2; [by apply signal_loop_event |]).
      apply Forall_nil_2. }
    rewrite !results_app, !failures_app, Hres, Hfail, Hself.
    change (failures [Status st]) with (@nil (str * str)).
    change (failures [FileComplete name dur wc; Progress p]) with (@nil (str * str)).
    change (results [Status st]) with (@nil str).
    change (results [FileComplete name dur wc; Progress p]) with [name].
    rewrite app_nil_r. unfold len. simpl. repeat split; try done; lia.
  - exists ([Status st] ++ io ++ [Error name msg; Status st'; Progress p]).
    split; [destruct s'; simpl in Htrace; rewrite Htrace; reflexivity |].
    split.
    { apply Forall_cons_2; [by apply signal_loop_event |].
      apply Forall_app_2; [by eapply Forall_impl; [| apply output_io_loop_event] |].
      repeat (apply Forall_cons_2; [by apply signal_loop_event |]).
      apply Forall_nil_2. }
    rewrite !results_app, !failures_app, Hres, Hfail, Hself.
    change (failures [Status st]) with (@nil (str * str)).
    change (failures [Error name msg; Status st'; Progress p]) with [(name, msg)].
    change (results [Status st]) with (@nil str).
    change (results [Error name msg; Status st'; Progress p]) with [name].
    unfold len. simpl. repeat split; try done; lia.
Qed.

Section Loop.
Context `{Runtime}.

(** What the loop adds to the trace, whatever the flag was. *)
Lemma loop_run_events (w : World) (idx : nat) (remaining : list str)
    (s s' : State) :
  loop_run w idx remaining s s' ->
  exists evs,
    trace s' = trace s ++ evs /\
    Forall loop_event evs /\
    errors (self s') = errors (self s) ++ failures evs /\
    successful_files s' + len (failures evs) =
      successful_files s + len (results evs) /\
    files (self s') = files (self s) /\
    output_dir (self s') = output_dir (self s) /\
    error_log_path (self s') = error_log_path (self s) /\
    (is_cancelled (self s) = true -> is_cancelled (self s') = true).
Proof.
  induction 1 as [idx s | idx f rest s Hflag
                 | idx f rest s s1 s' Hflag Hstep Hrest IH].
  - exists []. rewrite !app_nil_r. unfold len. simpl. repeat split; try done; lia.
  - exists [Status (lit "Transcription cancelled")]. simpl.
    rewrite app_nil_r. unfold len. simpl.
    repeat split; try done; try lia.
    apply Forall_cons_2; [by apply signal_loop_event | apply Forall_nil_2].
  - destruct (file_step_events _ _ _ Hstep)
      as (e1 & Hs1 & Hev1 & Hres1 & Herr1 & Hcnt1 & Hf1 & Ho1 & Hl1 & Hc1).
    destruct IH as (e2 & Htr & Hev2 & Herr2 & Hcnt2 & Hf2 & Ho2 & Hl2 & Hc2).
    destruct (iter_cancel_fields (cancel_calls (file_world w idx)) (self s1))
      as (Hif & Hio & Hil & Hie).
    simpl in Htr, Herr2, Hcnt2, Hf2, Ho2, Hl2, Hc2.
    exists (e1 ++ e2).
    rewrite Htr, Hs1. simpl. rewrite <- app_assoc.
    rewrite failures_app, results_app, Herr2, Hie, Herr1, <- app_assoc, Hf2, Hif,
      Ho2, Hio, Hl2, Hil, Hres1.
    repeat split; try done.
    + by apply Forall_app.
    + unfold len in *. rewrite !length_app in *. simpl. lia.
    + intros Hc. congruence.
Qed.

(** In a run whose flag is what the calls of [cancel] so far make it,
    exactly the first [attempted_from] files get a result, in order. *)
Lemma loop_run_results (w : World) (idx : nat) (remaining : list str)
    (s s' : State) (evs : list event) :
  loop_run w idx remaining s s' ->
  is_cancelled (self s) = cancelled_at w idx ->
  trace s' = trace s ++ evs ->
  results evs =
    map Path_name (take (attempted_from w idx (length remaining)) remaining).
Proof.
  intros Hrun. revert evs.
  induction Hrun as [idx s | idx f rest s Hflag
                    | idx f rest s s1 s' Hflag Hstep Hrest IH];
    intros evs Hinv Htr.
  - assert (evs = []) as ->; [| done].
    apply (app_inv_head (trace s)). by rewrite app_nil_r.
  - simpl in Htr. apply app_inv_head in Htr. subst evs.
    simpl. rewrite <- Hinv, Hflag. done.
  - destruct (file_step_events _ _ _ Hstep)
      as (e1 & Hs1 & Hev1 & Hres1 & Herr1 & Hcnt1 & Hf1 & Ho1 & Hl1 & Hc1).
    destruct (loop_run_events _ _ _ _ _ Hrest) as (e2 & Htr2 & _).
    simpl in Htr2. rewrite Hs1 in Htr2. simpl in Htr2.
    rewrite Htr2, <- app_assoc in Htr. apply app_inv_head in Htr. subst evs.
    simpl. rewrite <- Hinv, Hflag. simpl.
    rewrite results_app, Hres1. simpl. f_equal.
    apply IH.
    + simpl. rewrite iter_cancel_flag, Hc1, Hinv. reflexivity.
    + simpl. rewrite Hs1. simpl. exact Htr2.
Qed.
End Loop.


Lemma record_extend (e : event) (s : State) (evs : list event) :
  extend (record e s) evs = extend s (e :: evs).
Proof. unfold extend, record. simpl. by rewrite <- app_assoc. Qed.

Lemma extend_record (e : event) (s : State) (evs : list event) :
  record e (extend s evs) = extend s (evs ++ [e]).
Proof. unfold extend, record. simpl. by rewrite <- app_assoc. Qed.

Lemma log_name_opens_log (d : str) (t : datetime) (enc : encoding) :
  opens_log (Open (Path d (log_name t)) enc) = true.
Proof.
  apply bool_decide_eq_true. exists (lit "transcription_errors_" ++ strftime_compact t).
  unfold log_name. simpl base. by rewrite <- app_assoc.
Qed.

(** The writes to one open file do not look at the state. *)
Lemma write_all_framed (io : FileIO) (p : path) (chunks : list str) :
  forall k, exists r evs,
    (forall s, write_all io p k chunks s = (r, extend s evs)) /\
    Forall (log_event p) evs /\
    log_files_opened evs = [] /\
    ((forall j, write_out io j = Ret tt) ->
     r = Ret tt /\ evs = map (Write p) chunks).
Proof.
  induction chunks as [| c rest IH]; intros k.
  - exists (Ret tt), []. split; [| done].
    intros s. by rewrite extend_nil.
  - destruct (write_out io k) as [[] | e] eqn:Hk.
    + destruct (IH (S k)) as (r & evs & Hrun & Hev & Hlog & Hok).
      exists r, (Write p c :: evs). split; [| split; [| split]].
      * intros s. simpl. unfold bind, lift, emit, modify. rewrite Hk.
        rewrite Hrun. by rewrite record_extend.
      * by apply Forall_cons_2.
      * exact Hlog.
      * intros Hall. destruct (Hok Hall) as [-> ->]. done.
    + exists (Raise e), []. split; [| split; [| split]]; try done.
      * intros s. simpl. unfold bind, lift. rewrite Hk. by rewrite extend_nil.
      * intros Hall. rewrite Hall in Hk. discriminate.
Qed.

(** Writing the log always returns, touches nothing but the trace, and adds
    to it events that depend on the object only. *)
Lemma write_error_log_framed (lw : LogWorld) (w0 : Worker) :
  exists evs,
    (forall s, self s = w0 -> write_error_log lw s = (Ret tt, extend s evs)) /\
    Forall (log_event (log_file_of lw w0)) evs /\
    log_files_opened evs =
      (if returned (log_mkdir_out lw) && returned (open_out (log_io lw))
       then [Open (log_file_of lw w0) Utf8] else []) /\
    (log_io_ok lw ->
     evs = [Mkdir (error_log_path w0); Open (log_file_of lw w0) Utf8] ++
           map (Write (log_file_of lw w0))
               (log_header (now_header lw) ++ flat_map log_block (errors w0)) ++
           [Close (log_file_of lw w0)]).
Proof.
  set (p := log_file_of lw w0).
  set (failed := fun e : exn =>
         Error (lit "Error Log") (lit "Could not write error log: " ++ exn_str e)).
  assert (Hopen : opens_log (Open p Utf8) = true) by apply log_name_opens_log.
  destruct (write_all_framed (log_io lw) p
              (log_header (now_header lw) ++ flat_map log_block (errors w0)) 0)
    as (r & wevs & Hrun & Hwev & Hwlog & Hwok).
  unfold log_io_ok.
  destruct (log_mkdir_out lw) as [[] | e] eqn:Hmk.
  2: { exists [failed e]. repeat split; try done.
       - intros s Hs. unfold write_error_log, try_except, bind, gets, lift.
         rewrite Hmk. reflexivity.
       - by apply Forall_cons_2.
       - intros (? & _). discriminate. }
  destruct (open_out (log_io lw)) as [[] | e] eqn:Hop.
  2: { exists [Mkdir (error_log_path w0); failed e]. repeat split; try done.
       - intros s Hs.
         unfold write_error_log, try_except, with_open, bind, gets, lift, emit,
           modify.
         rewrite Hmk, Hop, Hs. unfold extend, record, failed. simpl.
         by rewrite <- app_assoc.
       - by repeat apply Forall_cons_2.
       - intros (_ & ? & _). discriminate. }
  assert (Hstep : forall s, self s = w0 ->
            write_error_log lw s =
            match r, close_out (log_io lw) with
            | Ret _, Ret _ =>
                (Ret tt, extend s ([Mkdir (error_log_path w0); Open p Utf8] ++
                                   wevs ++ [Close p]))
            | Ret _, Raise e' | Raise _, Raise e' =>
                (Ret tt, extend s ([Mkdir (error_log_path w0); Open p Utf8] ++
                                   wevs ++ [failed e']))
            | Raise e, Ret _ =>
                (Ret tt, extend s ([Mkdir (error_log_path w0); Open p Utf8] ++
                                   wevs ++ [Close p; failed e]))
            end).
  { intros s Hs.
    unfold write_error_log, try_except, with_open, bind, gets, lift, emit,
      modify.
    rewrite Hmk, Hop. simpl self. rewrite Hs. fold p. rewrite Hrun.
    destruct r as [[] | e]; destruct (close_out (log_io lw)) as [[] | e'];
      unfold extend, record, failed; simpl; rewrite <- ?app_assoc; reflexivity. }
  assert (Hlogs : forall tl,
            log_files_opened tl = [] ->
            log_files_opened ([Mkdir (error_log_path w0); Open p Utf8] ++
                              wevs ++ tl) = [Open p Utf8]).
  { intros tl Htl. rewrite !log_files_opened_app, Hwlog, Htl.
    unfold log_files_opened. cbn -[opens_log].
    change (opens_log (Mkdir (error_log_path w0))) with false.
    by rewrite Hopen. }
  assert (Hevs : forall tl,
            Forall (log_event p) tl ->
            Forall (log_event p) ([Mkdir (error_log_path w0); Open p Utf8] ++
                                  wevs ++ tl)).
  { intros tl Htl. repeat apply Forall_cons_2; try done. by apply Forall_app_2. }
  destruct r as [[] | e]; destruct (close_out (log_io lw)) as [[] | e'] eqn:Hcl;
    eexists; (split; [exact Hstep |]); simpl returned; simpl andb;
    (split; [apply Hevs | split; [apply Hlogs; reflexivity |]]).
  all: try (repeat apply Forall_cons_2; try done; apply Forall_nil_2).
  - intros (_ & _ & Hall & _). destruct (Hwok Hall) as [_ ->]. reflexivity.
  - intros (_ & _ & _ & ?). discriminate.
  - intros (_ & _ & Hall & _). destruct (Hwok Hall) as [? _]. discriminate.
  - intros (_ & _ & _ & ?). discriminate.
Qed.

Lemma write_error_log_spec (lw : LogWorld) (s : State) :
  write_error_log lw s = (Ret tt, extend s (log_trace lw (self s))).
Proof.
  destruct (write_error_log_framed lw (self s)) as (evs & Hrun & _).
  unfold log_trace. rewrite (Hrun (start (self s)) eq_refl). simpl.
  by apply Hrun.
Qed.

Lemma log_trace_facts (lw : LogWorld) (w0 : Worker) :
  Forall (log_event (log_file_of lw w0)) (log_trace lw w0) /\
  log_files_opened (log_trace lw w0) =
    (if returned (log_mkdir_out lw) && returned (open_out (log_io lw))
     then [Open (log_file_of lw w0) Utf8] else []) /\
  (log_io_ok lw ->
   log_trace lw w0 =
     [Mkdir (error_log_path w0); Open (log_file_of lw w0) Utf8] ++
     map (Write (log_file_of lw w0))
         (log_header (now_header lw) ++ flat_map log_block (errors w0)) ++
     [Close (log_file_of lw w0)]).
Proof.
  destruct (write_error_log_framed lw w0) as (evs & Hrun & Hfacts).
  unfold log_trace. rewrite (Hrun (start w0) eq_refl). exact Hfacts.
Qed.



Lemma attempted_from_le (w : World) (n : nat) :
  forall idx, (attempted_from w idx n <= n)%nat.
Proof.
  induction n as [| n IH]; intros idx; simpl; [lia |].
  destruct (cancelled_at w idx); [lia |]. specialize (IH (S idx)). lia.
Qed.

Section Batch.
Context `{Runtime}.

(** [run] always returns: it runs the loop, writes the log if it is due,
    and ends on the summary. *)
Lemma run_spec (w : World) (s : State) :
  exists s1,
    loop_run w 0 (files (self s)) (entry_of w s) s1 /\
    run w s =
      (Ret tt,
       extend s1
         ((if log_due (self s1)
           then log_trace (log_world w) (self s1) else []) ++
          [AllComplete (Float.sub (run_end w) (run_start w))
                       (total_words s1) (successful_files s1)])).
Proof.
  destruct (loop_spec w (len (files (self s))) (files (self s)) 0 (entry_of w s))
    as (s1 & Hloop & Hrun); [simpl; lia |].
  exists s1. split; [exact Hrun |].
  unfold run, controller, bind, gets, modify.
  change (loop w _ 0 _ _)
    with (loop w (len (files (self s))) 0 (files (self s)) (entry_of w s)).
  rewrite Hloop.
  change (truthy (errors (self s1)) && truthy (error_log_path (self s1)))
    with (log_due (self s1)).
  destruct (log_due (self s1)).
  - rewrite write_error_log_spec. unfold emit, modify.
    by rewrite extend_record.
  - reflexivity.
Qed.

Lemma batch_spec (w : World) (fs : list str) (out_dir log_dir : str) :
  exists s1,
    loop_run w 0 fs (entry w fs out_dir log_dir) s1 /\
    batch w fs out_dir log_dir =
      (Ret tt,
       extend s1
         ((if log_due (self s1)
           then log_trace (log_world w) (self s1) else []) ++
          [AllComplete (Float.sub (run_end w) (run_start w))
                       (total_words s1) (successful_files s1)])).
Proof. apply (run_spec w (start (init fs out_dir log_dir))). Qed.

(** The facts about a batch the properties below are read from. *)
Lemma batch_facts (w : World) (fs : list str) (out_dir log_dir : str) :
  exists s1 : State,
    batch w fs out_dir log_dir =
      (Ret tt,
       extend s1
         ((if log_due (self s1)
           then log_trace (log_world w) (self s1) else []) ++
          [AllComplete (Float.sub (run_end w) (run_start w))
                       (total_words s1) (successful_files s1)])) /\
    Forall loop_event (trace s1) /\
    results (trace s1) = map Path_name (take (attempted w (length fs)) fs) /\
    errors (self s1) = failures (trace s1) /\
    successful_files s1 + len (errors (self s1)) =
      Z.of_nat (attempted w (length fs)) /\
    error_log_path (self s1) = log_dir.
Proof.
  destruct (batch_spec w fs out_dir log_dir) as (s1 & Hrun & Hbatch).
  exists s1. split; [exact Hbatch |].
  destruct (loop_run_events _ _ _ _ _ Hrun)
    as (evs & Htr & Hev & Herr & Hcnt & _ & _ & Hlog & _).
  destruct (iter_cancel_fields (cancel_calls_before w) (init fs out_dir log_dir))
    as (_ & _ & Hil & Hie).
  simpl in Htr, Herr, Hcnt, Hlog. rewrite Hie in Herr. rewrite Hil in Hlog.
  simpl in Herr, Hlog.
  pose proof (loop_run_results w 0 fs _ s1 evs Hrun) as Hres.
  rewrite Htr. split; [exact Hev |]. split.
  { apply Hres; [| done]. simpl. by rewrite iter_cancel_flag. }
  split; [exact Herr |]. split; [| exact Hlog].
  rewrite Herr. rewrite Hres in Hcnt; [| simpl; by rewrite iter_cancel_flag | done].
  unfold len in Hcnt |- *. rewrite length_map, length_take in Hcnt.
  pose proof (attempted_from_le w (length fs) 0). unfold attempted. lia.
Qed.
End Batch.
End TranscriptionFacts.

(** ** The download worker *)

Module DownloadFacts.
Import Download FloatFacts FormatFacts.


Section Claims.
Context `{Runtime}.

(** C8.  For a valid model identifier whose artifact already exists at
    [<models_dir>/<model_name>.pt], the task emits the "already exists"
    status and then that path as its success signal, and does nothing
    else: no directory is made and [urlretrieve] is never called. *)
Theorem existing_model_is_not_downloaded (self : Worker) (w : World) :
  model_name self ∈ dom MODEL_URLS ->
  path_exists w (Path (models_dir self) (model_name self ++ lit ".pt")) = true ->
  run self w [] =
    (Ret tt,
     [Status (lit "Model already exists, loading...");
      FinishedDownload
        (Path_str (Path (models_dir self) (model_name self ++ lit ".pt")))]) /\
  no_transfer (run_trace self w).
Proof.
  intros Hvalid Hexists.
  apply elem_of_dom in Hvalid. destruct Hvalid as [url Hurl].
  assert (Hrun : run self w [] =
    (Ret tt,
     [Status (lit "Model already exists, loading...");
      FinishedDownload
        (Path_str (Path (models_dir self) (model_name self ++ lit ".pt")))])).
  { unfold run, try_except, bind, lift, getitem, model_path_of.
    rewrite Hurl, Hexists. reflexivity. }
  split; [exact Hrun |].
  unfold no_transfer, run_trace. rewrite Hrun. simpl.
  intros url' dest Hin.
  repeat (apply elem_of_cons in Hin; destruct Hin as [Hin | Hin];
          [discriminate |]).
  by apply elem_of_nil in Hin.
Qed.

End Claims.

Lemma existing_model_witness :
  model_name tiny_worker ∈ dom MODEL_URLS /\
  path_exists world_with_artifact
    (Path (models_dir tiny_worker) (model_name tiny_worker ++ lit ".pt")) = true /\
  @run posix tiny_worker world_with_artifact [] =
    (Ret tt,
     [Status (lit "Model already exists, loading...");
      FinishedDownload (lit "models/tiny.pt")]).
Proof.
  assert (Hvalid : model_name tiny_worker ∈ dom MODEL_URLS).
  { apply elem_of_dom. eexists. vm_compute. reflexivity. }
  split; [exact Hvalid |]. split; [reflexivity |].
  exact (proj1 (@existing_model_is_not_downloaded posix tiny_worker
                  world_with_artifact Hvalid eq_refl)).
Defined.



(** The percentage is computed in double precision: for 29 blocks of 8192
    bytes out of 819200 the quotient rounds to the double just below 0.29,
    and the percentage is 28, where exact arithmetic gives 29. *)
Example percent_is_computed_in_double :
  snd (report_progress 29 8192 819200 []) =
    [Progress 28; Status (lit "Downloading: 0.2 MB / 0.8 MB")] /\
  29 * 8192 * 100 / 819200 = 29.
Proof. split; reflexivity. Qed.

End DownloadFacts.

(** ** The properties of the transcription worker *)

Module TranscriptionClaims.
Import Transcription FloatFacts FormatFacts TranscriptionFacts.




Section Batches.
Context `{Runtime}.

(** C3.  In every batch, cancelled or not, the successful-file count, the
    length of the failure list and the number of files left unattempted
    after a cancellation add up to the number of input files. *)
Theorem counts_add_up (w : World) (fs : list str) (out_dir log_dir : str) :
  let s := snd (batch w fs out_dir log_dir) in
  successful_files s + len (errors (self s)) +
    Z.of_nat (unattempted w (length fs)) = len fs.
Proof.
  destruct (batch_facts w fs out_dir log_dir)
    as (s1 & -> & _ & _ & _ & Hcount & _).
  simpl. unfold unattempted, attempted in *.
  pose proof (attempted_from_le w (length fs) 0). unfold len in *. lia.
Qed.


(** C10.  Started on an empty file list, the run returns normally and
    emits the summary with zero words and zero successful files, and
    nothing else; the progress computation, which would raise
    ZeroDivisionError for a total of zero, is never reached. *)
Theorem empty_batch_only_summarises (w : World) (out_dir log_dir : str) :
  exists s,
    batch w [] out_dir log_dir = (Ret tt, s) /\
    trace s = [AllComplete (Float.sub (run_end w) (run_start w)) 0 0] /\
    errors (self s) = [] /\
    forall idx, progress_percent idx (len (@nil str))
                = Raise (Exception (lit "division by zero")).
Proof.
  destruct (batch_spec w [] out_dir log_dir) as (s1 & Hrun & Hbatch).
  inversion Hrun; subst.
  destruct (iter_cancel_fields (cancel_calls_before w) (init [] out_dir log_dir))
    as (_ & _ & _ & Herr).
  assert (Hdue : log_due (self (entry w [] out_dir log_dir)) = false).
  { unfold log_due. simpl. by rewrite Herr. }
  rewrite Hdue in Hbatch. eexists. split; [exact Hbatch |].
  simpl. repeat split; done.
Qed.
End Batches.


(** C1.  The summary counts the words of a file whose output could not be
    written: [a.mp3] transcribes to two words, opening [a.txt] fails, the
    failure is recorded and signalled and no file is counted as successful,
    yet the summary carries a word total of 2. *)
Theorem words_of_a_failed_write_are_counted :
  let s := snd (@batch posix (Scenario.world (fun _ => Scenario.unwritable "hello world")
                                             Scenario.log_ok)
                       [lit "a.mp3"] (lit "out") (lit "")) in
  trace s =
    [Status (lit "Transcribing a.mp3 (1/1)...");
     Mkdir (lit "out");
     Error (lit "a.mp3") (lit "Permission denied");
     Status (warning_sign ++ lit " Skipped a.mp3 due to error");
     Progress 100;
     AllComplete (Float.of_int 1) 2 0] /\
  errors (self s) = [(lit "a.mp3", lit "Permission denied")].
Proof. vm_compute. split; reflexivity. Qed.

Section Files.
Context `{Runtime}.

Lemma process_file_failure (total idx : Z) (file_path : str)
    (fw : FileWorld) (s : State) (e : exn) :
  0 <= idx < total ->
  fails file_path fw e ->
  exists s1 io st st' percent,
    process_file total idx file_path fw s = (Ret tt, s1) /\
    self s1 = append_error (Path_name file_path, exn_str e) (self s) /\
    successful_files s1 = successful_files s /\
    trace s1 = trace s ++ [Status st] ++ io ++
               [Error (Path_name file_path) (exn_str e); Status st';
                Progress percent] /\
    Forall is_output_io io.
Proof.
  intros Hidx Hfails.
  destruct (progress_percent_total idx total Hidx) as [p Hp].
  unfold process_file, try_except, skip_file, bind, emit, modify, lift.
  rewrite Hp.
  set (st := lit "Transcribing " ++ _).
  destruct (transcribe_and_save_effect file_path fw (record (Status st) s))
    as (io & wc & Hio & Hwc & Heff).
  specialize (Hfails (record (Status st) s)).
  destruct (transcribe_and_save file_path fw (record (Status st) s))
    as [r s1]. simpl in Hfails. subst r.
  destruct Heff as (Hself & Hwords & Hsucc & Htrace).
  simpl in Hself, Hwords, Hsucc, Htrace.
  eexists _, io, st, _, p. split; [reflexivity |]. simpl.
  rewrite Hself, Htrace, <- !app_assoc. done.
Qed.

(** C2.  When the [try] block of a file raises [e] (the transcription, or
    the creation or the write of the output fails), the iteration
    appends [(filename, str(e))] to [errors], emits the [error] signal
    with the same two strings, leaves the successful-file counter as it
    was, and the loop goes on with the next file. *)
Theorem failure_is_recorded_and_loop_goes_on (w : World) (total : Z)
    (idx : nat) (file_path : str) (rest : list str) (s : State) (e : exn) :
  is_cancelled (self s) = false ->
  Z.of_nat idx < total ->
  fails file_path (file_world w idx) e ->
  exists s1 io st st' percent,
    loop w total idx (file_path :: rest) s =
      loop w total (S idx) rest
           (on_self (Nat.iter (cancel_calls (file_world w idx)) cancel) s1) /\
    errors (self s1) =
      errors (self s) ++ [(Path_name file_path, exn_str e)] /\
    successful_files s1 = successful_files s /\
    trace s1 = trace s ++ [Status st] ++ io ++
               [Error (Path_name file_path) (exn_str e); Status st';
                Progress percent] /\
    Forall is_output_io io.
Proof.
  intros Hflag Hidx Hfails.
  destruct (process_file_failure total (Z.of_nat idx) file_path
              (file_world w idx) s e ltac:(lia) Hfails)
    as (s1 & io & st & st' & p & Hrun & Hself & Hsucc & Htrace & Hio).
  exists s1, io, st, st', p. repeat split; try done.
  - simpl loop. unfold bind at 1, gets at 1. rewrite Hflag.
    unfold bind at 1. rewrite Hrun.
    unfold bind at 1, controller at 1, modify at 1. reflexivity.
  - by rewrite Hself.
Qed.

Lemma process_file_ignores_flag (total idx : Z) (file_path : str)
    (fw : FileWorld) (s : State) :
  process_file total idx file_path fw (on_self cancel s) =
    let '(r, s') := process_file total idx file_path fw s in
    (r, on_self cancel s').
Proof.
  unfold process_file, try_except, transcribe_and_save, skip_file,
    save_transcription, with_open, bind, lift, emit, modify, gets.
  simpl write_all. unfold bind, lift, emit, modify, ret.
  destruct (progress_percent idx total);
    (destruct (transcribe_out fw); [| reflexivity]);
    (destruct (mkdir_out fw) as [[] |]; [| reflexivity]);
    (destruct (open_out (save_io fw)) as [[] |]; [| reflexivity]);
    destruct (write_out (save_io fw) 0) as [[] |];
    destruct (close_out (save_io fw)) as [[] |]; reflexivity.
Qed.

Lemma run_keeps_flag (w : World) (s : State) :
  is_cancelled (self s) = true ->
  is_cancelled (self (snd (run w s))) = true.
Proof.
  intros Hflag. destruct (run_spec w s) as (s1 & Hloop & ->). simpl.
  destruct (loop_run_events _ _ _ _ _ Hloop) as (_ & _ & _ & _ & _ & _ & _ & _ & Hmono).
  apply Hmono. simpl. rewrite iter_cancel_flag, Hflag. reflexivity.
Qed.

(** C4.  [cancel] sets the flag and calling it again changes nothing;
    a run never clears a flag that is set; processing a file neither
    reads nor writes the flag, so a call of [cancel] while a file is in
    progress changes nothing about that file; and an iteration that reads
    the flag set emits the "cancelled" status and ends the loop: no
    further file is attempted and no failure is recorded or signalled for
    the files that remain. *)
Theorem cancellation_is_cooperative :
  (forall self : Worker,
      is_cancelled (cancel self) = true /\ cancel (cancel self) = cancel self) /\
  (forall (w : World) (s : State),
      is_cancelled (self s) = true ->
      is_cancelled (self (snd (run w s))) = true) /\
  (forall (total idx : Z) (file_path : str) (fw : FileWorld) (s : State),
      process_file total idx file_path fw (on_self cancel s) =
        let '(r, s') := process_file total idx file_path fw s in
        (r, on_self cancel s')) /\
  (forall (w : World) (total : Z) (idx : nat) (file_path : str)
          (rest : list str) (s : State),
      is_cancelled (self s) = true ->
      loop w total idx (file_path :: rest) s =
        (Ret tt, extend s [Status (lit "Transcription cancelled")])).
Proof.
  split; [by intros [] |]. split; [exact run_keeps_flag |].
  split; [exact process_file_ignores_flag |].
  intros w total idx f rest s Hflag.
  simpl loop. unfold bind, gets. rewrite Hflag. reflexivity.
Qed.
End Files.

Lemma failure_witness :
  let w := Scenario.world (fun _ => Scenario.undecodable "decode error")
                          Scenario.log_ok in
  let s := start (init [lit "b.mp3"] (lit "out") (lit "logs")) in
  is_cancelled (self s) = false /\
  Z.of_nat 0 < 1 /\
  @fails posix (lit "b.mp3") (file_world w 0) (Exception (lit "decode error")) /\
  exists s1 io st st' percent,
    @loop posix w 1 0 [lit "b.mp3"] s =
      @loop posix w 1 1 []
            (on_self (Nat.iter (cancel_calls (file_world w 0)) cancel) s1) /\
    errors (self s1) = errors (self s) ++ [(lit "b.mp3", lit "decode error")] /\
    successful_files s1 = successful_files s /\
    trace s1 = trace s ++ [Status st] ++ io ++
               [Error (lit "b.mp3") (lit "decode error"); Status st';
                Progress percent] /\
    Forall is_output_io io.
Proof.
  intros w s.
  assert (Hfails : @fails posix (lit "b.mp3") (file_world w 0)
                          (Exception (lit "decode error")))
    by (intros s0; reflexivity).
  split; [reflexivity |]. split; [lia |]. split; [exact Hfails |].
  exact (@failure_is_recorded_and_loop_goes_on posix w 1 0 (lit "b.mp3") [] s
           (Exception (lit "decode error")) eq_refl ltac:(lia) Hfails).
Defined.

Lemma cancellation_witness :
  let w := Scenario.world (fun _ => Scenario.transcribed "hello world")
                          Scenario.log_ok in
  let s := on_self cancel (start (init [lit "a.mp3"; lit "b.mp3"] (lit "out") (lit ""))) in
  is_cancelled (self s) = true /\
  @loop posix w 2 0 [lit "a.mp3"; lit "b.mp3"] s =
    (Ret tt, extend s [Status (lit "Transcription cancelled")]).
Proof.
  intros w s. split; [reflexivity |].
  apply (proj2 (proj2 (proj2 (@cancellation_is_cooperative posix)))).
  reflexivity.
Defined.




Lemma loop_events_open_no_log (tr : list event) :
  Forall loop_event tr -> log_files_opened tr = [].
Proof.
  induction 1 as [| e tr (_ & He & _) _ IH]; [done |].
  unfold log_files_opened in *. simpl. by rewrite He.
Qed.





Section Log.
Context `{Runtime}.

(** C6, amended.  A log file is opened for writing exactly when at least
    one failure was recorded, a log directory is configured, and creating
    that directory and opening the file both succeed; it is then the one
    log file of the run.  In every other case, in particular with no
    failure even though a directory is configured, no log file is
    opened. *)
Theorem log_opened_iff_due_and_writable (w : World) (fs : list str)
    (out_dir log_dir : str) :
  let s := snd (batch w fs out_dir log_dir) in
  let lw := log_world w in
  error_log_path (self s) = log_dir /\
  log_files_opened (trace s) =
    (if log_due (self s) && returned (log_mkdir_out lw) &&
        returned (open_out (log_io lw))
     then [Open (Path log_dir (log_name (now_name lw))) Utf8] else []).
Proof.
  destruct (batch_facts w fs out_dir log_dir)
    as (s1 & -> & Hloop & _ & _ & _ & Hdir).
  simpl. split; [exact Hdir |].
  rewrite !log_files_opened_app, (loop_events_open_no_log _ Hloop).
  change (log_files_opened [AllComplete _ _ _]) with (@nil event).
  rewrite app_nil_r. simpl.
  destruct (log_due (self s1)); [| done].
  destruct (log_trace_facts (log_world w) (self s1)) as (_ & -> & _).
  unfold log_file_of. rewrite Hdir. reflexivity.
Qed.

End Log.

(** C6, as stated, fails: [b.mp3] does not transcribe and a log directory
    is configured, so the log is due, but the log file cannot be opened and
    none is written. *)
Lemma log_not_written_when_open_fails :
  ~ log_written_iff_due
      (snd (@batch posix
              (Scenario.world (fun _ => Scenario.undecodable "decode error")
                              Scenario.log_denied)
              [lit "b.mp3"] (lit "out") (lit "logs"))).
Proof.
  intros [[_ Hback] _]. apply Hback; reflexivity.
Qed.



(** The end-to-end scenario of the specification: [a.mp3] transcribes to
    two words, [b.mp3] fails to decode. *)
Example end_to_end_scenario :
  let s := snd (@batch posix (Scenario.world Scenario.first_only Scenario.log_ok)
                       [lit "a.mp3"; lit "b.mp3"] (lit "out") (lit "logs")) in
  file_content (Path (lit "out") (lit "a.txt")) (trace s) = lit "hello world" /\
  total_words s = 2 /\ successful_files s = 1 /\
  errors (self s) = [(lit "b.mp3", lit "decode error")] /\
  omap percent_of (trace s) = [50; 100] /\
  length (log_files_opened (trace s)) = 1%nat.
Proof. vm_compute. repeat split; reflexivity. Qed.

(** The cancellation scenario of the specification: five files, [cancel]
    called while the second one is in progress. *)
Example cancellation_scenario :
  let w := Scenario.world Scenario.cancelled_during_second Scenario.log_ok in
  let fs := [lit "1.mp3"; lit "2.mp3"; lit "3.mp3"; lit "4.mp3"; lit "5.mp3"] in
  let s := snd (@batch posix w fs (lit "out") (lit "logs")) in
  results (trace s) = [lit "1.mp3"; lit "2.mp3"] /\
  omap percent_of (trace s) = [20; 40] /\
  total_words s = 4 /\ successful_files s = 2 /\
  unattempted w (length fs) = 3%nat.
Proof. vm_compute. repeat split; reflexivity. Qed.

End TranscriptionClaims.

(** ** Floats: a quotient of at most one, times one hundred *)

Module FloatRangeFacts.
Import Float FloatFacts FloatRange.

Lemma shr_1_exact (m : Z) :
  0 <= m -> m mod 2 = 0 ->
  shr_1 (Build_shr_record m false false) = Build_shr_record (m / 2) false false.
Proof.
  intros Hm Hev. destruct m as [| [p | p |] | p]; simpl; try done; try lia.
  - exfalso. rewrite Pos2Z.inj_xI in Hev.
    rewrite Z.add_comm, Z.mul_comm, Z.mod_add in Hev by lia. discriminate.
  - f_equal. apply Z.div_unique with 0; lia.
Qed.

Lemma iter_shr_1_exact (n : positive) :
  forall m, 0 <= m -> m mod 2 ^ Zpos n = 0 ->
    SpecFloat.iter_pos shr_1 n (Build_shr_record m false false)
    = Build_shr_record (m / 2 ^ Zpos n) false false.
Proof.
  assert (Hhalf : forall m k j, 0 <= m -> 0 <= k -> 0 <= j ->
            m mod 2 ^ (k + j) = 0 ->
            m mod 2 ^ k = 0 /\ (m / 2 ^ k) mod 2 ^ j = 0 /\ 0 <= m / 2 ^ k).
  { intros m k j Hm Hk Hj Hmod.
    pose proof (Z.pow_pos_nonneg 2 k ltac:(lia) Hk) as Hpk.
    pose proof (Z.pow_pos_nonneg 2 j ltac:(lia) Hj) as Hpj.
    apply Z.mod_divide in Hmod; [| rewrite Z.pow_add_r by lia; lia].
    destruct Hmod as [c Hc]. rewrite Z.pow_add_r in Hc by lia.
    assert (Hm' : m = c * 2 ^ j * 2 ^ k) by lia.
    rewrite Hm'. rewrite Z.mod_mul, Z.div_mul, Z.mod_mul by lia.
    repeat split; try done. nia. }
  assert (Hdiv : forall m k, 0 <= m -> 0 < k -> m mod 2 ^ k = 0 ->
            m mod 2 = 0 /\ (m / 2) mod 2 ^ (k - 1) = 0 /\ 0 <= m / 2).
  { intros m k Hm Hk Hmod.
    replace k with (1 + (k - 1)) in Hmod by lia.
    apply (Hhalf m 1 (k - 1)) in Hmod; try lia. exact Hmod. }
  induction n as [n IH | n IH |]; intros m Hm Hmod.
  - change (SpecFloat.iter_pos shr_1 n~1 ?r)
      with (SpecFloat.iter_pos shr_1 n (SpecFloat.iter_pos shr_1 n (shr_1 r))).
    destruct (Hdiv m (Z.pos n~1) Hm ltac:(lia) Hmod) as (H1 & H2 & H3).
    replace (Z.pos n~1 - 1) with (Z.pos n + Z.pos n) in H2 by lia.
    destruct (Hhalf (m / 2) (Z.pos n) (Z.pos n) H3 ltac:(lia) ltac:(lia) H2)
      as (H4 & H5 & H6).
    rewrite shr_1_exact, IH, IH by done.
    rewrite !Z.div_div by (try apply Z.pow_pos_nonneg; lia). do 2 f_equal.
    replace (Z.pos n~1) with (1 + Z.pos n + Z.pos n) by lia.
    rewrite !Z.pow_add_r by lia. lia.
  - change (SpecFloat.iter_pos shr_1 n~0 ?r)
      with (SpecFloat.iter_pos shr_1 n (SpecFloat.iter_pos shr_1 n r)).
    replace (Z.pos n~0) with (Z.pos n + Z.pos n) in Hmod by lia.
    destruct (Hhalf m (Z.pos n) (Z.pos n) Hm ltac:(lia) ltac:(lia) Hmod)
      as (H4 & H5 & H6).
    rewrite IH, IH by done.
    rewrite !Z.div_div by (try apply Z.pow_pos_nonneg; lia). do 2 f_equal.
    replace (Z.pos n~0) with (Z.pos n + Z.pos n) by lia.
    rewrite !Z.pow_add_r by lia. lia.
  - change (SpecFloat.iter_pos shr_1 1 ?r) with (shr_1 r).
    apply shr_1_exact; [done |]. exact Hmod.
Qed.

(** What [shr_fexp] keeps: a value at most [C * 2 ^ J], where [2 ^ D]
    exceeds that bound and the format's exponent for [D] is at most [J]. *)
Lemma shr_fexp_under (C J D m e : Z) (l : location) :
  0 < C < 2 ^ (D - J) -> J <= D -> fexp prec emax D <= J ->
  under C J m e l ->
  let '(r, e') := shr_fexp prec emax m e l in
  under C J (shr_m r) e' (loc_of_shr_record r) /\
  e' <= Z.max e (fexp prec emax D).
Proof.
  intros HC HJ HD (Hm & He & Hval). unfold shr_fexp, shr.
  assert (Hpow : 0 < 2 ^ (J - e)) by (apply Z.pow_pos_nonneg; lia).
  assert (Hlt : m < 2 ^ (D - e)).
  { replace (D - e) with ((D - J) + (J - e)) by lia.
    rewrite Z.pow_add_r by lia. nia. }
  assert (Hd : Zdigits2 m + e <= D).
  { pose proof (Zdigits2_le m (D - e)). lia. }
  pose proof (fexp_mono _ _ Hd) as Hf.
  assert (Hrec : shr_m (shr_record_of_loc m l) = m)
    by (destruct l as [| []]; reflexivity).
  assert (Hloc : loc_of_shr_record (shr_record_of_loc m l) = l)
    by (destruct l as [| []]; reflexivity).
  destruct (fexp prec emax (Zdigits2 m + e) - e) as [| n | n] eqn:En.
  - rewrite Hrec, Hloc. split; [done | lia].
  - split; [| lia]. assert (He' : e + Z.pos n <= J) by lia.
    assert (Hsplit : 2 ^ (J - e) = 2 ^ (J - (e + Z.pos n)) * 2 ^ Z.pos n).
    { rewrite <- Z.pow_add_r by lia. f_equal. lia. }
    assert (Hpn : 0 < 2 ^ Z.pos n) by (apply Z.pow_pos_nonneg; lia).
    destruct Hval as [Hstrict | [Heq ->]].
    + rewrite iter_shr_1_m, Hrec by (rewrite Hrec; done).
      split; [apply Z.div_pos; lia |]. split; [done |]. left.
      apply Z.div_lt_upper_bound; [lia |]. rewrite Hsplit in Hstrict. lia.
    + assert (Hmod : m mod 2 ^ Z.pos n = 0).
      { rewrite Heq, Hsplit, Z.mul_assoc. apply Z.mod_mul. lia. }
      change (shr_record_of_loc m loc_Exact) with (Build_shr_record m false false).
      rewrite (iter_shr_1_exact n m Hm Hmod). simpl.
      split; [apply Z.div_pos; lia |]. split; [done |]. right. split; [| done].
      rewrite Heq, Hsplit, Z.mul_assoc. apply Z.div_mul. lia.
  - rewrite Hrec, Hloc. split; [done | lia].
Qed.

(** Rounding keeps an upper bound [C * 2 ^ J] that the format can hold. *)
Lemma binary_round_aux_at_most (s : bool) (C J D m e : Z) (l : location) :
  0 < C < 2 ^ (D - J) -> J <= D <= 1024 -> fexp prec emax D <= J ->
  e <= 971 -> J <= 971 ->
  under C J m e l ->
  at_most s C J (binary_round_aux prec emax s m e l).
Proof.
  intros HC HJ HD He971 HJ971 Hun. unfold binary_round_aux.
  pose proof (shr_fexp_under C J D m e l HC ltac:(lia) HD Hun) as H1.
  destruct (shr_fexp prec emax m e l) as [r1 e1].
  destruct H1 as ((Hm1 & He1 & Hval1) & He1').
  set (m1 := round_nearest_even (shr_m r1) (loc_of_shr_record r1)).
  assert (Hun1 : under C J m1 e1 loc_Exact).
  { pose proof (round_nearest_even_bound (shr_m r1) (loc_of_shr_record r1) Hm1).
    split; [subst m1; lia |]. split; [done |].
    destruct Hval1 as [Hlt | [Heq Hex]].
    - destruct (Z_lt_le_dec m1 (C * 2 ^ (J - e1))); [by left |].
      right. split; [subst m1; lia | done].
    - right. split; [| done]. subst m1. rewrite Hex. simpl. exact Heq. }
  pose proof (shr_fexp_under C J D m1 e1 loc_Exact HC ltac:(lia) HD Hun1) as H2.
  destruct (shr_fexp prec emax m1 e1 loc_Exact) as [r2 e2].
  destruct H2 as ((Hm2 & He2 & Hval2) & He2').
  destruct (shr_m r2) as [| p | p] eqn:Ep; simpl; [done | | lia].
  assert (Hle : (e2 <=? emax - prec) = true).
  { apply Z.leb_le. revert He2' He1' HD. unfold fexp, emin, emax, prec. lia. }
  rewrite Hle. simpl. split; [done |]. split; [lia | done].
Qed.

(** The quotient of [a] by [b] is at most one when [a <= b]. *)
Lemma truediv_at_most_one (a b : Z) :
  0 <= a <= b -> 0 < b ->
  exists q, truediv a b = Ret q /\ at_most false 1 0 q.
Proof.
  intros Ha Hb. unfold truediv.
  assert ((b =? 0) = false) as -> by lia.
  assert ((a <? 0) = false) as -> by lia.
  assert ((b <? 0) = false) as -> by lia. simpl xorb.
  destruct (Z.eqb_spec a 0) as [-> | Hne]; [eexists; split; [done | done] |].
  rewrite (Z.abs_eq a), (Z.abs_eq b) by lia.
  unfold SFdiv_core_binary.
  set (e' := Z.min _ _).
  assert (He' : e' <= 0) by (subst e'; lia).
  set (m' := match 0 - 0 - e' with 0 => a | Zpos _ => Z.shiftl a (0 - 0 - e') | Zneg _ => 0 end).
  assert (Hm' : m' = a * 2 ^ (- e')).
  { subst m'. destruct (0 - 0 - e') as [| p | p] eqn:Es; [| | lia].
    - replace (- e') with 0 by lia. simpl. lia.
    - rewrite Z.shiftl_mul_pow2 by lia. do 2 f_equal. lia. }
  pose proof (Z_div_mod m' b ltac:(lia)) as Hdm.
  destruct (Z.div_eucl m' b) as [q r]. destruct Hdm as [Hq Hr].
  assert (Hpos : 0 < 2 ^ (- e')) by (apply Z.pow_pos_nonneg; lia).
  assert (Hq0 : 0 <= q) by nia.
  assert (Hun : under 1 0 q e' (new_location b r)).
  { split; [done |]. split; [done |].
    replace (0 - e') with (- e') by lia.
    destruct (Z_lt_le_dec q (1 * 2 ^ (- e'))) as [Hlt | Hge]; [by left |].
    right. assert (Hqe : q = 1 * 2 ^ (- e')) by nia.
    split; [done |]. assert (r = 0) as -> by nia.
    unfold new_location, new_location_even, new_location_odd.
    destruct (Z.even b); reflexivity. }
  pose proof (binary_round_aux_at_most false 1 0 1 q e' (new_location b r)) as Hb'.
  specialize (Hb' ltac:(simpl; lia) ltac:(lia) ltac:(vm_compute; discriminate)
                  ltac:(lia) ltac:(lia) Hun).
  destruct (binary_round_aux prec emax false q e' (new_location b r)) as [s | s | | s m e];
    simpl in Hb'; try done; eexists; (split; [reflexivity | done]).
Qed.

(** One hundred times a number that is at most one is at most 100. *)
Lemma mul_100_at_most (q : float) :
  at_most false 1 0 q -> at_most false 25 2 (mul q (of_int 100)).
Proof.
  intros Hq. rewrite of_int_100. destruct q as [s | s | | s m e]; simpl in Hq; try done.
  - subst s. done.
  - destruct Hq as (-> & Hm & He). unfold mul, SFmul. simpl xorb.
    apply (binary_round_aux_at_most false 25 2 7); try lia;
      try (vm_compute; discriminate).
    split; [lia |]. split; [lia |].
    rewrite Pos2Z.inj_mul.
    replace (2 - (e + -46)) with ((0 - e) + 48) by lia.
    rewrite Z.pow_add_r by lia.
    assert (Hc : 7036874417766400 = 25 * 2 ^ 48) by reflexivity.
    assert (Hp : 0 < 2 ^ (0 - e)) by (apply Z.pow_pos_nonneg; lia).
    destruct (Z_lt_le_dec (Z.pos m) (1 * 2 ^ (0 - e))) as [Hlt | Hge].
    + left. rewrite Hc. nia.
    + right. split; [| done]. rewrite Hc. nia.
Qed.

Lemma floor_at_most (C J : Z) (x : float) :
  0 <= J -> 0 < C -> at_most false C J x -> 0 <= floor x <= C * 2 ^ J.
Proof.
  intros HJ HC Hx. pose proof (Z.pow_pos_nonneg 2 J ltac:(lia) HJ) as HpJ.
  destruct x as [s | s | | s m e]; simpl in Hx; try done.
  - unfold floor. simpl. rewrite Z.div_1_r. nia.
  - destruct Hx as (-> & Hm & He). unfold floor, to_frac. simpl cond_Zopp.
    destruct e as [| p | p].
    + rewrite Z.div_1_r, Z.shiftl_mul_pow2 by lia.
      rewrite Z.sub_0_r in Hm. simpl. lia.
    + rewrite Z.div_1_r, Z.shiftl_mul_pow2 by lia.
      pose proof (Z.pow_pos_nonneg 2 (Z.pos p) ltac:(lia) ltac:(lia)).
      assert (2 ^ J = 2 ^ (J - Z.pos p) * 2 ^ Z.pos p) as ->.
      { rewrite <- Z.pow_add_r by lia. f_equal. lia. }
      split; [lia |]. nia.
    + rewrite Z.shiftl_mul_pow2 by lia.
      pose proof (Z.pow_pos_nonneg 2 (Z.pos p) ltac:(lia) ltac:(lia)) as Hpp.
      replace (J - Z.neg p) with (J + Z.pos p) in Hm by lia.
      rewrite Z.pow_add_r in Hm by lia.
      split; [apply Z.div_pos; lia |].
      apply Z.div_le_upper_bound; [lia |]. lia.
Qed.

(** [n / n] is exactly one. *)
Lemma truediv_self (n : Z) : 0 < n -> truediv n n = Ret one.
Proof.
  intros Hn. unfold truediv.
  assert ((n =? 0) = false) as -> by lia.
  assert ((n <? 0) = false) as -> by lia. simpl xorb.
  rewrite (Z.abs_eq n) by lia. unfold SFdiv_core_binary.
  replace (Zdigits2 n + 0 - (Zdigits2 n + 0)) with 0 by lia.
  change (Z.min (fexp prec emax 0) (0 - 0)) with (-53).
  change (0 - 0 - -53) with 53. cbv iota.
  rewrite Z.shiftl_mul_pow2 by lia.
  pose proof (Z_div_mod (n * 2 ^ 53) n ltac:(lia)) as Hdm.
  destruct (Z.div_eucl (n * 2 ^ 53) n) as [q r]. destruct Hdm as [Hq Hr].
  assert (Hq53 : q = 2 ^ 53).
  { set (k := 2 ^ 53) in *. assert (Hd : n * (k - q) = r) by lia.
    assert (-1 < k - q < 1) by nia. lia. }
  assert (Hr0 : r = 0) by (rewrite Hq53 in Hq; lia).
  rewrite Hq53, Hr0.
  assert (new_location n 0 = loc_Exact) as ->.
  { unfold new_location. destruct (Z.even n); reflexivity. }
  reflexivity.
Qed.
End FloatRangeFacts.

(** ** The download worker: how a run ends *)

Module DownloadRunFacts.
Import Download DownloadRuns Float FloatFacts FloatRange FloatRangeFacts.

Lemma catalog_sizes (name url : str) :
  MODEL_URLS !! name = Some url -> exists size, MODEL_SIZES !! name = Some size.
Proof.
  intros Hurl. apply elem_of_list_to_map_2 in Hurl.
  repeat (apply elem_of_cons in Hurl; destruct Hurl as [Hurl | Hurl];
          [injection Hurl as -> _; eexists; vm_compute; reflexivity |]).
  by apply elem_of_nil in Hurl.
Qed.


(** One hook call adds only [progress] and [status] signals, whatever the
    trace before. *)
Lemma report_progress_framed (bn bs ts : Z) :
  exists r evs,
    (forall tr, report_progress bn bs ts tr = (r, tr ++ evs)) /\
    Forall is_report evs /\
    (ts <= 0 -> r = Ret tt /\ evs = []).
Proof.
  unfold report_progress, bind, lift, emit, modify.
  destruct (Z.ltb_spec 0 ts) as [Hpos | Hneg].
  2: { exists (Ret tt), []. split; [intros tr; by rewrite app_nil_r | done]. }
  destruct (truediv (bn * bs) ts) as [ratio | e].
  2: { exists (Raise e), []. split; [intros tr; by rewrite app_nil_r |].
       split; [done | lia]. }
  destruct (to_int (mul ratio (of_int 100))) as [p | e].
  2: { exists (Raise e), []. split; [intros tr; by rewrite app_nil_r |].
       split; [done | lia]. }
  destruct (truediv (bn * bs) (1024 * 1024)) as [mbd | e].
  2: { exists (Raise e), [Progress p]. split; [done |].
       split; [by repeat apply Forall_cons_2 | lia]. }
  destruct (truediv ts (1024 * 1024)) as [mbt | e].
  2: { exists (Raise e), [Progress p]. split; [done |].
       split; [by repeat apply Forall_cons_2 | lia]. }
  eexists (Ret tt), [Progress p; Status _]. split.
  - intros tr. by rewrite <- app_assoc.
  - split; [by repeat apply Forall_cons_2 | lia].
Qed.

Lemma report_all_framed (calls : list (Z * Z * Z)) :
  exists r evs,
    (forall tr, report_all calls tr = (r, tr ++ evs)) /\
    Forall is_report evs /\
    (Forall (fun c => c.2 <= 0) calls -> r = Ret tt /\ evs = []).
Proof.
  induction calls as [| [[bn bs] ts] calls (r & evs & Hrun & Hev & Hnone)].
  - exists (Ret tt), []. split; [intros tr; by rewrite app_nil_r | done].
  - destruct (report_progress_framed bn bs ts) as (r1 & e1 & Hrun1 & Hev1 & Hnone1).
    destruct r1 as [[] | e].
    + exists r, (e1 ++ evs). split; [| split].
      * intros tr. simpl. unfold bind. rewrite Hrun1, Hrun. by rewrite app_assoc.
      * by apply Forall_app_2.
      * intros Hall. apply Forall_cons in Hall as [Hts Hall]. simpl in Hts.
        destruct (Hnone1 Hts) as [_ ->]. destruct (Hnone Hall) as [-> ->]. done.
    + exists (Raise e), e1. split; [| split].
      * intros tr. simpl. unfold bind. by rewrite Hrun1.
      * done.
      * intros Hall. apply Forall_cons in Hall as [Hts _]. simpl in Hts.
        destruct (Hnone1 Hts) as [? _]. discriminate.
Qed.

Lemma hook_events_spec (w : World) (tr : list event) :
  report_all (hook_calls w) tr =
    (fst (report_all (hook_calls w) []), tr ++ hook_events w).
Proof.
  destruct (report_all_framed (hook_calls w)) as (r & evs & Hrun & _).
  unfold hook_events. rewrite (Hrun []), (Hrun tr). reflexivity.
Qed.

Lemma hook_events_report (w : World) : Forall is_report (hook_events w).
Proof.
  destruct (report_all_framed (hook_calls w)) as (r & evs & Hrun & Hev & _).
  unfold hook_events. rewrite (Hrun []). exact Hev.
Qed.

Section Run.
Context `{Runtime}.

(** The trace of a run that has to download. *)
Lemma run_downloading (self : Worker) (w : World) (url size : str) :
  MODEL_URLS !! model_name self = Some url ->
  MODEL_SIZES !! model_name self = Some size ->
  path_exists w (model_path_of self) = false ->
  run self w [] =
    (Ret tt,
     match mkdir_out w with
     | Raise e => [failed e]
     | Ret _ =>
         [Mkdir (models_dir self);
          Status (lit "Downloading " ++ model_name self ++ lit " model (" ++
                  size ++ lit ")...");
          UrlRetrieve url (Path_str (model_path_of self))] ++
         hook_events w ++
         match fst (report_all (hook_calls w) []), retrieve_out w with
         | Raise e, _ | Ret _, Raise e => [failed e]
         | Ret _, Ret _ =>
             [Status (lit "Download complete, loading model...");
              FinishedDownload (Path_str (model_path_of self))]
         end
     end).
Proof.
  intros Hurl Hsize Hex.
  unfold run, try_except, urlretrieve, bind, lift, getitem, emit, modify.
  rewrite Hurl, Hex, Hsize.
  destruct (mkdir_out w) as [[] | e]; [| reflexivity].
  rewrite hook_events_spec.
  destruct (fst (report_all (hook_calls w) [])) as [[] | e];
    [destruct (retrieve_out w) as [[] | e] |];
    simpl; rewrite <- ?app_assoc; reflexivity.
Qed.

(** How a run ends. *)
Lemma run_shape (self : Worker) (w : World) :
  exists tr last,
    run self w [] = (Ret tt, tr ++ [last]) /\
    is_terminal last /\ Forall (fun e => ~ is_terminal e) tr.
Proof.
  assert (Hrep : forall evs, Forall is_report evs ->
            Forall (fun e => ~ is_terminal e) evs).
  { intros evs Hall. eapply Forall_impl; [exact Hall |].
    intros []; simpl; tauto. }
  destruct (MODEL_URLS !! model_name self) as [url |] eqn:Hurl.
  2: { exists [], (failed (Exception (repr (model_name self)))).
       split; [| done]. unfold run, try_except, bind, lift, getitem.
       rewrite Hurl. reflexivity. }
  destruct (path_exists w (model_path_of self)) eqn:Hex.
  { exists [Status (lit "Model already exists, loading...")],
           (FinishedDownload (Path_str (model_path_of self))).
    split; [| split; [done |]].
    - unfold run, try_except, bind, lift, getitem. rewrite Hurl, Hex. reflexivity.
    - apply Forall_cons_2; [simpl; tauto | done]. }
  destruct (catalog_sizes _ _ Hurl) as [size Hsize].
  rewrite (run_downloading self w url size Hurl Hsize Hex).
  destruct (mkdir_out w) as [[] | e]; [| by exists [], (failed e)].
  pose proof (Hrep _ (hook_events_report w)) as Hhooks.
  set (pre := [Mkdir (models_dir self); Status _; UrlRetrieve url _]).
  assert (Hpre : Forall (fun e => ~ is_terminal e) (pre ++ hook_events w)).
  { apply Forall_app_2; [| done]. subst pre.
    repeat (apply Forall_cons_2; [simpl; tauto |]). apply Forall_nil_2. }
  destruct (fst (report_all (hook_calls w) [])) as [[] | e];
    [destruct (retrieve_out w) as [[] | e] |].
  - exists (pre ++ hook_events w ++
            [Status (lit "Download complete, loading model...")]),
           (FinishedDownload (Path_str (model_path_of self))).
    split; [by rewrite <- !app_assoc |]. split; [done |].
    rewrite app_assoc. apply Forall_app_2; [done |].
    apply Forall_cons_2; [simpl; tauto | done].
  - exists (pre ++ hook_events w), (failed e).
    split; [by rewrite <- !app_assoc | done].
  - exists (pre ++ hook_events w), (failed e).
    split; [by rewrite <- !app_assoc | done].
Qed.

(** X1.  A run never raises: every exception is caught and reported.  Its
    trace ends with exactly one terminal signal, [finished_download] or
    [error], and has none before. *)
Theorem run_ends_with_one_terminal_signal (self : Worker) (w : World) :
  exists tr last,
    run self w [] = (Ret tt, tr ++ [last]) /\
    is_terminal last /\ Forall (fun e => ~ is_terminal e) tr.
Proof. apply run_shape. Qed.

(** X2.  A model identifier that is not a key of the catalog is reported
    as a failed download carrying the [repr] of the key; nothing else
    happens: no directory is made and nothing is retrieved. *)
Theorem unknown_model_is_reported (self : Worker) (w : World) :
  model_name self ∉ dom MODEL_URLS ->
  run self w [] =
    (Ret tt, [Error (lit "Download failed: " ++ repr (model_name self))]).
Proof.
  intros Hnot. apply not_elem_of_dom in Hnot.
  unfold run, try_except, bind, lift, getitem. rewrite Hnot. reflexivity.
Qed.

(** X3.  When the artifact is absent, the success signal is emitted if
    and only if the directory could be made, no hook call raised and the
    retrieval returned; it then carries the artifact's path.  In every
    other case the run ends on an [error] signal instead. *)
Theorem finished_iff_transfer_succeeds (self : Worker) (w : World) :
  model_name self ∈ dom MODEL_URLS ->
  path_exists w (model_path_of self) = false ->
  ((exists p, FinishedDownload p ∈ run_trace self w) <-> transfer_succeeds w) /\
  ((exists msg, Error msg ∈ run_trace self w) <-> ~ transfer_succeeds w) /\
  (forall p, FinishedDownload p ∈ run_trace self w ->
             p = Path_str (model_path_of self)).
Proof.
  intros Hvalid Hex. apply elem_of_dom in Hvalid as [url Hurl].
  destruct (catalog_sizes _ _ Hurl) as [size Hsize].
  unfold run_trace, transfer_succeeds.
  rewrite (run_downloading self w url size Hurl Hsize Hex). cbn [snd].
  destruct (mkdir_out w) as [[] | e].
  2: { split; [| split].
       - split; [intros [p Hp] | intros [? _]; discriminate].
         apply list_elem_of_singleton in Hp. discriminate.
       - split; [intros _ [? _]; discriminate |].
         intros _. eexists. apply list_elem_of_here.
       - intros p Hp. apply list_elem_of_singleton in Hp. discriminate. }
  set (pre := [Mkdir (models_dir self); Status _; UrlRetrieve url _]).
  assert (Hbody : forall e tl, is_terminal e ->
            e ∈ pre ++ hook_events w ++ tl -> e ∈ tl).
  { intros e tl He Hin. rewrite !elem_of_app in Hin.
    destruct Hin as [Hin | [Hin | Hin]]; [| | done]; exfalso.
    - subst pre.
      repeat (apply elem_of_cons in Hin as [-> | Hin]; [exact He |]).
      by apply elem_of_nil in Hin.
    - pose proof (hook_events_report w) as Hrep.
      rewrite Forall_forall in Hrep. specialize (Hrep e Hin).
      destruct e; simpl in *; tauto. }
  assert (Htail : forall e tl, e ∈ tl -> e ∈ pre ++ hook_events w ++ tl).
  { intros e tl Hin. rewrite !elem_of_app. by right; right. }
  destruct (fst (report_all (hook_calls w) [])) as [[] | e];
    [destruct (retrieve_out w) as [[] | e] |].
  - split; [| split].
    + split; [done |]. intros _. eexists. apply Htail.
      apply list_elem_of_further, list_elem_of_here.
    + split; [| intros Hn; exfalso; by apply Hn].
      intros [msg Hin] _. apply Hbody in Hin; [| done].
      apply elem_of_cons in Hin as [Hin | Hin]; [discriminate |].
      apply list_elem_of_singleton in Hin. discriminate.
    + intros p Hin. apply Hbody in Hin; [| done].
      apply elem_of_cons in Hin as [Hin | Hin]; [discriminate |].
      apply list_elem_of_singleton in Hin. by injection Hin.
  - split; [| split].
    + split; [| intros (_ & _ & ?); discriminate].
      intros [p Hin]. apply Hbody in Hin; [| done].
      apply list_elem_of_singleton in Hin. discriminate.
    + split; [intros _ (_ & _ & ?); discriminate |].
      intros _. eexists. apply Htail, list_elem_of_here.
    + intros p Hin. apply Hbody in Hin; [| done].
      apply list_elem_of_singleton in Hin. discriminate.
  - split; [| split].
    + split; [| intros (_ & ? & _); discriminate].
      intros [p Hin]. apply Hbody in Hin; [| done].
      apply list_elem_of_singleton in Hin. discriminate.
    + split; [intros _ (_ & ? & _); discriminate |].
      intros _. eexists. apply Htail, list_elem_of_here.
    + intros p Hin. apply Hbody in Hin; [| done].
      apply list_elem_of_singleton in Hin. discriminate.
Qed.

(** X4.  A download that succeeds does, in this order: make the models
    directory, announce the model with its catalog size, call
    [urlretrieve] with the catalog's URL and the artifact's path, report
    progress, announce completion and emit the artifact's path. *)
Theorem successful_download_trace (self : Worker) (w : World) :
  model_name self ∈ dom MODEL_URLS ->
  path_exists w (model_path_of self) = false ->
  transfer_succeeds w ->
  exists url size,
    MODEL_URLS !! model_name self = Some url /\
    MODEL_SIZES !! model_name self = Some size /\
    run_trace self w =
      [Mkdir (models_dir self);
       Status (lit "Downloading " ++ model_name self ++ lit " model (" ++
               size ++ lit ")...");
       UrlRetrieve url (Path_str (model_path_of self))] ++
      hook_events w ++
      [Status (lit "Download complete, loading model...");
       FinishedDownload (Path_str (model_path_of self))].
Proof.
  intros Hvalid Hex (Hmk & Hhooks & Hret).
  apply elem_of_dom in Hvalid as [url Hurl].
  destruct (catalog_sizes _ _ Hurl) as [size Hsize].
  exists url, size. split; [done |]. split; [done |].
  unfold run_trace. rewrite (run_downloading self w url size Hurl Hsize Hex).
  rewrite Hmk, Hhooks, Hret. reflexivity.
Qed.

(** X5.  When every hook call reports a total size that is not positive
    (no content length), a run emits no [progress] signal at all. *)
Theorem no_progress_without_total_size (self : Worker) (w : World) :
  Forall (fun call => call.2 <= 0) (hook_calls w) ->
  Forall (fun e => ~ is_progress e) (run_trace self w).
Proof.
  intros Hcalls.
  assert (Hnone : hook_events w = []).
  { destruct (report_all_framed (hook_calls w)) as (r & evs & Hrun & _ & Hno).
    unfold hook_events. rewrite (Hrun []). by destruct (Hno Hcalls) as [_ ->]. }
  unfold run_trace.
  destruct (MODEL_URLS !! model_name self) as [url |] eqn:Hurl.
  2: { unfold run, try_except, bind, lift, getitem. rewrite Hurl. simpl.
       apply Forall_cons_2; [simpl; tauto | done]. }
  destruct (path_exists w (model_path_of self)) eqn:Hex.
  { unfold run, try_except, bind, lift, getitem. rewrite Hurl, Hex. simpl.
    repeat (apply Forall_cons_2; [simpl; tauto |]). done. }
  destruct (catalog_sizes _ _ Hurl) as [size Hsize].
  rewrite (run_downloading self w url size Hurl Hsize Hex), Hnone. cbn [snd].
  destruct (mkdir_out w) as [[] | e];
    [destruct (fst (report_all (hook_calls w) [])) as [[] | e];
     [destruct (retrieve_out w) as [[] | e] |] |];
    repeat (apply Forall_cons_2; [simpl; tauto |]); done.
Qed.
End Run.


(** X6.  While no more than the announced size has been downloaded, the
    percentage is between 0 and 100, and it is exactly 100 when the two
    are equal. *)
Theorem percent_between_0_and_100 (block_num block_size total_size : Z)
    (tr : list event) :
  0 <= block_num * block_size <= total_size -> 0 < total_size ->
  exists r p rest,
    report_progress block_num block_size total_size tr =
      (r, tr ++ Progress p :: rest) /\
    0 <= p <= 100 /\
    (block_num * block_size = total_size -> p = 100).
Proof.
  intros Hd Hts.
  destruct (truediv_at_most_one (block_num * block_size) total_size Hd Hts)
    as (q & Hq & Hone).
  pose proof (mul_100_at_most q Hone) as Hmul.
  pose proof (floor_at_most 25 2 _ ltac:(lia) ltac:(lia) Hmul) as Hfloor.
  assert (Hint : to_int (mul q (of_int 100)) = Ret (floor (mul q (of_int 100)))).
  { destruct (mul q (of_int 100)) as [s | s | | s m e]; simpl in Hmul; try done.
    destruct Hmul as (-> & _). unfold floor, to_frac. simpl.
    destruct e as [| e | e]; f_equal.
    - by rewrite Z.div_1_r.
    - by rewrite Z.div_1_r.
    - rewrite Z.shiftr_div_pow2, Z.shiftl_mul_pow2 by lia. f_equal. lia. }
  unfold report_progress, bind, lift, emit, modify.
  assert ((0 <? total_size) = true) as -> by lia.
  rewrite Hq, Hint.
  assert (Hsame : block_num * block_size = total_size ->
            floor (mul q (of_int 100)) = 100).
  { intros Heq. rewrite Heq, (truediv_self total_size Hts) in Hq.
    injection Hq as <-. reflexivity. }
  change (25 * 2 ^ 2) with 100 in Hfloor.
  destruct (truediv (block_num * block_size) (1024 * 1024)) as [mbd | e];
    [destruct (truediv total_size (1024 * 1024)) as [mbt | e] |];
    eexists _, _, _; (split; [rewrite <- ?app_assoc; reflexivity | done]).
Qed.

Lemma unknown_model_witness :
  (model_name unknown_worker ∉ dom MODEL_URLS) /\
  @run posix unknown_worker fresh_world [] =
    (Ret tt, [Error (lit "Download failed: 'huge'")]).
Proof.
  assert (Hnot : model_name unknown_worker ∉ dom MODEL_URLS).
  { apply not_elem_of_dom. vm_compute. reflexivity. }
  split; [exact Hnot |].
  exact (@unknown_model_is_reported posix unknown_worker fresh_world Hnot).
Defined.

Lemma tiny_is_valid : model_name tiny_worker ∈ dom MODEL_URLS.
Proof. apply elem_of_dom. eexists. vm_compute. reflexivity. Defined.

Lemma fresh_world_succeeds : transfer_succeeds fresh_world.
Proof. repeat split; vm_compute; reflexivity. Defined.

Lemma finished_witness :
  model_name tiny_worker ∈ dom MODEL_URLS /\
  path_exists fresh_world (model_path_of tiny_worker) = false /\
  ((exists p, FinishedDownload p ∈ @run_trace posix tiny_worker fresh_world) <->
   transfer_succeeds fresh_world).
Proof.
  split; [exact tiny_is_valid |]. split; [reflexivity |].
  exact (proj1 (@finished_iff_transfer_succeeds posix tiny_worker fresh_world
                  tiny_is_valid eq_refl)).
Defined.

Lemma successful_download_witness :
  model_name tiny_worker ∈ dom MODEL_URLS /\
  path_exists fresh_world (model_path_of tiny_worker) = false /\
  transfer_succeeds fresh_world /\
  exists url size,
    MODEL_URLS !! model_name tiny_worker = Some url /\
    MODEL_SIZES !! model_name tiny_worker = Some size /\
    @run_trace posix tiny_worker fresh_world =
      [Mkdir (models_dir tiny_worker);
       Status (lit "Downloading " ++ model_name tiny_worker ++ lit " model (" ++
               size ++ lit ")...");
       UrlRetrieve url (lit "models/tiny.pt")] ++
      hook_events fresh_world ++
      [Status (lit "Download complete, loading model...");
       FinishedDownload (lit "models/tiny.pt")].
Proof.
  split; [exact tiny_is_valid |]. split; [reflexivity |].
  split; [exact fresh_world_succeeds |].
  exact (@successful_download_trace posix tiny_worker fresh_world
           tiny_is_valid eq_refl fresh_world_succeeds).
Defined.

Lemma no_progress_witness :
  Forall (fun call => call.2 <= 0) (hook_calls sizeless_world) /\
  Forall (fun e => ~ is_progress e) (@run_trace posix tiny_worker sizeless_world).
Proof.
  assert (Hcalls : Forall (fun call : Z * Z * Z => call.2 <= 0)
                          (hook_calls sizeless_world)).
  { repeat (apply Forall_cons_2; [simpl; lia |]). apply Forall_nil_2. }
  split; [exact Hcalls |].
  exact (@no_progress_without_total_size posix tiny_worker sizeless_world Hcalls).
Defined.

Lemma percent_witness :
  0 <= 2 * 8192 <= 20000 /\ 0 < 20000 /\
  exists r p rest,
    report_progress 2 8192 20000 [] = (r, [] ++ Progress p :: rest) /\
    0 <= p <= 100 /\ (2 * 8192 = 20000 -> p = 100).
Proof.
  split; [lia |]. split; [lia |].
  apply (percent_between_0_and_100 2 8192 20000 []); lia.
Defined.
End DownloadRunFacts.

(** ** The transcription worker: a batch, attempt by attempt *)

Module BatchFacts.
Import Transcription Attempts Float FloatFacts FloatRange FloatRangeFacts
  FormatFacts TranscriptionFacts.

Section Detail.
Context `{Runtime}.

(** The percentage after a file is between 0 and 100, and is 100 after
    the last one. *)
Lemma progress_percent_bounds (idx total : Z) :
  0 <= idx < total ->
  exists p, progress_percent idx total = Ret p /\ 0 <= p <= 100 /\
            (idx + 1 = total -> p = 100).
Proof.
  intros Hidx. unfold progress_percent.
  destruct (truediv_at_most_one (idx + 1) total ltac:(lia) ltac:(lia))
    as (q & Hq & Hone).
  pose proof (mul_100_at_most q Hone) as Hmul.
  pose proof (floor_at_most 25 2 _ ltac:(lia) ltac:(lia) Hmul) as Hfloor.
  change (25 * 2 ^ 2) with 100 in Hfloor.
  assert (Hint : to_int (mul q (of_int 100)) = Ret (floor (mul q (of_int 100)))).
  { destruct (mul q (of_int 100)) as [s | s | | s m e]; simpl in Hmul; try done.
    destruct Hmul as (-> & _). unfold floor, to_frac. simpl.
    destruct e as [| e | e]; f_equal.
    - by rewrite Z.div_1_r.
    - by rewrite Z.div_1_r.
    - rewrite Z.shiftr_div_pow2, Z.shiftl_mul_pow2 by lia. f_equal. lia. }
  rewrite Hq, Hint. eexists. split; [reflexivity |]. split; [done |].
  intros Heq. rewrite Heq, truediv_self in Hq by lia. injection Hq as <-.
  reflexivity.
Qed.

(** The [try] block ends the same way in every state, and adds the words
    of the transcript to the total however it ends. *)
Lemma transcribe_and_save_detail (file_path : str) (fw : FileWorld)
    (s : State) :
  exists io, Forall is_output_io io /\
    let '(r, s') := transcribe_and_save file_path fw s in
    r = outcome_of file_path fw /\
    self s' = self s /\
    total_words s' = total_words s + words_of fw /\
    match r with
    | Ret _ =>
        successful_files s' = successful_files s + 1 /\
        trace s' = trace s ++ io ++
          [FileComplete (Path_name file_path)
             (Float.sub (clock_end fw) (clock_start fw)) (words_of fw)]
    | Raise _ =>
        successful_files s' = successful_files s /\
        trace s' = trace s ++ io
    end.
Proof.
  unfold outcome_of, words_of, transcribe_and_save, save_transcription,
    with_open, bind, lift, emit, modify, gets. simpl write_all.
  unfold bind, lift, emit, modify, ret.
  destruct (transcribe_out fw) as [text | e].
  2: { exists []. simpl. rewrite app_nil_r. repeat split; try done; lia. }
  destruct (mkdir_out fw) as [[] | e].
  2: { exists []. simpl. rewrite app_nil_r. done. }
  destruct (open_out (save_io fw)) as [[] | e].
  2: { exists [Mkdir (output_dir (self s))]. simpl. split; [solve_io | done]. }
  set (p := Path (output_dir (self s)) (Path_stem file_path ++ lit ".txt")).
  destruct (write_out (save_io fw) 0) as [[] | e];
    destruct (close_out (save_io fw)) as [[] | e'].
  - exists [Mkdir (output_dir (self s)); Open p Utf8; Write p text; Close p].
    simpl. rewrite <- !app_assoc. split; [solve_io | done].
  - exists [Mkdir (output_dir (self s)); Open p Utf8; Write p text].
    simpl. rewrite <- !app_assoc. split; [solve_io | done].
  - exists [Mkdir (output_dir (self s)); Open p Utf8; Close p].
    simpl. rewrite <- !app_assoc. split; [solve_io | done].
  - exists [Mkdir (output_dir (self s)); Open p Utf8].
    simpl. rewrite <- !app_assoc. split; [solve_io | done].
Qed.

(** One iteration, in full. *)
Lemma process_file_detail (total : Z) (idx : nat) (file_path : str)
    (fw : FileWorld) (s : State) :
  Z.of_nat idx < total ->
  exists s' evs,
    process_file total (Z.of_nat idx) file_path fw s = (Ret tt, s') /\
    trace s' = trace s ++ evs /\
    omap percent_of evs = [percent_at total idx] /\
    total_words s' = total_words s + words_of fw /\
    successful_files s' =
      successful_files s +
      (if returned (outcome_of file_path fw) then 1 else 0) /\
    errors (self s') =
      errors (self s) ++
      match outcome_of file_path fw with
      | Raise e => [(Path_name file_path, exn_str e)]
      | Ret _ => []
      end /\
    is_cancelled (self s') = is_cancelled (self s).
Proof.
  intros Hidx.
  destruct (progress_percent_bounds (Z.of_nat idx) total ltac:(lia))
    as (p & Hp & _).
  assert (Hat : percent_at total idx = p) by (unfold percent_at; by rewrite Hp).
  unfold process_file, try_except, skip_file, bind, emit, modify, lift.
  rewrite Hp. set (st := lit "Transcribing " ++ _).
  destruct (transcribe_and_save_detail file_path fw (record (Status st) s))
    as (io & Hio & Heff).
  assert (Hquiet : omap percent_of io = []).
  { clear Heff. induction Hio as [| e io He _ IH]; [done |].
    destruct e; simpl in He; try done; exact IH. }
  destruct (transcribe_and_save file_path fw (record (Status st) s))
    as [[[] | e] s1]; destruct Heff as (<- & Hself & Hwords & Hsucc & Htrace);
    simpl in Hself, Hwords, Hsucc, Htrace.
  - eexists _, ([Status st] ++ io ++ [FileComplete _ _ _; Progress p]).
    split; [reflexivity |]. simpl.
    rewrite Htrace, Hself, <- !app_assoc, !omap_app, Hquiet, app_nil_r, Hat.
    repeat split; try done.
  - eexists _, ([Status st] ++ io ++ [Error _ _; Status _; Progress p]).
    split; [reflexivity |]. simpl.
    rewrite Htrace, Hself, <- !app_assoc, !omap_app, Hquiet, Hat.
    repeat split; try done. lia.
Qed.

(** The loop, in full: what it adds to the counters, to the failure list
    and to the progress signals is read off the attempts. *)
Lemma loop_detail (w : World) (total : Z) (remaining : list str) :
  forall (idx : nat) (s : State),
    Z.of_nat idx + len remaining = total ->
    is_cancelled (self s) = cancelled_at w idx ->
    exists s' evs,
      loop w total idx remaining s = (Ret tt, s') /\
      trace s' = trace s ++ evs /\
      omap percent_of evs =
        map (fun a => percent_at total a.1) (attempts w idx remaining) /\
      total_words s' =
        total_words s +
        sum_Z (map (fun a => words_of (file_world w a.1))
                   (attempts w idx remaining)) /\
      successful_files s' =
        successful_files s +
        len (List.filter (succeeded_at w) (attempts w idx remaining)) /\
      errors (self s') =
        errors (self s) ++ omap (failure_at w) (attempts w idx remaining).
Proof.
  induction remaining as [| file_path rest IH]; intros idx s Htotal Hflag.
  - exists s, []. simpl. rewrite !app_nil_r. unfold len. simpl.
    repeat split; try done; lia.
  - simpl loop. simpl attempts. unfold bind at 1, gets at 1.
    rewrite Hflag. destruct (cancelled_at w idx) eqn:Hc.
    + eexists _, [Status (lit "Transcription cancelled")].
      split; [reflexivity |]. simpl. rewrite app_nil_r. unfold len. simpl.
      repeat split; try done; lia.
    + unfold len in Htotal. simpl length in Htotal.
      destruct (process_file_detail total idx file_path (file_world w idx) s)
        as (s1 & e1 & Hrun & Htr1 & Hp1 & Hw1 & Hs1 & He1 & Hc1); [lia |].
      unfold bind at 1. rewrite Hrun.
      unfold bind at 1, controller at 1, modify at 1.
      destruct (iter_cancel_fields (cancel_calls (file_world w idx)) (self s1))
        as (_ & _ & _ & Hie).
      destruct (IH (S idx)
                  (on_self (Nat.iter (cancel_calls (file_world w idx)) cancel) s1))
        as (s' & e2 & Hloop & Htr2 & Hp2 & Hw2 & Hs2 & He2).
      { unfold len. lia. }
      { simpl. rewrite iter_cancel_flag, Hc1, Hflag, Hc. reflexivity. }
      simpl in Htr2, Hw2, Hs2, He2. rewrite Hie in He2.
      exists s', (e1 ++ e2). split; [exact Hloop |].
      rewrite Htr2, Htr1, <- app_assoc, omap_app, Hp1, Hp2, Hw2, Hw1, Hs2, Hs1,
        He2, He1, <- app_assoc.
      repeat split; try done.
      * simpl. lia.
      * cbn [List.filter].
        change (succeeded_at w (idx, file_path))
          with (returned (outcome_of file_path (file_world w idx))).
        destruct (returned (outcome_of file_path (file_world w idx)));
          unfold len; cbn [length]; lia.
      * f_equal.
        change (omap (failure_at w) ((idx, file_path) :: ?l))
          with (match failure_at w (idx, file_path) with
                | Some x => x :: omap (failure_at w) l
                | None => omap (failure_at w) l
                end).
        change (failure_at w (idx, file_path))
          with (match outcome_of file_path (file_world w idx) with
                | Raise e => Some (Path_name file_path, exn_str e)
                | Ret _ => None
                end).
        by destruct (outcome_of file_path (file_world w idx)).
Qed.

Lemma attempts_length (w : World) (remaining : list str) :
  forall idx, length (attempts w idx remaining)
              = attempted_from w idx (length remaining).
Proof.
  induction remaining as [| f rest IH]; intros idx; simpl; [done |].
  destruct (cancelled_at w idx); simpl; [done | by rewrite IH].
Qed.

Lemma attempts_files (w : World) (remaining : list str) :
  forall idx, map snd (attempts w idx remaining)
              = take (attempted_from w idx (length remaining)) remaining.
Proof.
  induction remaining as [| f rest IH]; intros idx; simpl; [done |].
  destruct (cancelled_at w idx); simpl; [done | by rewrite IH].
Qed.

Lemma attempts_indices (w : World) (remaining : list str) :
  forall idx, map fst (attempts w idx remaining)
              = seq idx (attempted_from w idx (length remaining)).
Proof.
  induction remaining as [| f rest IH]; intros idx; simpl; [done |].
  destruct (cancelled_at w idx); simpl; [done | by rewrite IH].
Qed.

(** A batch, in full. *)
Lemma batch_full (w : World) (fs : list str) (out_dir log_dir : str) :
  exists s1 : State,
    batch w fs out_dir log_dir =
      (Ret tt,
       extend s1
         ((if log_due (self s1)
           then log_trace (log_world w) (self s1) else []) ++
          [AllComplete (Float.sub (run_end w) (run_start w))
                       (total_words s1) (successful_files s1)])) /\
    omap percent_of (trace s1) =
      map (fun a => percent_at (len fs) a.1) (attempts w 0 fs) /\
    total_words s1 =
      sum_Z (map (fun a => words_of (file_world w a.1)) (attempts w 0 fs)) /\
    successful_files s1 =
      len (List.filter (succeeded_at w) (attempts w 0 fs)) /\
    errors (self s1) = omap (failure_at w) (attempts w 0 fs) /\
    Forall loop_event (trace s1) /\
    successful_files s1 + len (errors (self s1)) =
      Z.of_nat (attempted w (length fs)) /\
    error_log_path (self s1) = log_dir.
Proof.
  destruct (loop_detail w (len fs) fs 0 (entry w fs out_dir log_dir))
    as (s1 & evs & Hloop & Htr & Hp & Hw & Hs & He).
  { simpl. lia. }
  { simpl. by rewrite iter_cancel_flag. }
  destruct (loop_spec w (len fs) fs 0 (entry w fs out_dir log_dir))
    as (s1' & Hloop' & Hrun); [simpl; lia |].
  assert (s1' = s1) by congruence. subst s1'.
  destruct (loop_run_events _ _ _ _ _ Hrun)
    as (evs' & Htr' & Hev & Herr & Hcnt & _ & _ & Hlog & _).
  pose proof (loop_run_results w 0 fs _ s1 evs' Hrun) as Hres.
  destruct (iter_cancel_fields (cancel_calls_before w)
              (init fs out_dir log_dir)) as (_ & _ & Hil & Hie).
  simpl in Htr, Hw, Hs, He, Htr', Herr, Hcnt, Hlog.
  rewrite Hie in He, Herr. rewrite Hil in Hlog. simpl in He, Herr, Hlog.
  exists s1. split.
  { unfold batch, run, controller, bind, gets, modify.
    change (loop w _ 0 _ _)
      with (loop w (len fs) 0 fs (entry w fs out_dir log_dir)).
    rewrite Hloop.
    change (truthy (errors (self s1)) && truthy (error_log_path (self s1)))
      with (log_due (self s1)).
    destruct (log_due (self s1)).
    + rewrite write_error_log_spec. unfold emit, modify.
      by rewrite extend_record.
    + reflexivity. }
  split; [by rewrite Htr |]. split; [exact Hw |]. split; [exact Hs |].
  split; [exact He |]. split; [by rewrite Htr' |].
  split; [| exact Hlog].
  rewrite Herr. rewrite Hres in Hcnt; [| simpl; by rewrite iter_cancel_flag | done].
  unfold len in Hcnt |- *. rewrite length_map, length_take in Hcnt.
  pose proof (attempted_from_le w (length fs) 0). unfold attempted. lia.
Qed.

Lemma batch_detail (w : World) (fs : list str) (out_dir log_dir : str) :
  exists s1 : State,
    batch w fs out_dir log_dir =
      (Ret tt,
       extend s1
         ((if log_due (self s1)
           then log_trace (log_world w) (self s1) else []) ++
          [AllComplete (Float.sub (run_end w) (run_start w))
                       (total_words s1) (successful_files s1)])) /\
    omap percent_of (trace s1) =
      map (fun a => percent_at (len fs) a.1) (attempts w 0 fs) /\
    total_words s1 =
      sum_Z (map (fun a => words_of (file_world w a.1)) (attempts w 0 fs)) /\
    successful_files s1 =
      len (List.filter (succeeded_at w) (attempts w 0 fs)) /\
    errors (self s1) = omap (failure_at w) (attempts w 0 fs).
Proof.
  destruct (batch_full w fs out_dir log_dir)
    as (s1 & Hb & Hp & Hw & Hs & He & _).
  by exists s1.
Qed.
End Detail.

Lemma log_events_no_percent (p : path) (evs : list event) :
  Forall (log_event p) evs -> omap percent_of evs = [].
Proof.
  induction 1 as [| e evs He _ IH]; [done |].
  destruct e; simpl in He; try done; exact IH.
Qed.

Lemma cancelled_at_none (w : World) (k : nat) :
  cancel_calls_before w = 0%nat ->
  (forall i, (i < k)%nat -> cancel_calls (file_world w i) = 0%nat) ->
  cancelled_at w k = false.
Proof.
  intros H0 Hk. induction k as [| k IH]; simpl; [by rewrite H0 |].
  rewrite IH, Hk by (try intros; auto with lia). reflexivity.
Qed.

Lemma cancelled_at_after (w : World) (k : nat) :
  cancelled_at w k = true -> forall j, (k <= j)%nat -> cancelled_at w j = true.
Proof.
  intros Hk j Hj. induction Hj as [| j Hj IH]; [done |].
  simpl. by rewrite IH.
Qed.

Lemma attempted_from_all (w : World) (n : nat) :
  forall idx,
    (forall i, (idx <= i < idx + n)%nat -> cancelled_at w i = false) ->
    attempted_from w idx n = n.
Proof.
  induction n as [| n IH]; intros idx Hall; simpl; [done |].
  rewrite Hall by lia. f_equal. apply IH. intros i Hi. apply Hall. lia.
Qed.

Lemma attempted_from_none (w : World) (n idx : nat) :
  cancelled_at w idx = true -> attempted_from w idx n = 0%nat.
Proof. intros Hc. destruct n; simpl; [done | by rewrite Hc]. Qed.

Lemma attempted_from_split (w : World) (a : nat) :
  forall idx n,
    (a <= n)%nat ->
    (forall i, (idx <= i < idx + a)%nat -> cancelled_at w i = false) ->
    attempted_from w idx n = (a + attempted_from w (idx + a) (n - a))%nat.
Proof.
  induction a as [| a IH]; intros idx n Ha Hall.
  - simpl. by rewrite Nat.add_0_r, Nat.sub_0_r.
  - destruct n as [| n]; [lia |]. simpl attempted_from at 1.
    rewrite Hall by lia. rewrite (IH (S idx) n) by (try intros; try apply Hall; lia).
    simpl. do 2 f_equal. f_equal. lia.
Qed.

Section Batch.
Context `{Runtime}.

(** The percentages of the first [n] of [total] files. *)
Lemma percents_in_range (total n : nat) :
  (n <= total)%nat ->
  Forall (fun p => 0 <= p <= 100)
         (map (percent_at (Z.of_nat total)) (seq 0 n)) /\
  (n = total -> total <> 0%nat ->
   last (map (percent_at (Z.of_nat total)) (seq 0 n)) = Some 100).
Proof.
  intros Hn. split.
  - apply Forall_map, Forall_forall. intros i Hi.
    apply list_elem_of_In, in_seq in Hi. unfold percent_at.
    destruct (progress_percent_bounds (Z.of_nat i) (Z.of_nat total))
      as (p & -> & Hb & _); [lia | exact Hb].
  - intros -> Hne. destruct total as [| k]; [done |].
    rewrite seq_S, map_app. simpl. rewrite last_snoc. f_equal.
    unfold percent_at.
    destruct (progress_percent_bounds (Z.of_nat k) (Z.of_nat (S k)))
      as (p & -> & _ & Hlast); [lia |].
    apply Hlast. lia.
Qed.

(** The signals of a batch: the summary comes last, and the [progress]
    signals before it are those of the files attempted. *)
Lemma batch_signals (w : World) (fs : list str) (out_dir log_dir : str) :
  let s := snd (batch w fs out_dir log_dir) in
  exists tr,
    fst (batch w fs out_dir log_dir) = Ret tt /\
    trace s =
      tr ++ [AllComplete (Float.sub (run_end w) (run_start w))
                         (total_words s) (successful_files s)] /\
    Forall (fun e => ~ is_summary e) tr /\
    omap percent_of tr =
      map (percent_at (len fs)) (seq 0 (attempted w (length fs))) /\
    successful_files s + len (errors (self s)) =
      Z.of_nat (attempted w (length fs)) /\
    files (self s) = fs.
Proof.
  destruct (batch_full w fs out_dir log_dir)
    as (s1 & Hb & Hp & _ & _ & _ & Hev & Hcnt & _).
  destruct (batch_spec w fs out_dir log_dir) as (s1' & Hrun & Hb').
  destruct (loop_run_events _ _ _ _ _ Hrun) as (_ & _ & _ & _ & _ & Hf & _).
  destruct (iter_cancel_fields (cancel_calls_before w)
              (init fs out_dir log_dir)) as (Hif & _).
  simpl in Hf. rewrite Hif in Hf. simpl in Hf.
  assert (Hfiles : files (self (snd (batch w fs out_dir log_dir))) = fs)
    by (rewrite Hb'; exact Hf).
  cbv zeta. rewrite Hb in Hfiles |- *.
  cbn [fst snd trace extend self total_words successful_files] in Hfiles |- *.
  set (logs := if log_due (self s1)
               then log_trace (log_world w) (self s1) else []).
  assert (Hlogs : Forall (log_event (log_file_of (log_world w) (self s1))) logs).
  { subst logs. destruct (log_due (self s1)); [| apply Forall_nil_2].
    by destruct (log_trace_facts (log_world w) (self s1)) as (Hlog & _). }
  exists (trace s1 ++ logs). split; [reflexivity |].
  split; [by rewrite <- app_assoc |]. split.
  { apply Forall_app_2.
    - eapply Forall_impl; [exact Hev |]. by intros e (? & _).
    - eapply Forall_impl; [exact Hlogs |].
      intros e He Hs. destruct e; simpl in He, Hs; done. }
  split; [| split; [exact Hcnt | exact Hfiles]].
  rewrite omap_app, Hp, (log_events_no_percent _ _ Hlogs), app_nil_r.
  unfold attempted. rewrite <- attempts_indices, map_map. reflexivity.
Qed.


(** X7.  The word total of the summary is the sum, over the files
    attempted, of the words of those whose transcription returned text,
    whether or not their output could be written. *)
Theorem summary_words_are_the_words_transcribed (w : World) (fs : list str)
    (out_dir log_dir : str) :
  total_words (snd (batch w fs out_dir log_dir)) =
    sum_Z (map (fun a => words_of (file_world w a.1)) (attempts w 0 fs)).
Proof.
  destruct (batch_detail w fs out_dir log_dir) as (s1 & -> & _ & Hw & _).
  exact Hw.
Qed.

(** X8.  After a batch the failure list holds, in input order, exactly the
    attempted files whose [try] block raised, each with the message of its
    exception; the successful-file count is the number of the others; and
    the files attempted are a prefix of the input. *)
Theorem failures_are_the_failed_attempts (w : World) (fs : list str)
    (out_dir log_dir : str) :
  let s := snd (batch w fs out_dir log_dir) in
  errors (self s) = omap (failure_at w) (attempts w 0 fs) /\
  successful_files s = len (List.filter (succeeded_at w) (attempts w 0 fs)) /\
  map snd (attempts w 0 fs) = take (attempted w (length fs)) fs /\
  map fst (attempts w 0 fs) = seq 0 (attempted w (length fs)).
Proof.
  destruct (batch_detail w fs out_dir log_dir) as (s1 & -> & _ & _ & Hs & He).
  simpl. split; [exact He |]. split; [exact Hs |].
  split; [apply attempts_files | apply attempts_indices].
Qed.

(** X9.  A batch emits one [progress] signal per attempted file and no
    other: the one after file [i] carries [int((i + 1) / total * 100)].
    Every value is between 0 and 100, and when every file of a non-empty
    batch is attempted the last one is 100. *)
Theorem progress_after_each_attempt (w : World) (fs : list str)
    (out_dir log_dir : str) :
  let s := snd (batch w fs out_dir log_dir) in
  let sent := omap percent_of (trace s) in
  sent = map (percent_at (len fs)) (seq 0 (attempted w (length fs))) /\
  Forall (fun p => 0 <= p <= 100) sent /\
  (attempted w (length fs) = length fs -> fs <> [] -> last sent = Some 100).
Proof.
  destruct (batch_signals w fs out_dir log_dir)
    as (tr & _ & Htrace & _ & Hsent & _).
  cbv zeta. rewrite Htrace, omap_app.
  change (omap percent_of [AllComplete _ _ _]) with (@nil Z).
  rewrite app_nil_r, Hsent.
  pose proof (attempted_from_le w (length fs) 0) as Hle.
  fold (attempted w (length fs)) in Hle.
  destruct (percents_in_range (length fs) (attempted w (length fs)) Hle)
    as [Hrange Hlast].
  split; [done |]. split; [exact Hrange |].
  intros Hall Hne. apply Hlast; [exact Hall |]. by destruct fs.
Qed.

(** X10.  When [cancel] is first called while file number [k] is being
    processed, that file is still processed to its end and the loop stops
    before the next: exactly [k + 1] files have a result. *)
Theorem in_flight_file_completes (w : World) (fs : list str)
    (out_dir log_dir : str) (k : nat) :
  cancel_calls_before w = 0%nat ->
  (forall i, (i < k)%nat -> cancel_calls (file_world w i) = 0%nat) ->
  (0 < cancel_calls (file_world w k))%nat ->
  (k < length fs)%nat ->
  let s := snd (batch w fs out_dir log_dir) in
  map snd (attempts w 0 fs) = take (S k) fs /\
  successful_files s + len (errors (self s)) = Z.of_nat (S k) /\
  unattempted w (length fs) = (length fs - S k)%nat.
Proof.
  intros H0 Hbefore Hk Hlen.
  assert (Hatt : attempted w (length fs) = S k).
  { unfold attempted. rewrite (attempted_from_split w (S k)); [| lia |].
    - rewrite attempted_from_none; [lia |]. simpl.
      assert ((0 <? cancel_calls (file_world w k))%nat = true) as ->
        by (apply Nat.ltb_lt; lia).
      by rewrite orb_true_r.
    - intros i Hi. apply cancelled_at_none; [done |].
      intros j Hj. apply Hbefore. lia. }
  destruct (batch_facts w fs out_dir log_dir)
    as (s1 & -> & _ & _ & _ & Hcount & _).
  cbv zeta. cbn [snd self extend successful_files].
  rewrite attempts_files. fold (attempted w (length fs)).
  unfold unattempted. rewrite Hatt in *.
  split; [done |]. split; [exact Hcount | done].
Qed.

(** X11.  When [cancel] is never called, every file is processed: each has
    a result, none is left unattempted, and no cancellation is
    announced. *)
Theorem without_cancel_every_file_is_processed (w : World) (fs : list str)
    (out_dir log_dir : str) :
  cancel_calls_before w = 0%nat ->
  (forall i, cancel_calls (file_world w i) = 0%nat) ->
  let s := snd (batch w fs out_dir log_dir) in
  map snd (attempts w 0 fs) = fs /\
  successful_files s + len (errors (self s)) = len fs /\
  unattempted w (length fs) = 0%nat.
Proof.
  intros H0 Hnone.
  assert (Hatt : attempted w (length fs) = length fs).
  { apply attempted_from_all. intros i _. by apply cancelled_at_none. }
  destruct (batch_facts w fs out_dir log_dir)
    as (s1 & -> & _ & _ & _ & Hcount & _).
  cbv zeta. cbn [snd self extend successful_files].
  rewrite attempts_files. fold (attempted w (length fs)).
  unfold unattempted. rewrite Hatt in *. rewrite firstn_all.
  split; [done |]. split; [exact Hcount | lia].
Qed.

(** X12.  When [cancel] was called before the loop reads the flag for the
    first time, no file is processed: the run announces the cancellation
    and emits a summary of zero words and zero files. *)
Theorem cancel_before_start_processes_nothing (w : World) (fs : list str)
    (out_dir log_dir : str) :
  (0 < cancel_calls_before w)%nat ->
  fs <> [] ->
  trace (snd (batch w fs out_dir log_dir)) =
    [Status (lit "Transcription cancelled");
     AllComplete (Float.sub (run_end w) (run_start w)) 0 0].
Proof.
  intros Hc Hne. destruct fs as [| f fs']; [done |].
  destruct (batch_spec w (f :: fs') out_dir log_dir) as (s1 & Hrun & ->).
  assert (Hflag : is_cancelled (self (entry w (f :: fs') out_dir log_dir)) = true).
  { simpl. rewrite iter_cancel_flag. simpl.
    apply Nat.ltb_lt in Hc. by rewrite Hc. }
  inversion Hrun as [| idx f' rest s Hf | idx f' rest s s2 s' Hf]; subst;
    [| congruence].
  destruct (iter_cancel_fields (cancel_calls_before w)
              (init (f :: fs') out_dir log_dir)) as (_ & _ & _ & Hie).
  unfold log_due. cbn [snd self trace extend entry entry_of on_self
                       set_successful_files set_total_words start
                       total_words successful_files].
  rewrite Hie. reflexivity.
Qed.
End Batch.

Lemma disk_content_app (p : path) (a b : list event) :
  disk_content p (a ++ b) = fold_left (disk_step p) b (disk_content p a).
Proof. unfold disk_content. apply fold_left_app. Qed.

Lemma content_of_writes (p : path) (l : list str) :
  file_content p (map (Write p) l) = concat l.
Proof.
  unfold file_content. induction l as [| c l IH]; [done |].
  simpl. destruct (decide (p = p)); [| done]. simpl. f_equal. exact IH.
Qed.

Lemma write_all_stops_at (io : FileIO) (p : path) (chunks : list str) :
  forall (k j : nat) (e : exn) (s : State),
    (forall i, (i < j)%nat -> write_out io (k + i) = Ret tt) ->
    write_out io (k + j) = Raise e ->
    (j < length chunks)%nat ->
    write_all io p k chunks s =
      (Raise e, extend s (map (Write p) (take j chunks))).
Proof.
  induction chunks as [| c rest IH]; intros k j e s Hok Hfail Hj;
    [simpl in Hj; lia |].
  simpl write_all. unfold bind, lift, emit, modify.
  destruct j as [| j].
  - rewrite Nat.add_0_r in Hfail. rewrite Hfail. simpl.
    by rewrite extend_nil.
  - rewrite <- (Nat.add_0_r k) at 1. rewrite (Hok 0%nat) by lia.
    rewrite (IH (S k) j e).
    + simpl. by rewrite record_extend.
    + intros i Hi. replace (S k + i)%nat with (k + S i)%nat by lia.
      apply Hok. lia.
    + by replace (S k + j)%nat with (k + S j)%nat by lia.
    + simpl in Hj. lia.
Qed.

Lemma split_go_app (a b : str) (c : codepoint) :
  isspace c = true ->
  forall cur, split_go (a ++ c :: b) cur = split_go a cur ++ split b.
Proof.
  intros Hc. induction a as [| x a IH]; intros cur; simpl.
  - rewrite Hc. by destruct cur.
  - destruct (isspace x); [| apply IH].
    destruct cur; simpl; by rewrite IH.
Qed.

Lemma split_go_words (s : str) :
  forall cur,
    Forall (fun c => isspace c = false) cur ->
    Forall (fun word => word <> [] /\ Forall (fun c => isspace c = false) word)
           (split_go s cur).
Proof.
  induction s as [| x s IH]; intros cur Hcur; simpl.
  - destruct cur as [| y cur]; [apply Forall_nil_2 |].
    apply Forall_cons_2; [| apply Forall_nil_2].
    split; [| by apply Forall_rev].
    intros Hnil. apply (f_equal (@length _)) in Hnil.
    rewrite length_rev in Hnil. discriminate.
  - destruct (isspace x) eqn:Hx.
    + destruct cur as [| y cur]; [by apply IH |].
      apply Forall_cons_2; [| by apply IH].
      split; [| by apply Forall_rev].
      intros Hnil. apply (f_equal (@length _)) in Hnil.
      rewrite length_rev in Hnil. discriminate.
    + apply IH. by apply Forall_cons_2.
Qed.

Lemma split_go_nil (s : str) :
  forall cur, split_go s cur = [] <-> cur = [] /\ Forall (fun c => isspace c = true) s.
Proof.
  induction s as [| x s IH]; intros cur; simpl.
  - destruct cur; split; try done. by intros [? _].
  - destruct (isspace x) eqn:Hx.
    + destruct cur as [| y cur].
      * rewrite IH. split.
        -- intros [_ Hs]. split; [done |]. by apply Forall_cons_2.
        -- intros [_ Hs]. split; [done |]. by apply Forall_cons_1 in Hs as [_ ?].
      * split; [done | by intros [? _]].
    + rewrite IH. split; [by intros [? _] |].
      intros [_ Hs]. apply Forall_cons_1 in Hs as [Hs _]. congruence.
Qed.

(** X18.  The word count of a transcript, [len(text.split())]: the words
    are non-empty and free of whitespace, a text has no word exactly when
    it is all whitespace, and the count of two texts joined by a
    whitespace character is the sum of their counts. *)
Theorem word_count_of_a_transcript (a b : str) (c : codepoint) :
  Forall (fun word => word <> [] /\ Forall (fun x => isspace x = false) word)
         (split a) /\
  (len (split a) = 0 <-> Forall (fun x => isspace x = true) a) /\
  (isspace c = true ->
   len (split (a ++ c :: b)) = len (split a) + len (split b)).
Proof.
  split; [apply split_go_words, Forall_nil_2 |]. split.
  - pose proof (split_go_nil a []) as Hnil. unfold len, split.
    destruct (split_go a []) as [| word rest]; simpl.
    + split; [intros _ | done]. by apply Hnil.
    + split; [intros Hz; discriminate Hz |]. intros Hall.
      assert (word :: rest = []) by (apply Hnil; done). discriminate.
  - intros Hc.
    change (split (a ++ c :: b)) with (split_go (a ++ c :: b) []).
    rewrite (split_go_app a b c Hc). fold (split a).
    unfold len. rewrite length_app. lia.
Qed.

Section Files.
Context `{Runtime}.

(** X13.  A file counts as successful exactly when the transcription
    returns a text and creating the output directory, opening the output
    file, writing it and closing it all succeed. *)
Theorem file_succeeds_iff_every_step_does (w : World) (idx : nat)
    (file_path : str) :
  let fw := file_world w idx in
  succeeded_at w (idx, file_path) = true <->
  (exists text, transcribe_out fw = Ret text) /\
  mkdir_out fw = Ret tt /\
  open_out (save_io fw) = Ret tt /\
  write_out (save_io fw) 0 = Ret tt /\
  close_out (save_io fw) = Ret tt.
Proof.
  cbv zeta. unfold succeeded_at, outcome_of. cbn [fst snd].
  unfold transcribe_and_save, save_transcription, with_open, bind, lift,
    emit, modify, gets. simpl write_all. unfold bind, lift, emit, modify, ret.
  destruct (transcribe_out (file_world w idx)) as [text | e].
  2: { simpl. split; [done |]. by intros ((? & ?) & _). }
  destruct (mkdir_out (file_world w idx)) as [[] | e].
  2: { simpl. split; [done |]. by intros (_ & ? & _). }
  destruct (open_out (save_io (file_world w idx))) as [[] | e].
  2: { simpl. split; [done |]. by intros (_ & _ & ? & _). }
  destruct (write_out (save_io (file_world w idx)) 0) as [[] | e];
    destruct (close_out (save_io (file_world w idx))) as [[] | e']; simpl.
  - split; [| done]. intros _. repeat split; try done. by exists text.
  - split; [done |]. by intros (_ & _ & _ & _ & ?).
  - split; [done |]. by intros (_ & _ & _ & ? & _).
  - split; [done |]. by intros (_ & _ & _ & ? & _).
Qed.

(** X14.  Processing a file whose steps all succeed writes the transcript
    to [<output_dir>/<stem>.txt], opened for writing with encoding utf-8:
    after the iteration the file holds exactly the transcript, whatever
    was written to that path before. *)
Theorem saved_transcript_replaces_the_output_file (total : Z) (idx : nat)
    (file_path : str) (fw : FileWorld) (s : State) (text : str) :
  Z.of_nat idx < total ->
  transcribe_out fw = Ret text ->
  mkdir_out fw = Ret tt ->
  open_out (save_io fw) = Ret tt ->
  write_out (save_io fw) 0 = Ret tt ->
  close_out (save_io fw) = Ret tt ->
  let p := Path (output_dir (self s)) (Path_stem file_path ++ lit ".txt") in
  exists st,
    process_file total (Z.of_nat idx) file_path fw s =
      (Ret tt,
       {| self := self s;
          total_words := total_words s + len (split text);
          successful_files := successful_files s + 1;
          trace := trace s ++
            [Status st; Mkdir (output_dir (self s)); Open p Utf8;
             Write p text; Close p;
             FileComplete (Path_name file_path)
               (Float.sub (clock_end fw) (clock_start fw)) (len (split text));
             Progress (percent_at total idx)] |}) /\
    disk_content p
      (trace (snd (process_file total (Z.of_nat idx) file_path fw s))) = text.
Proof.
  intros Hidx Htr Hmk Hop Hwr Hcl p.
  destruct (progress_percent_bounds (Z.of_nat idx) total ltac:(lia))
    as (pc & Hp & _).
  assert (Hat : percent_at total idx = pc) by (unfold percent_at; by rewrite Hp).
  assert (Hrun : exists st,
    process_file total (Z.of_nat idx) file_path fw s =
      (Ret tt,
       {| self := self s;
          total_words := total_words s + len (split text);
          successful_files := successful_files s + 1;
          trace := trace s ++
            [Status st; Mkdir (output_dir (self s)); Open p Utf8;
             Write p text; Close p;
             FileComplete (Path_name file_path)
               (Float.sub (clock_end fw) (clock_start fw)) (len (split text));
             Progress (percent_at total idx)] |})).
  { eexists.
    unfold process_file, try_except, transcribe_and_save, save_transcription,
      with_open, bind, lift, emit, modify, gets. simpl write_all.
    unfold bind, lift, emit, modify, ret.
    rewrite Htr, Hmk, Hop, Hwr, Hcl, Hp, Hat. unfold record.
    cbn [self total_words successful_files trace set_total_words
         set_successful_files fst snd].
    rewrite <- !app_assoc. reflexivity. }
  destruct Hrun as (st & Hrun). exists st. split; [exact Hrun |].
  rewrite Hrun. cbn [snd trace]. rewrite disk_content_app.
  cbn [fold_left disk_step].
  rewrite !decide_True by reflexivity. reflexivity.
Qed.

(** X15.  When the log file is open and the [j]-th write to it is the
    first to raise, the log keeps the [j] chunks already written, the file
    is closed, and the failure is reported with an [error] signal named
    "Error Log"; [write_error_log] itself returns. *)
Theorem failed_log_write_leaves_a_truncated_log (lw : LogWorld)
    (s : State) (j : nat) (e : exn) :
  log_mkdir_out lw = Ret tt ->
  open_out (log_io lw) = Ret tt ->
  (forall i, (i < j)%nat -> write_out (log_io lw) i = Ret tt) ->
  write_out (log_io lw) j = Raise e ->
  (j < length (log_chunks lw (self s)))%nat ->
  close_out (log_io lw) = Ret tt ->
  let p := log_file_of lw (self s) in
  write_error_log lw s =
    (Ret tt,
     extend s
       ([Mkdir (error_log_path (self s)); Open p Utf8] ++
        map (Write p) (take j (log_chunks lw (self s))) ++
        [Close p; log_failure e])) /\
  file_content p (trace (snd (write_error_log lw s))) =
    file_content p (trace s) ++ concat (take j (log_chunks lw (self s))).
Proof.
  intros Hmk Hop Hok Hfail Hj Hcl p.
  assert (Hrun : write_error_log lw s =
    (Ret tt,
     extend s
       ([Mkdir (error_log_path (self s)); Open p Utf8] ++
        map (Write p) (take j (log_chunks lw (self s))) ++
        [Close p; log_failure e]))).
  { unfold write_error_log, try_except, with_open, bind, gets, lift, emit,
      modify.
    rewrite Hmk, Hop. cbn [self record].
    fold (log_file_of lw (self s)). fold p.
    change (log_header (now_header lw) ++ flat_map log_block (errors (self s)))
      with (log_chunks lw (self s)).
    rewrite (write_all_stops_at (log_io lw) p (log_chunks lw (self s)) 0 j e)
      by (try done; lia).
    rewrite Hcl. unfold log_failure, extend, record. cbn [self total_words
      successful_files trace]. rewrite <- !app_assoc. reflexivity. }
  split; [exact Hrun |]. rewrite Hrun. cbn [snd trace extend].
  rewrite !file_content_app, content_of_writes.
  change (file_content p [Mkdir (error_log_path (self s)); Open p Utf8])
    with (@nil codepoint).
  change (file_content p [Close p; log_failure e]) with (@nil codepoint).
  by rewrite app_nil_r.
Qed.

(** X16.  When creating the log directory or opening the log file raises,
    [run] still returns: the failure is reported with an [error] signal
    named "Error Log", no log file is written to, and the summary follows
    as the last signal, with the same counts. *)
Theorem log_failure_does_not_stop_the_summary (w : World) (fs : list str)
    (out_dir log_dir : str) (e : exn) :
  let s := snd (batch w fs out_dir log_dir) in
  errors (self s) <> [] ->
  log_dir <> [] ->
  log_mkdir_out (log_world w) = Raise e \/
  log_mkdir_out (log_world w) = Ret tt /\
  open_out (log_io (log_world w)) = Raise e ->
  fst (batch w fs out_dir log_dir) = Ret tt /\
  exists tr,
    trace s =
      tr ++ [log_failure e;
             AllComplete (Float.sub (run_end w) (run_start w))
                         (total_words s) (successful_files s)] /\
    Forall (fun ev => ~ is_summary ev) tr /\
    log_files_opened (trace s) = [] /\
    failures tr = errors (self s).
Proof.
  destruct (batch_facts w fs out_dir log_dir)
    as (s1 & Hbatch & Hev & _ & Herr & _ & Hlog).
  rewrite Hbatch. cbv zeta. cbn [fst snd self trace extend total_words
                                   successful_files].
  intros Hne Hdir Hfail. split; [reflexivity |].
  assert (Hdue : log_due (self s1) = true).
  { unfold log_due. rewrite Hlog.
    destruct (errors (self s1)); [done |]. by destruct log_dir. }
  rewrite Hdue.
  assert (Hloop : Forall (fun ev => ~ is_summary ev) (trace s1)).
  { eapply Forall_impl; [exact Hev |]. by intros ev (? & _). }
  assert (Hnolog : log_files_opened (trace s1) = []).
  { clear -Hev. induction Hev as [| ev tr (_ & Hno & _) _ IH]; [done |].
    unfold log_files_opened in *. simpl. by rewrite Hno. }
  unfold log_trace, write_error_log, try_except, with_open, bind, gets, lift,
    emit, modify.
  destruct Hfail as [Hmk | [Hmk Hop]].
  - rewrite Hmk. cbn [snd trace start record]. exists (trace s1).
    rewrite app_nil_l. split; [reflexivity |]. split; [exact Hloop |].
    split; [| by rewrite Herr].
    rewrite log_files_opened_app, Hnolog. reflexivity.
  - rewrite Hmk, Hop. cbn [snd trace start record self].
    exists (trace s1 ++ [Mkdir (error_log_path (self s1))]).
    rewrite app_nil_l, <- !app_assoc. split; [reflexivity |].
    split; [apply Forall_app_2; [exact Hloop |] |].
    { apply Forall_cons_2; [by intros [] | apply Forall_nil_2]. }
    split.
    + rewrite log_files_opened_app, Hnolog. reflexivity.
    + rewrite failures_app, <- Herr. simpl. by rewrite app_nil_r.
Qed.

End Files.

Lemma in_flight_witness :
  let w := Scenario.world Scenario.cancelled_during_second Scenario.log_ok in
  let fs := [lit "a.mp3"; lit "b.mp3"; lit "c.mp3"] in
  cancel_calls_before w = 0%nat /\
  (forall i, (i < 1)%nat -> cancel_calls (file_world w i) = 0%nat) /\
  (0 < cancel_calls (file_world w 1))%nat /\
  (1 < length fs)%nat /\
  let s := snd (@batch posix w fs (lit "out") (lit "")) in
  map snd (attempts w 0 fs) = take 2 fs /\
  successful_files s + len (errors (self s)) = Z.of_nat 2 /\
  unattempted w (length fs) = (length fs - 2)%nat.
Proof.
  intros w fs.
  assert (Hbefore : forall i, (i < 1)%nat -> cancel_calls (file_world w i) = 0%nat)
    by (intros i Hi; destruct i; [reflexivity | lia]).
  assert (Hk : (0 < cancel_calls (file_world w 1))%nat) by (simpl; lia).
  assert (Hlen : (1 < length fs)%nat) by (simpl; lia).
  split; [reflexivity |]. split; [exact Hbefore |]. split; [exact Hk |].
  split; [exact Hlen |].
  exact (@in_flight_file_completes posix w fs (lit "out") (lit "") 1%nat
           eq_refl Hbefore Hk Hlen).
Defined.

Lemma without_cancel_witness :
  let w := Scenario.world Scenario.first_only Scenario.log_ok in
  let fs := [lit "a.mp3"; lit "b.mp3"] in
  cancel_calls_before w = 0%nat /\
  (forall i, cancel_calls (file_world w i) = 0%nat) /\
  let s := snd (@batch posix w fs (lit "out") (lit "logs")) in
  map snd (attempts w 0 fs) = fs /\
  successful_files s + len (errors (self s)) = len fs /\
  unattempted w (length fs) = 0%nat.
Proof.
  intros w fs.
  assert (Hnone : forall i, cancel_calls (file_world w i) = 0%nat)
    by (intros i; destruct i; reflexivity).
  split; [reflexivity |]. split; [exact Hnone |].
  exact (@without_cancel_every_file_is_processed posix w fs (lit "out")
           (lit "logs") eq_refl Hnone).
Defined.

Lemma cancel_before_start_witness :
  let fs := [lit "a.mp3"; lit "b.mp3"] in
  (0 < cancel_calls_before cancelled_early)%nat /\
  fs <> [] /\
  trace (snd (@batch posix cancelled_early fs (lit "out") (lit "logs"))) =
    [Status (lit "Transcription cancelled");
     AllComplete (Float.sub (run_end cancelled_early)
                            (run_start cancelled_early)) 0 0].
Proof.
  intros fs.
  assert (Hc : (0 < cancel_calls_before cancelled_early)%nat) by (simpl; lia).
  assert (Hne : fs <> []) by discriminate.
  split; [exact Hc |]. split; [exact Hne |].
  exact (@cancel_before_start_processes_nothing posix cancelled_early fs
           (lit "out") (lit "logs") Hc Hne).
Defined.

Lemma same_stem_witness :
  let fw := Scenario.transcribed "second" in
  let p := Path (lit "out") (lit "x.txt") in
  Z.of_nat 1 < 2 /\
  transcribe_out fw = Ret (lit "second") /\
  disk_content p (trace after_first_save) = lit "first" /\
  disk_content p
    (trace (snd (@process_file posix 2 (Z.of_nat 1) (lit "b/x.wav") fw
                   after_first_save))) = lit "second".
Proof.
  intros fw p.
  assert (Hidx : Z.of_nat 1 < 2) by lia.
  split; [exact Hidx |]. split; [reflexivity |]. split; [reflexivity |].
  destruct (@saved_transcript_replaces_the_output_file posix 2 1
              (lit "b/x.wav") fw after_first_save (lit "second")
              Hidx eq_refl eq_refl eq_refl eq_refl eq_refl) as (st & _ & Hdisk).
  exact Hdisk.
Defined.

Lemma truncated_log_witness :
  let lw := log_full_after 3 in
  let s := on_self (append_error (lit "b.mp3", lit "decode error"))
             (start (init [lit "b.mp3"] (lit "out") (lit "logs"))) in
  let e := Exception (lit "No space left on device") in
  let p := log_file_of lw (self s) in
  log_mkdir_out lw = Ret tt /\
  open_out (log_io lw) = Ret tt /\
  (forall i, (i < 3)%nat -> write_out (log_io lw) i = Ret tt) /\
  write_out (log_io lw) 3 = Raise e /\
  (3 < length (log_chunks lw (self s)))%nat /\
  close_out (log_io lw) = Ret tt /\
  write_error_log lw s =
    (Ret tt,
     extend s
       ([Mkdir (error_log_path (self s)); Open p Utf8] ++
        map (Write p) (take 3 (log_chunks lw (self s))) ++
        [Close p; log_failure e])) /\
  file_content p (trace (snd (write_error_log lw s))) =
    file_content p (trace s) ++ concat (take 3 (log_chunks lw (self s))).
Proof.
  intros lw s e p.
  assert (Hok : forall i, (i < 3)%nat -> write_out (log_io lw) i = Ret tt).
  { intros i Hi. destruct i as [| [| [| i]]]; [reflexivity .. | lia]. }
  assert (Hlen : (3 < length (log_chunks lw (self s)))%nat) by (simpl; lia).
  split; [reflexivity |]. split; [reflexivity |]. split; [exact Hok |].
  split; [reflexivity |]. split; [exact Hlen |]. split; [reflexivity |].
  exact (failed_log_write_leaves_a_truncated_log lw s 3 e
           eq_refl eq_refl Hok eq_refl Hlen eq_refl).
Defined.

Lemma log_failure_witness :
  let w := Scenario.world (fun _ => Scenario.undecodable "decode error")
                          log_dir_denied in
  let fs := [lit "b.mp3"] in
  let e := Exception (lit "Permission denied") in
  let s := snd (@batch posix w fs (lit "out") (lit "logs")) in
  errors (self s) <> [] /\
  lit "logs" <> [] /\
  fst (@batch posix w fs (lit "out") (lit "logs")) = Ret tt /\
  exists tr,
    trace s =
      tr ++ [log_failure e;
             AllComplete (Float.sub (run_end w) (run_start w))
                         (total_words s) (successful_files s)] /\
    Forall (fun ev => ~ is_summary ev) tr /\
    log_files_opened (trace s) = [] /\
    failures tr = errors (self s).
Proof.
  intros w fs e s.
  assert (Herr : errors (self s) <> []).
  { intros Hnil. vm_compute in Hnil. discriminate Hnil. }
  assert (Hdir : lit "logs" <> []) by discriminate.
  split; [exact Herr |]. split; [exact Hdir |].
  exact (@log_failure_does_not_stop_the_summary posix w fs (lit "out")
           (lit "logs") e Herr Hdir (or_introl eq_refl)).
Defined.
End BatchFacts.

(** ** The window: what the slots make of a worker's signals *)

Module GuiFacts.
Import Gui GuiStates.
Import Transcription(percent_of, is_summary, batch, attempted, unattempted).
Import Attempts TranscriptionFacts BatchFacts DownloadRuns DownloadRunFacts.

Lemma setValue_in_range (v current : Z) :
  0 <= v <= 100 -> setValue v current = v.
Proof.
  intros Hv. unfold setValue.
  rewrite (proj2 (Z.leb_le 0 v)), (proj2 (Z.leb_le v 100)) by lia.
  reflexivity.
Qed.

Lemma fold_setValue (l : list Z) :
  Forall (fun v => 0 <= v <= 100) l ->
  forall current,
    fold_left (fun bar v => setValue v bar) l current =
    default current (last l).
Proof.
  induction 1 as [| v l Hv _ IH]; intros current; [done |].
  simpl fold_left. rewrite IH, setValue_in_range by done.
  rewrite last_cons. by destruct (last l).
Qed.

Section Slots.
Context `{Runtime} `{Toolkit}.

(** A slot other than [all_completed] returns, and changes the progress
    bar only when it is [update_progress]. *)
Lemma deliver_signal (e : Transcription.event) (g : Window) :
  ~ is_summary e ->
  exists g',
    deliver e g = (Ret tt, g') /\
    files g' = files g /\
    error_log_path g' = error_log_path g /\
    controls g' = controls g /\
    progress_bar g' =
      match percent_of e with
      | Some v => setValue v (progress_bar g)
      | None => progress_bar g
      end.
Proof.
  intros Hs. destruct e; simpl in Hs; try done;
    unfold deliver, update_progress, update_status, file_completed,
      show_error, bind, gets, modify, ret;
    eexists; (split; [reflexivity |]); done.
Qed.

Lemma deliver_all_signals (tr : list Transcription.event) :
  Forall (fun e => ~ is_summary e) tr ->
  forall g, exists g',
    deliver_all tr g = (Ret tt, g') /\
    files g' = files g /\
    error_log_path g' = error_log_path g /\
    controls g' = controls g /\
    progress_bar g' =
      fold_left (fun bar v => setValue v bar) (omap percent_of tr)
                (progress_bar g).
Proof.
  induction 1 as [| e tr He _ IH]; intros g.
  - by exists g.
  - destruct (deliver_signal e g He) as (g1 & Hrun & Hf & Hl & Hc & Hp).
    destruct (IH g1) as (g2 & Hrun2 & Hf2 & Hl2 & Hc2 & Hp2).
    exists g2. simpl deliver_all. unfold bind. rewrite Hrun, Hrun2.
    split; [done |]. rewrite Hf2, Hl2, Hc2, Hp2, Hf, Hl, Hc, Hp.
    repeat split. by destruct e.
Qed.

Lemma deliver_all_app (a b : list Transcription.event) (g : Window) :
  deliver_all (a ++ b) g = (deliver_all a ;;; deliver_all b) g.
Proof.
  revert g. induction a as [| e a IH]; intros g; simpl.
  - reflexivity.
  - unfold bind. destruct (deliver e g) as [[[] | ex] g1]; [| done].
    rewrite IH. reflexivity.
Qed.

(** [all_completed] sets the status label first; the rest of it changes
    only the statistics, whether or not it returns. *)
Lemma all_completed_effect (total_time : Float.float)
    (total_words successful_files : Z) (g : Window) :
  exists r g',
    all_completed total_time total_words successful_files g = (r, g') /\
    status_label g' = summary_label (len (files g) - successful_files) /\
    progress_bar g' = progress_bar g /\
    controls g' = controls g.
Proof.
  unfold all_completed, summary_label, bind, gets, modify, lift, ret.
  destruct (len (files g) - successful_files =? 0);
    destruct (0 <? successful_files);
    try destruct (div_int total_time successful_files);
    eexists _, _; (split; [reflexivity |]); done.
Qed.

(** What [start_transcription] does when it goes past its checks. *)
Lemma start_transcription_started (declined : bool) (g : Window) :
  can_start declined g ->
  exists g1,
    start_transcription declined g =
      (Ret (Some (Transcription.init (files g) (output_dir g)
                                     (error_log_path g))), g1) /\
    files g1 = files g /\
    error_log_path g1 = error_log_path g /\
    progress_bar g1 = 0 /\
    status_label g1 = status_label g /\
    controls g1 = batch_controls true.
Proof.
  intros (Hm & Hf & Ho & Hl).
  unfold start_transcription, bind, gets, modify, ret. cbv beta.
  rewrite Hm. cbn [negb].
  destruct (files g) as [| f fs] eqn:Hfs; [done |]. cbn [negb truthy].
  destruct (output_dir g) as [| c out] eqn:Hout; [done |]. cbn [negb truthy].
  destruct (error_log_path g) as [| c' lg] eqn:Hlog; cbn [negb truthy].
  - destruct Hl as [Hl | ->]; [done |]. cbn [negb show error_log_path].
    eexists. split; [reflexivity |].
    cbn [files error_log_path progress_bar status_label controls
         set_stats_text set_progress_bar set_controls show].
    rewrite Hfs, Hlog. done.
  - eexists. split; [reflexivity |].
    cbn [files error_log_path progress_bar status_label controls
         set_stats_text set_progress_bar set_controls show].
    rewrite Hfs, Hlog. done.
Qed.

(** What it does when it stops at one of them. *)
Lemma start_transcription_refused (declined : bool) (g : Window) :
  ~ can_start declined g ->
  exists g1,
    start_transcription declined g = (Ret None, g1) /\
    controls g1 = controls g /\
    progress_bar g1 = progress_bar g /\
    stats_text g1 = stats_text g.
Proof.
  intros Hno.
  unfold start_transcription, bind, gets, modify, ret. cbv beta.
  destruct (model_loaded g) eqn:Hm; cbn [negb].
  2: { by eexists. }
  destruct (files g) as [| f fs] eqn:Hfs; cbn [negb truthy].
  { by eexists. }
  destruct (output_dir g) as [| c out] eqn:Hout; cbn [negb truthy].
  { by eexists. }
  destruct (error_log_path g) as [| c' lg] eqn:Hlog; cbn [negb truthy].
  - destruct declined; cbn [negb].
    + by eexists.
    + exfalso. apply Hno. unfold can_start. rewrite Hm, Hfs, Hout. by auto.
  - exfalso. apply Hno. unfold can_start. rewrite Hm, Hfs, Hout, Hlog. by auto.
Qed.

(** A session that starts: the state when the summary has been handled,
    before [transcription_finished]. *)
Lemma session_started (declined : bool) (w : Transcription.World)
    (g : Window) :
  can_start declined g ->
  let s := snd (batch w (files g) (output_dir g) (error_log_path g)) in
  exists r g',
    transcription_session declined w g = (r, g') /\
    status_label g' =
      summary_label (len (files g) - Transcription.successful_files s) /\
    progress_bar g' =
      default 0 (last (omap percent_of (Transcription.trace s))).
Proof.
  intros Hstart s.
  destruct (start_transcription_started declined g Hstart)
    as (g1 & Hrun & Hf1 & _ & Hp1 & _).
  destruct (batch_signals w (files g) (output_dir g) (error_log_path g))
    as (tr & _ & Htrace & Hsig & Hsent & _).
  fold s in Htrace.
  destruct (deliver_all_signals tr Hsig g1) as (g2 & Hrun2 & Hf2 & _ & _ & Hp2).
  destruct (all_completed_effect
              (Float.sub (Transcription.run_end w) (Transcription.run_start w))
              (Transcription.total_words s) (Transcription.successful_files s)
              g2) as (r & g3 & Hrun3 & Hl3 & Hp3 & _).
  pose proof (attempted_from_le w (length (files g)) 0) as Hle.
  destruct (percents_in_range (length (files g))
              (attempted w (length (files g))) Hle) as [Hrange _].
  fold (len (files g)) in Hrange. rewrite <- Hsent in Hrange.
  assert (Hbar : progress_bar g3 = default 0 (last (omap percent_of tr))).
  { rewrite Hp3, Hp2, fold_setValue, Hp1 by done. reflexivity. }
  assert (Hsame : omap percent_of (Transcription.trace s) = omap percent_of tr).
  { rewrite Htrace, omap_app. simpl. by rewrite app_nil_r. }
  rewrite Hsame. rewrite Hf2, Hf1 in Hl3.
  unfold transcription_session, bind at 1. rewrite Hrun.
  change (Transcription.run w
            (Transcription.start
               (Transcription.init (files g) (output_dir g) (error_log_path g))))
    with (batch w (files g) (output_dir g) (error_log_path g)).
  fold s. rewrite Htrace. unfold bind at 1. rewrite deliver_all_app.
  unfold bind at 1. rewrite Hrun2. simpl deliver_all. unfold deliver.
  unfold bind at 1. rewrite Hrun3.
  destruct r as [[] | e].
  - eexists _, _. split; [reflexivity |].
    unfold ret, transcription_finished, modify.
    cbn [status_label progress_bar set_controls]. by rewrite Hl3, Hbar.
  - eexists _, _. split; [reflexivity |]. by rewrite Hl3, Hbar.
Qed.

(** X19.  When the summary of a batch started from the window arrives,
    the status label reports as errors all files without a successful
    result: those that failed and those a cancellation left unattempted.
    It announces success only when every file succeeded. *)
Theorem summary_label_counts_unattempted_files (declined : bool)
    (w : Transcription.World) (g : Window) :
  can_start declined g ->
  let s := snd (batch w (files g) (output_dir g) (error_log_path g)) in
  status_label (snd (transcription_session declined w g)) =
    summary_label
      (len (Transcription.errors (Transcription.self s)) +
       Z.of_nat (unattempted w (length (files g)))).
Proof.
  intros Hstart s.
  destruct (session_started declined w g Hstart) as (r & g' & -> & Hl & _).
  destruct (batch_signals w (files g) (output_dir g) (error_log_path g))
    as (tr & _ & _ & _ & _ & Hcnt & _).
  fold s in Hl, Hcnt. cbn [snd]. rewrite Hl. f_equal.
  pose proof (attempted_from_le w (length (files g)) 0) as Hle.
  unfold unattempted, attempted in *. unfold len in *. lia.
Qed.

(** X20.  After a batch started from the window the progress bar shows
    the last percentage the worker emitted, none of which the bar
    rejects as out of range; it shows 100 when every file was
    attempted. *)
Theorem progress_bar_follows_the_batch (declined : bool)
    (w : Transcription.World) (g : Window) :
  can_start declined g ->
  let s := snd (batch w (files g) (output_dir g) (error_log_path g)) in
  let bar := progress_bar (snd (transcription_session declined w g)) in
  bar = default 0 (last (omap percent_of (Transcription.trace s))) /\
  0 <= bar <= 100 /\
  (attempted w (length (files g)) = length (files g) -> bar = 100).
Proof.
  intros Hstart s bar.
  destruct (session_started declined w g Hstart) as (r & g' & Hrun & _ & Hbar).
  fold s in Hbar. subst bar. rewrite Hrun. cbn [snd]. rewrite Hbar.
  split; [reflexivity |].
  destruct (batch_signals w (files g) (output_dir g) (error_log_path g))
    as (tr & _ & Htrace & _ & Hsent & _).
  fold s in Htrace.
  assert (Hsame : omap percent_of (Transcription.trace s) =
                  map (percent_at (len (files g)))
                      (seq 0 (attempted w (length (files g))))).
  { rewrite Htrace, omap_app, Hsent. simpl. by rewrite app_nil_r. }
  rewrite Hsame. clear Hsame.
  pose proof (attempted_from_le w (length (files g)) 0) as Hle.
  destruct (percents_in_range (length (files g))
              (attempted w (length (files g))) Hle) as [Hrange Hlast].
  fold (len (files g)) in Hrange, Hlast.
  split.
  - destruct (last (map _ _)) as [p |] eqn:Hp; simpl; [| lia].
    apply last_Some_elem_of in Hp. rewrite Forall_forall in Hrange.
    by apply Hrange.
  - intros Hall. rewrite Hlast; [done | done |].
    destruct Hstart as (_ & Hne & _). by destruct (files g).
Qed.

(** X21.  [start_transcription] starts a worker exactly when a model is
    loaded, at least one file is selected, an output directory is set and
    the log directory is set or the user agrees to go on without it.  The
    worker gets the window's files and directories.  When none is started
    the controls, the progress bar and the statistics are left as they
    were. *)
Theorem worker_started_iff_checks_pass (declined : bool) (g : Window) :
  exists started g1,
    start_transcription declined g = (Ret started, g1) /\
    (started <> None <-> can_start declined g) /\
    (forall worker, started = Some worker ->
       worker = Transcription.init (files g) (output_dir g)
                                   (error_log_path g) /\
       controls g1 = batch_controls true /\ progress_bar g1 = 0) /\
    (started = None ->
       controls g1 = controls g /\ progress_bar g1 = progress_bar g /\
       stats_text g1 = stats_text g).
Proof.
  assert (Hdec : can_start declined g \/ ~ can_start declined g).
  { unfold can_start.
    destruct (model_loaded g); [| right; by intros (? & _)].
    destruct (files g); [right; by intros (_ & ? & _) |].
    destruct (output_dir g); [right; by intros (_ & _ & ? & _) |].
    destruct (error_log_path g); [| left; by auto].
    destruct declined; [right | left; by auto].
    intros (_ & _ & _ & [? | ?]); done. }
  destruct Hdec as [Hyes | Hno].
  - destruct (start_transcription_started declined g Hyes)
      as (g1 & Hrun & _ & _ & Hp & _ & Hc).
    eexists _, g1. split; [exact Hrun |]. split; [done |].
    split; [| done]. intros worker [= <-]. done.
  - destruct (start_transcription_refused declined g Hno)
      as (g1 & Hrun & Hc & Hp & Ht).
    exists None, g1. split; [exact Hrun |]. split; [| split; [done | done]].
    split; [done | by intros ?].
Qed.
End Slots.

Section Slots.
Context `{Runtime} `{Toolkit}.

Lemma deliver_download_signal (load_out : res unit) (e : Download.event)
    (g : Window) :
  ~ is_terminal e ->
  exists g',
    deliver_download load_out e g = (Ret tt, g') /\
    model_loaded g' = model_loaded g /\
    start_btn (controls g') = start_btn (controls g) /\
    dialogs g' = dialogs g.
Proof.
  intros He. destruct e; simpl in He; try tauto;
    unfold deliver_download, update_download_progress,
      update_download_status, modify, ret;
    eexists; (split; [reflexivity |]); done.
Qed.

Lemma deliver_downloads_signals (load_out : res unit)
    (tr : list Download.event) :
  Forall (fun e => ~ is_terminal e) tr ->
  forall g, exists g',
    deliver_downloads load_out tr g = (Ret tt, g') /\
    model_loaded g' = model_loaded g /\
    start_btn (controls g') = start_btn (controls g) /\
    dialogs g' = dialogs g.
Proof.
  induction 1 as [| e tr He _ IH]; intros g.
  - by exists g.
  - destruct (deliver_download_signal load_out e g He)
      as (g1 & Hrun & Hm & Hs & Hd).
    destruct (IH g1) as (g2 & Hrun2 & Hm2 & Hs2 & Hd2).
    exists g2. simpl deliver_downloads. unfold bind. rewrite Hrun, Hrun2.
    split; [done |]. by rewrite Hm2, Hs2, Hd2.
Qed.

Lemma deliver_downloads_app (load_out : res unit)
    (a b : list Download.event) (g : Window) :
  deliver_downloads load_out (a ++ b) g =
  (deliver_downloads load_out a ;;; deliver_downloads load_out b) g.
Proof.
  revert g. induction a as [| e a IH]; intros g; simpl.
  - reflexivity.
  - unfold bind. destruct (deliver_download load_out e g) as [[[] | ex] g1];
      [| done].
    rewrite IH. reflexivity.
Qed.

(** Either slot of a terminal signal returns and unlocks the controls. *)
Lemma terminal_slot (load_out : res unit) (e : Download.event) (g : Window) :
  is_terminal e ->
  exists g',
    deliver_download load_out e g = (Ret tt, g') /\
    unlocked g' /\
    ((exists p, e = Download.FinishedDownload p) /\ load_out = Ret tt /\
     model_ready g g' \/
     ((exists p, e = Download.FinishedDownload p) -> load_out <> Ret tt) /\
     load_refused g g').
Proof.
  intros He. destruct e as [| | p | msg | |]; simpl in He; try tauto.
  - unfold deliver_download, load_downloaded_model, try_finally, try_except,
      bind, lift, modify, ret.
    destruct load_out as [[] | ex]; eexists; (split; [reflexivity |]).
    + split; [done |]. left. split; [by exists p |]. done.
    + split; [done |]. right. split; [by intros _ |].
      split; [done |]. split; [done |]. by eexists _, _.
  - unfold deliver_download, download_error, bind, modify, ret.
    eexists. split; [reflexivity |]. split; [done |]. right.
    split; [by intros [? ?] |]. split; [done |]. split; [done |].
    by eexists _, _.
Qed.

(** X22.  A download started from the window never leaves it locked:
    whatever the worker and the model loader do, the slots run for its
    signals return, the download controls are enabled again and the
    download bar is hidden.  A model counts as loaded, and the start
    button is enabled, exactly when the run ended with
    [finished_download] and the loader returned; otherwise a critical
    message box is shown. *)
Theorem download_session_unlocks_the_controls (model_name : str)
    (w : Download.World) (load_out : res unit) (g : Window) :
  models_dir g <> [] ->
  let worker := {| Download.model_name := model_name;
                   Download.models_dir := models_dir g |} in
  exists g',
    download_session model_name w load_out g = (Ret tt, g') /\
    unlocked g' /\
    ((exists p, last (Download.run_trace worker w) =
                Some (Download.FinishedDownload p)) /\
     load_out = Ret tt /\ model_ready g g' \/
     ((exists p, last (Download.run_trace worker w) =
                 Some (Download.FinishedDownload p)) -> load_out <> Ret tt) /\
     load_refused g g').
Proof.
  intros Hdir worker.
  destruct (run_shape worker w) as (tr & final & Hrun & Hfinal & Htr).
  assert (Htrace : Download.run_trace worker w = tr ++ [final])
    by (unfold Download.run_trace; by rewrite Hrun).
  unfold download_session, download_and_load_model, bind at 1, bind at 1,
    gets at 1.
  destruct (models_dir g) as [| c dir] eqn:Hd; [done |].
  cbn [truthy negb]. unfold bind, modify, ret. cbv beta.
  fold worker. rewrite Htrace, deliver_downloads_app. unfold bind.
  set (g0 := set_download_progress _ _).
  destruct (deliver_downloads_signals load_out tr Htr g0)
    as (g1 & -> & Hm1 & Hs1 & Hd1).
  simpl deliver_downloads. unfold bind.
  destruct (terminal_slot load_out final g1 Hfinal)
    as (g2 & -> & Hun & Hcase).
  exists g2. unfold ret. split; [reflexivity |]. split; [exact Hun |].
  rewrite last_snoc.
  assert (Hsame : forall p, Some final = Some (Download.FinishedDownload p) <->
                            final = Download.FinishedDownload p).
  { intros p. split; [by intros [= ->] | by intros ->]. }
  unfold model_ready, load_refused in *. rewrite Hm1, Hs1, Hd1 in Hcase.
  destruct Hcase as [([p Hp] & Hl & Hr) | (Hn & Hr)].
  - left. split; [exists p; by apply Hsame |]. by split.
  - right. split; [| exact Hr].
    intros [p Hp]. apply Hn. exists p. by apply Hsame.
Qed.
End Slots.

Lemma summary_label_witness :
  let w := Scenario.world Scenario.cancelled_during_second Scenario.log_ok in
  let g := ready_window [lit "a.mp3"; lit "b.mp3"; lit "c.mp3"] in
  can_start false g /\
  status_label
    (snd (@transcription_session posix plain_toolkit false w g)) =
    summary_label 1.
Proof.
  intros w g.
  assert (Hstart : can_start false g).
  { split; [reflexivity |]. split; [discriminate |]. split; [discriminate |].
    by right. }
  split; [exact Hstart |].
  exact (@summary_label_counts_unattempted_files posix plain_toolkit false
           w g Hstart).
Defined.

Lemma progress_bar_witness :
  let w := Scenario.world Scenario.first_only Scenario.log_ok in
  let g := ready_window [lit "a.mp3"; lit "b.mp3"] in
  can_start false g /\
  progress_bar
    (snd (@transcription_session posix plain_toolkit false w g)) = 100.
Proof.
  intros w g.
  assert (Hstart : can_start false g).
  { split; [reflexivity |]. split; [discriminate |]. split; [discriminate |].
    by right. }
  split; [exact Hstart |].
  exact (proj2 (proj2 (@progress_bar_follows_the_batch posix plain_toolkit
                         false w g Hstart)) eq_refl).
Defined.

Lemma download_session_witness :
  let g := ready_window [] in
  models_dir g <> [] /\
  exists g',
    @download_session posix (lit "tiny") DownloadRuns.fresh_world (Ret tt) g =
      (Ret tt, g') /\
    unlocked g'.
Proof.
  intros g.
  assert (Hdir : models_dir g <> []) by discriminate.
  split; [exact Hdir |].
  destruct (@download_session_unlocks_the_controls posix (lit "tiny")
              DownloadRuns.fresh_world (Ret tt) g Hdir) as (g' & Hrun & Hun & _).
  exists g'. by split.
Defined.
End GuiFacts.
